(** * crypto-lab: the random-bit generators and their statistical tests

    A shallow embedding of [lib/entropy.ts] (the entropy pool, the four
    generators, the hash functions, [Stats], [toHex]/[fromHex] and the
    utilities built on [randomBytes]) and of code of
    [src/modules/complexity.ts] and [src/utils/statistics.ts] (the
    generators, the chi-square test, the attack on the congruential
    generator, quicksort, modular arithmetic with the Miller-Rabin test and
    the two ciphers built on it, the subset-sum puzzle), followed by the
    properties the design document states about them and by further
    properties read off the code. *)

From Stdlib Require Import ZArith QArith Qround Qabs Lia List String Ascii Permutation Sorted Zmod.
From stdpp Require Import base list sorting.
From Equations Require Import Equations.

Open Scope Z_scope.

(** ** JavaScript numbers

    A JavaScript [number] is an IEEE-754 double.  The generators only ever
    put integers through [*] and [+]; on integers a double operation is the
    exact operation followed by rounding to 53 significant bits (ties to
    even), which is what [round53] does, as long as the result is finite
    (below 2^1024 in magnitude): the operands here are 32-bit or 64-bit
    values, or are bounded where a property is stated.  Quotients ([/])
    and the products that have a quotient for a factor ([next() * max])
    are kept as exact rationals: the double the source computes is the
    rounding of that rational, and rounding is monotone and leaves the
    integers below 2^53 fixed, so that a bound by such integers holds of
    the double when it holds of the rational; the value itself can differ
    in the last place, and no property below states it. *)
Module JS.

Definition round53 (x : Z) : Z :=
  let a := Z.abs x in
  if a <? 2 ^ 53 then x
  else
    let e := Z.log2 a - 52 in
    let q := Z.shiftr a e in
    let r := a - Z.shiftl q e in
    let half := Z.shiftl 1 (e - 1) in
    let q' := if (half <? r) || ((r =? half) && Z.odd q) then q + 1 else q in
    Z.sgn x * Z.shiftl q' e.

(** [x * y] and [x + y] on integer-valued doubles. *)
Definition mul (x y : Z) : Z := round53 (x * y).
Definition add (x y : Z) : Z := round53 (x + y).

(** [x % y] is exact on doubles and takes the sign of the dividend. *)
Definition rem (x y : Z) : Z := Z.rem x y.

(** [x / y], the exact quotient. *)
Definition div (x y : Z) : Q := (inject_Z x / inject_Z y)%Q.

(** [Math.floor]. *)
Definition Math_floor (q : Q) : Z := Qfloor q.

(** The conversions every bitwise operator applies to its operands: the
    low 32 bits, read as unsigned or as two's complement. *)
Definition ToUint32 (x : Z) : Z := Z.land x 0xFFFFFFFF.
Definition ToInt32 (x : Z) : Z :=
  let u := ToUint32 x in if u <? 0x80000000 then u else u - 0x100000000.

(** [x ^ y], [x & y], [x | y]: signed 32-bit results. *)
Definition xor (x y : Z) : Z := ToInt32 (Z.lxor (ToInt32 x) (ToInt32 y)).
Definition and (x y : Z) : Z := ToInt32 (Z.land (ToInt32 x) (ToInt32 y)).
Definition or (x y : Z) : Z := ToInt32 (Z.lor (ToInt32 x) (ToInt32 y)).
(** [x << n]: signed; the shift count is taken modulo 32. *)
Definition shl (x n : Z) : Z := ToInt32 (Z.shiftl (ToInt32 x) (n mod 32)).
(** [x >>> n]: unsigned. *)
Definition ushr (x n : Z) : Z := Z.shiftr (ToUint32 x) (n mod 32).
(** [x >> n]: signed (arithmetic). *)
Definition sar (x n : Z) : Z := Z.shiftr (ToInt32 x) (n mod 32).

(** What a thrown exception is; the only one this code can raise is the
    [RangeError] of a typed-array constructor given a length that is not an
    index. *)
Inductive exn : Set := RangeError.

Inductive result (A : Type) : Type :=
| Ok (a : A)
| Throw (e : exn).
Arguments Ok {A} a.
Arguments Throw {A} e.

#[global] Instance result_ret : MRet result := fun _ a => Ok a.
#[global] Instance result_bind : MBind result := fun _ _ k r =>
  match r with Ok a => k a | Throw e => Throw e end.

(** [new Uint8Array(n)] and [new Uint32Array(n)] for an integer [n]: the
    length goes through ToIndex, which throws a [RangeError] below 0 and
    above 2^53 - 1.  (An engine refuses with the same error a length it
    cannot allocate; where that limit lies below 2^53 - 1 depends on the
    engine and its memory, and is not modelled.) *)
Definition new_array (n : Z) : result (list Z) :=
  if (n <? 0) || (2 ^ 53 - 1 <? n) then Throw RangeError
  else Ok (replicate (Z.to_nat n) 0).

(** [new Array(n).fill(0)] for a natural number [n]: a plain array has at
    most 2^32 - 1 elements, and the constructor throws a [RangeError] for
    a longer one. *)
Definition new_Array (n : nat) : result (list Z) :=
  if 2 ^ 32 - 1 <? Z.of_nat n then Throw RangeError else Ok (replicate n 0).

(** An indexed read of an array that sits inside a bitwise or arithmetic
    expression.  Every read below is in range, but for the key bytes of a
    short [ChaCha20] seed, where [undefined] enters [|] and [<<] as 0. *)
Definition rd (l : list Z) (i : nat) : Z := default 0 (l !! i).

(** A store into a [Uint8Array] / [Uint32Array] slot keeps the low bits. *)
Definition u8 (x : Z) : Z := Z.land x 0xFF.
Definition u32 (x : Z) : Z := ToUint32 x.

End JS.

(** ** The entropy pool ([lib/entropy.ts], class [Entropy]) *)
Module Entropy.

Record t : Set := { pool : list Z }.

Definition poolSize : nat := 256.

(** A new instance: [pool = []]. *)
Definition create : t := {| pool := [] |}.

Definition addEntropy (e : t) (byte : Z) : t :=
  let p := pool e ++ [JS.and byte 0xFF] in
  {| pool := if (poolSize <? length p)%nat then tail p else p |}.

(** What the outside world supplies: the value of the [k]-th call of
    [collectTiming()] and of [collectMathRandom()] within one [getBytes]. *)
Record samples : Set := { collectTiming : nat -> Z; collectMathRandom : nat -> Z }.

(** The inner loop of [getBytes]: the pool folded into one byte. *)
Definition mix (p : list Z) (i : nat) : Z :=
  foldl (fun mixed j =>
           let mixed := JS.xor mixed (JS.mul (JS.rd p j) (Z.of_nat (j + i + 1))) in
           JS.and (JS.add (JS.mul mixed 31) 17) 0xFF)
        0 (seq 0 (length p)).

Definition getBytes (e : t) (count : Z) (env : samples) : JS.result (list Z * t) :=
  result ← JS.new_array count;
  let e := foldl (fun e i => addEntropy (addEntropy e (collectTiming env i))
                                        (collectMathRandom env i))
                 e (seq 0 16) in
  let result := foldl (fun result i =>
                         <[ i := JS.u8 (JS.xor (mix (pool e) i)
                                               (collectTiming env (16 + i))) ]> result)
                      result (seq 0 (Z.to_nat count)) in
  mret (result, e).

(** The pools a program can hold: a new one, and what the two public
    methods leave behind. *)
Inductive reachable : t -> Prop :=
| reach_create : reachable create
| reach_addEntropy (e : t) (byte : Z) :
    reachable e -> reachable (addEntropy e byte)
| reach_getBytes (e e' : t) (count : Z) (env : samples) (bytes : list Z) :
    reachable e -> getBytes e count env = JS.Ok (bytes, e') -> reachable e'.

End Entropy.

(** ** Linear congruential generator ([lib/entropy.ts], class [LCG]) *)
Module LCG.

Record t : Set := { state : Z }.

Definition a : Z := 1664525.
Definition c : Z := 1013904223.
Definition m : Z := 0x100000000.

(** [seed ?? Date.now() & 0xFFFFFFFF]; [now] is what [Date.now()] returns. *)
Definition constructor (seed : option Z) (now : Z) : t :=
  {| state := match seed with Some s => s | None => JS.and now 0xFFFFFFFF end |}.

Definition next (g : t) : Q * t :=
  let s := JS.ToUint32 (JS.add (JS.mul a (state g)) c) in
  (JS.div s m, {| state := s |}).

End LCG.

(** The same generator in [src/modules/complexity.ts], which reduces with
    [%] instead of [>>> 0]. *)
Module ComplexityLCG.

Definition m : Z := 2 ^ 32.

(** [seed ?? Date.now() & 0xFFFFFFFF]: without a seed, a signed 32-bit
    word. *)
Definition constructor (seed : option Z) (now : Z) : LCG.t :=
  {| LCG.state := match seed with Some s => s | None => JS.and now 0xFFFFFFFF end |}.

Definition next (g : LCG.t) : Q * LCG.t :=
  let s := JS.rem (JS.add (JS.mul LCG.a (LCG.state g)) LCG.c) m in
  (JS.div s m, {| LCG.state := s |}).

End ComplexityLCG.

(** ** Mersenne Twister ([lib/entropy.ts], class [MersenneTwister]) *)
Module MersenneTwister.

Record t : Set := { mt : list Z; index : nat }.

(** The body of the loop of [seed]: [prev] is read back from the array. *)
Definition seed_step (mt : list Z) (i : nat) : list Z :=
  let prev := JS.rd mt (i - 1) in
  <[ i := JS.u32 (JS.ushr (JS.add (JS.mul 0x6c078965 (JS.xor prev (JS.ushr prev 30)))
                                  (Z.of_nat i)) 0) ]> mt.

Definition seed (g : t) (s : Z) : t :=
  {| mt := foldl seed_step (<[ 0%nat := JS.u32 (JS.ushr s 0) ]> (mt g)) (seq 1 623);
     index := 624 |}.

(** [seed ?? Date.now()]. *)
Definition constructor (s : option Z) (now : Z) : t :=
  seed {| mt := replicate 624 0; index := 625 |}
       (match s with Some s => s | None => now end).

Definition twist_step (mt : list Z) (i : nat) : list Z :=
  let y := JS.or (JS.and (JS.rd mt i) 0x80000000)
                 (JS.and (JS.rd mt ((i + 1) mod 624)%nat) 0x7fffffff) in
  let mt1 := <[ i := JS.u32 (JS.xor (JS.rd mt ((i + 397) mod 624)%nat) (JS.ushr y 1)) ]> mt in
  if JS.and y 1 =? 0 then mt1
  else <[ i := JS.u32 (JS.xor (JS.rd mt1 i) 0x9908b0df) ]> mt1.

Definition twist (g : t) : t :=
  {| mt := foldl twist_step (mt g) (seq 0 624); index := 0 |}.

(** The tempering of [next], up to and including the final [y >>> 0]. *)
Definition temper (y0 : Z) : Z :=
  let y := JS.xor y0 (JS.ushr y0 11) in
  let y := JS.xor y (JS.and (JS.shl y 7) 0x9d2c5680) in
  let y := JS.xor y (JS.and (JS.shl y 15) 0xefc60000) in
  let y := JS.xor y (JS.ushr y 18) in
  JS.ushr y 0.

Definition next (g : t) : Q * t :=
  let g1 := if (624 <=? index g)%nat then twist g else g in
  let y := JS.rd (mt g1) (index g1) in
  (JS.div (temper y) 0xFFFFFFFF, {| mt := mt g1; index := S (index g1) |}).

End MersenneTwister.

(** The Mersenne Twister of [src/modules/complexity.ts]: its [init] splits
    the multiplication into two 16-bit halves. *)
Module ComplexityMT.

Definition init_step (mt : list Z) (i : nat) : list Z :=
  let s := JS.xor (JS.rd mt (i - 1)) (JS.ushr (JS.rd mt (i - 1)) 30) in
  <[ i := JS.u32 (JS.ushr
           (JS.add (JS.add (JS.shl (JS.mul (JS.ushr (JS.and s 0xffff0000) 16) 1812433253) 16)
                           (JS.mul (JS.and s 0x0000ffff) 1812433253))
                   (Z.of_nat i)) 0) ]> mt.

Definition init (mt : list Z) (seed : Z) : list Z :=
  foldl init_step (<[ 0%nat := JS.u32 (JS.ushr seed 0) ]> mt) (seq 1 623).

End ComplexityMT.

(** ** The stream-cipher generator ([lib/entropy.ts], class [ChaCha20]) *)
Module ChaCha20.

Record t : Set := { state : list Z; buffer : list Z; pos : nat }.

(** [key] is the explicit seed, or else the bytes the entropy pool gave;
    [now14] and [now15] are the two readings of [Date.now()]. *)
Definition constructor (seed : option (list Z)) (pool_bytes : list Z) (now14 now15 : Z) : t :=
  let st := replicate 16 0 in
  let st := <[ 0%nat := JS.u32 0x61707865 ]> st in
  let st := <[ 1%nat := JS.u32 0x3320646e ]> st in
  let st := <[ 2%nat := JS.u32 0x79622d32 ]> st in
  let st := <[ 3%nat := JS.u32 0x6b206574 ]> st in
  let key := match seed with Some k => k | None => pool_bytes end in
  let st := foldl (fun st i =>
              <[ (4 + i)%nat :=
                   JS.u32 (JS.or (JS.or (JS.or (JS.rd key (i * 4))
                                               (JS.shl (JS.rd key (i * 4 + 1)) 8))
                                        (JS.shl (JS.rd key (i * 4 + 2)) 16))
                                 (JS.shl (JS.rd key (i * 4 + 3)) 24)) ]> st)
            st (seq 0 8) in
  let st := <[ 12%nat := JS.u32 0 ]> st in
  let st := <[ 13%nat := JS.u32 0 ]> st in
  let st := <[ 14%nat := JS.u32 (JS.and now14 0xFFFFFFFF) ]> st in
  let st := <[ 15%nat := JS.u32 (JS.and (Z.quot now15 0x100000000) 0xFFFFFFFF) ]> st in
  {| state := st; buffer := replicate 64 0; pos := 64 |}.

Definition rotl (x n : Z) : Z :=
  JS.ushr (JS.or (JS.shl x n) (JS.ushr x (32 - n))) 0.

(** The two statements [quarterRound] is made of:
    [x[a] = (x[a] + x[b]) >>> 0] and [x[d] = this.rotl(x[d] ^ x[a], n)]. *)
Definition add_into (x : list Z) (a b : nat) : list Z :=
  <[ a := JS.u32 (JS.ushr (JS.add (JS.rd x a) (JS.rd x b)) 0) ]> x.
Definition xor_rotl_into (x : list Z) (d a : nat) (n : Z) : list Z :=
  <[ d := JS.u32 (rotl (JS.xor (JS.rd x d) (JS.rd x a)) n) ]> x.

Definition quarterRound (x : list Z) (a b c d : nat) : list Z :=
  let x := add_into x a b in let x := xor_rotl_into x d a 16 in
  let x := add_into x c d in let x := xor_rotl_into x b c 12 in
  let x := add_into x a b in let x := xor_rotl_into x d a 8 in
  let x := add_into x c d in let x := xor_rotl_into x b c 7 in
  x.

(** The body of the first loop of [block]. *)
Definition block_rounds (x : list Z) : list Z :=
  let x := quarterRound x 0 4 8 12 in
  let x := quarterRound x 1 5 9 13 in
  let x := quarterRound x 2 6 10 14 in
  let x := quarterRound x 3 7 11 15 in
  let x := quarterRound x 0 5 10 15 in
  let x := quarterRound x 1 6 11 12 in
  let x := quarterRound x 2 7 8 13 in
  let x := quarterRound x 3 4 9 14 in
  x.

(** The body of the second loop of [block]. *)
Definition block_store (st x : list Z) (buffer : list Z) (i : nat) : list Z :=
  let v := JS.ushr (JS.add (JS.rd x i) (JS.rd st i)) 0 in
  let buffer := <[ (i * 4)%nat := JS.u8 (JS.and v 0xFF) ]> buffer in
  let buffer := <[ (i * 4 + 1)%nat := JS.u8 (JS.and (JS.ushr v 8) 0xFF) ]> buffer in
  let buffer := <[ (i * 4 + 2)%nat := JS.u8 (JS.and (JS.ushr v 16) 0xFF) ]> buffer in
  let buffer := <[ (i * 4 + 3)%nat := JS.u8 (JS.and (JS.ushr v 24) 0xFF) ]> buffer in
  buffer.

Definition block (g : t) : t :=
  let x := Nat.iter 10 block_rounds (state g) in
  let buffer := foldl (block_store (state g) x) (buffer g) (seq 0 16) in
  let st := <[ 12%nat := JS.u32 (JS.add (JS.rd (state g) 12) 1) ]> (state g) in
  let st := if JS.rd st 12 =? 0
            then <[ 13%nat := JS.u32 (JS.add (JS.rd st 13) 1) ]> st else st in
  {| state := st; buffer := buffer; pos := 0 |}.

Definition nextByte (g : t) : Z * t :=
  let g1 := if (64 <=? pos g)%nat then block g else g in
  (JS.rd (buffer g1) (pos g1),
   {| state := state g1; buffer := buffer g1; pos := S (pos g1) |}).

Definition nextBytes_step (acc : list Z * t) (i : nat) : list Z * t :=
  let (b, g) := nextByte (snd acc) in (<[ i := JS.u8 b ]> (fst acc), g).

Definition nextBytes (g : t) (count : Z) : JS.result (list Z * t) :=
  result ← JS.new_array count;
  mret (foldl nextBytes_step (result, g) (seq 0 (Z.to_nat count))).

Definition next (g : t) : JS.result (Q * t) :=
  r ← nextBytes g 4;
  let b := fst r in
  mret (JS.div (JS.ushr (JS.or (JS.or (JS.or (JS.rd b 0) (JS.shl (JS.rd b 1) 8))
                                      (JS.shl (JS.rd b 2) 16))
                               (JS.shl (JS.rd b 3) 24)) 0)
               0xFFFFFFFF,
        snd r).

End ChaCha20.

(** ** The stream-cipher generator of [src/modules/complexity.ts], class
    [ChaCha20CSPRNG]: the block counter is a [bigint] of its own, and
    words 13 to 15 hold a 12-byte nonce. *)
Module ChaCha20CSPRNG.

Record t : Set := { state : list Z; counter : Z; buffer : list Z; bufferIndex : nat }.

Definition bytesToWord (bytes : list Z) (offset : nat) : Z :=
  JS.ushr (JS.or (JS.or (JS.or (JS.rd bytes offset)
                               (JS.shl (JS.rd bytes (offset + 1)) 8))
                        (JS.shl (JS.rd bytes (offset + 2)) 16))
                 (JS.shl (JS.rd bytes (offset + 3)) 24)) 0.

(** The constructor, given the key and the nonce (the caller's, or the 32
    and 12 bytes [crypto.randomBytes] returned). *)
Definition constructor (key nonce : list Z) : t :=
  let st := replicate 16 0 in
  let st := <[ 0%nat := JS.u32 0x61707865 ]> st in
  let st := <[ 1%nat := JS.u32 0x3320646e ]> st in
  let st := <[ 2%nat := JS.u32 0x79622d32 ]> st in
  let st := <[ 3%nat := JS.u32 0x6b206574 ]> st in
  let st := foldl (fun st i => <[ (4 + i)%nat := JS.u32 (bytesToWord key (i * 4)) ]> st)
                  st (seq 0 8) in
  let st := <[ 12%nat := JS.u32 0 ]> st in
  let st := <[ 13%nat := JS.u32 0 ]> st in
  let st := <[ 13%nat := JS.u32 (bytesToWord nonce 0) ]> st in
  let st := <[ 14%nat := JS.u32 (bytesToWord nonce 4) ]> st in
  let st := <[ 15%nat := JS.u32 (bytesToWord nonce 8) ]> st in
  {| state := st; counter := 0; buffer := replicate 64 0; bufferIndex := 64 |}.

Definition rotl (x n : Z) : Z :=
  JS.ushr (JS.or (JS.shl x n) (JS.ushr x (32 - n))) 0.

(** The three statements [quarterRound] is made of:
    [state[a] = (state[a] + state[b]) >>> 0], [state[d] ^= state[a]] and
    [state[d] = this.rotl(state[d], n)]. *)
Definition add_into (x : list Z) (a b : nat) : list Z :=
  <[ a := JS.u32 (JS.ushr (JS.add (JS.rd x a) (JS.rd x b)) 0) ]> x.
Definition xor_into (x : list Z) (d a : nat) : list Z :=
  <[ d := JS.u32 (JS.xor (JS.rd x d) (JS.rd x a)) ]> x.
Definition rotl_into (x : list Z) (d : nat) (n : Z) : list Z :=
  <[ d := JS.u32 (rotl (JS.rd x d) n) ]> x.

Definition quarterRound (x : list Z) (a b c d : nat) : list Z :=
  let x := add_into x a b in let x := xor_into x d a in let x := rotl_into x d 16 in
  let x := add_into x c d in let x := xor_into x b c in let x := rotl_into x b 12 in
  let x := add_into x a b in let x := xor_into x d a in let x := rotl_into x d 8 in
  let x := add_into x c d in let x := xor_into x b c in let x := rotl_into x b 7 in
  x.

Definition rounds (x : list Z) : list Z :=
  let x := quarterRound x 0 4 8 12 in
  let x := quarterRound x 1 5 9 13 in
  let x := quarterRound x 2 6 10 14 in
  let x := quarterRound x 3 7 11 15 in
  let x := quarterRound x 0 5 10 15 in
  let x := quarterRound x 1 6 11 12 in
  let x := quarterRound x 2 7 8 13 in
  let x := quarterRound x 3 4 9 14 in
  x.

(** [working[i] = (working[i] + this.state[i]) >>> 0]. *)
Definition add_state (st : list Z) (working : list Z) (i : nat) : list Z :=
  <[ i := JS.u32 (JS.ushr (JS.add (JS.rd working i) (JS.rd st i)) 0) ]> working.

Definition store_word (working : list Z) (buffer : list Z) (i : nat) : list Z :=
  let word := JS.rd working i in
  let buffer := <[ (i * 4)%nat := JS.u8 (JS.and word 0xFF) ]> buffer in
  let buffer := <[ (i * 4 + 1)%nat := JS.u8 (JS.and (JS.sar word 8) 0xFF) ]> buffer in
  let buffer := <[ (i * 4 + 2)%nat := JS.u8 (JS.and (JS.sar word 16) 0xFF) ]> buffer in
  let buffer := <[ (i * 4 + 3)%nat := JS.u8 (JS.and (JS.sar word 24) 0xFF) ]> buffer in
  buffer.

(** [Number(this.counter & 0xFFFFFFFFn)] is an integer below 2^32, which a
    double holds exactly. *)
Definition generateBlock (g : t) : t :=
  let st := <[ 12%nat := JS.u32 (JS.round53 (Z.land (counter g) 0xFFFFFFFF)) ]> (state g) in
  let working := Nat.iter 10 rounds st in
  let working := foldl (add_state st) working (seq 0 16) in
  let buffer := foldl (store_word working) (buffer g) (seq 0 16) in
  {| state := st; counter := counter g + 1; buffer := buffer; bufferIndex := 0 |}.

End ChaCha20CSPRNG.

(** ** XorShift128+ ([lib/entropy.ts], class [XorShift128Plus])

    The state words are [bigint]s, that is exact integers. *)
Module XorShift128Plus.

Record t : Set := { s0 : Z; s1 : Z }.

Definition mask : Z := 0xFFFFFFFFFFFFFFFF.

(** [seed ?? BigInt(Date.now()) * 0x123456789ABCDEFn]. *)
Definition constructor (seed : option Z) (now : Z) : t :=
  let s := match seed with Some s => s | None => now * 0x123456789ABCDEF end in
  let a := Z.land s mask in
  let b := Z.land (s * 0x5851F42D4C957F2D) mask in
  {| s0 := if a =? 0 then 1 else a; s1 := if b =? 0 then 1 else b |}.

(** [Number(result)] rounds the integer to a double, and so does the
    literal [0xFFFFFFFFFFFFFFFF] the result is divided by. *)
Definition next (g : t) : Q * t :=
  let x := s0 g in
  let y := s1 g in
  let x := Z.lxor x (Z.land (Z.shiftl x 23) mask) in
  let n := Z.lxor (Z.lxor (Z.lxor x y) (Z.shiftr x 18)) (Z.shiftr y 5) in
  let result := Z.land (n + y) mask in
  (JS.div (JS.round53 result) (JS.round53 0xFFFFFFFFFFFFFFFF), {| s0 := y; s1 := n |}).

End XorShift128Plus.

(** ** The shared contract: [next], [nextInt], [nextBytes]

    Every class writes [nextInt] as [Math.floor(this.next() * max)]; the
    three classes other than [ChaCha20] write [nextBytes] as a loop over
    [nextInt(256)].  The product is the exact one here (see [JS]): the
    properties of [nextInt] below are bounds.  The bytes of [nextBytes]
    are those of the source: the product by 256 is exact in doubles, and
    the rounding of the quotient, below 2^-45 after the product, does not
    reach the next integer, which is 2^-32 away or more. *)
Inductive generator : Set :=
| GLCG (g : LCG.t)
| GMersenneTwister (g : MersenneTwister.t)
| GChaCha20 (g : ChaCha20.t)
| GXorShift128Plus (g : XorShift128Plus.t).

Definition next (g : generator) : JS.result (Q * generator) :=
  match g with
  | GLCG g => let (x, g') := LCG.next g in mret (x, GLCG g')
  | GMersenneTwister g => let (x, g') := MersenneTwister.next g in mret (x, GMersenneTwister g')
  | GChaCha20 g => r ← ChaCha20.next g; mret (fst r, GChaCha20 (snd r))
  | GXorShift128Plus g => let (x, g') := XorShift128Plus.next g in mret (x, GXorShift128Plus g')
  end.

Definition nextInt (g : generator) (max : Z) : JS.result (Z * generator) :=
  r ← next g;
  mret (JS.Math_floor (fst r * inject_Z max), snd r).

Definition nextBytes_step (acc : JS.result (list Z * generator)) (i : nat)
  : JS.result (list Z * generator) :=
  a ← acc;
  r ← nextInt (snd a) 256;
  mret (<[ i := JS.u8 (fst r) ]> (fst a), snd r).

Definition nextBytes (g : generator) (count : Z) : JS.result (list Z * generator) :=
  match g with
  | GChaCha20 g =>
      r ← ChaCha20.nextBytes g count; mret (fst r, GChaCha20 (snd r))
  | _ =>
      bytes ← JS.new_array count;
      foldl nextBytes_step (mret (bytes, g)) (seq 0 (Z.to_nat count))
  end.

(** The generator after [n] calls of [next()] whose values are dropped. *)
Fixpoint skip (n : nat) (g : generator) : JS.result generator :=
  match n with
  | O => mret g
  | S n => r ← next g; skip n (snd r)
  end.

(** ** The MT19937 seeding recurrence, as the design document words it:
    [mt[i] = (1812433253 * (mt[i-1] xor (mt[i-1] >> 30)) + i) mod 2^32]. *)
Definition mt19937_recurrence (prev : Z) (i : nat) : Z :=
  (1812433253 * Z.lxor prev (Z.shiftr prev 30) + Z.of_nat i) mod 2 ^ 32.

Definition mt19937_seed (s : Z) : list Z :=
  foldl (fun mt i => <[ i := mt19937_recurrence (JS.rd mt (i - 1)) i ]> mt)
        (<[ 0%nat := s mod 2 ^ 32 ]> (replicate 624 0)) (seq 1 623).

(** ** The block function of the stream cipher, as the design document
    words it: ten double rounds of add-rotate-xor quarter-rounds, the
    word-wise sum with the input, the little-endian bytes, the counter. *)
Module ChaChaSpec.

Definition add32 (a b : Z) : Z := (a + b) mod 2 ^ 32.

(** Rotation of a 32-bit word to the left by [n] bits. *)
Definition rotl32 (x n : Z) : Z :=
  Z.lor (Z.shiftl x n mod 2 ^ 32) (Z.shiftr x (32 - n)).

Definition quarter (a b c d : Z) : Z * Z * Z * Z :=
  let a := add32 a b in let d := rotl32 (Z.lxor d a) 16 in
  let c := add32 c d in let b := rotl32 (Z.lxor b c) 12 in
  let a := add32 a b in let d := rotl32 (Z.lxor d a) 8 in
  let c := add32 c d in let b := rotl32 (Z.lxor b c) 7 in
  (a, b, c, d).

(** The quarter-round applied to the words at four positions. *)
Definition quarter_at (x : list Z) (i j k l : nat) : list Z :=
  match quarter (JS.rd x i) (JS.rd x j) (JS.rd x k) (JS.rd x l) with
  | (a, b, c, d) => <[ j := b ]> (<[ k := c ]> (<[ l := d ]> (<[ i := a ]> x)))
  end.

Definition column_round (x : list Z) : list Z :=
  quarter_at (quarter_at (quarter_at (quarter_at x 0 4 8 12) 1 5 9 13) 2 6 10 14) 3 7 11 15.

Definition diagonal_round (x : list Z) : list Z :=
  quarter_at (quarter_at (quarter_at (quarter_at x 0 5 10 15) 1 6 11 12) 2 7 8 13) 3 4 9 14.

Definition double_round (x : list Z) : list Z := diagonal_round (column_round x).

Definition le_bytes (w : Z) : list Z :=
  [w mod 256; w / 2 ^ 8 mod 256; w / 2 ^ 16 mod 256; w / 2 ^ 24 mod 256].

Definition keystream (st : list Z) : list Z :=
  flat_map le_bytes (zip_with add32 (Nat.iter 10 double_round st) st).

(** Words 12 and 13 read as one 64-bit counter, low word first. *)
Definition counter (st : list Z) : Z := JS.rd st 12 + 2 ^ 32 * JS.rd st 13.

End ChaChaSpec.

(** A well-formed generator: sixteen 32-bit words and a 64-byte buffer,
    which is what [Uint32Array(16)] and [Uint8Array(64)] hold. *)
Definition word (w : Z) : Prop := 0 <= w < 2 ^ 32.
Definition chacha_wf (g : ChaCha20.t) : Prop :=
  length (ChaCha20.state g) = 16%nat /\ Forall word (ChaCha20.state g)
  /\ length (ChaCha20.buffer g) = 64%nat.

(** The same for a [ChaCha20CSPRNG], whose [bigint] counter starts at 0
    and only grows. *)
Definition csprng_wf (g : ChaCha20CSPRNG.t) : Prop :=
  length (ChaCha20CSPRNG.state g) = 16%nat /\ Forall word (ChaCha20CSPRNG.state g)
  /\ length (ChaCha20CSPRNG.buffer g) = 64%nat /\ 0 <= ChaCha20CSPRNG.counter g.

(** The block-function test vector of RFC 8439, section 2.3.2. *)
Definition rfc8439_state : list Z :=
  [0x61707865; 0x3320646e; 0x79622d32; 0x6b206574;
   0x03020100; 0x07060504; 0x0b0a0908; 0x0f0e0d0c;
   0x13121110; 0x17161514; 0x1b1a1918; 0x1f1e1d1c;
   0x00000001; 0x09000000; 0x4a000000; 0x00000000].

Definition rfc8439_generator : ChaCha20.t :=
  {| ChaCha20.state := rfc8439_state; ChaCha20.buffer := replicate 64 0;
     ChaCha20.pos := 64 |}.

Definition rfc8439_keystream : list Z :=
  [0x10; 0xf1; 0xe7; 0xe4; 0xd1; 0x3b; 0x59; 0x15; 0x50; 0x0f; 0xdd; 0x1f; 0xa3; 0x20; 0x71; 0xc4;
   0xc7; 0xd1; 0xf4; 0xc7; 0x33; 0xc0; 0x68; 0x03; 0x04; 0x22; 0xaa; 0x9a; 0xc3; 0xd4; 0x6c; 0x4e;
   0xd2; 0x82; 0x64; 0x46; 0x07; 0x9f; 0xaa; 0x09; 0x14; 0xc2; 0xd7; 0x05; 0xd9; 0x8b; 0x02; 0xa2;
   0xb5; 0x12; 0x9c; 0xd1; 0xde; 0x16; 0x4e; 0xb9; 0xcb; 0xd0; 0x83; 0xe8; 0xa2; 0x50; 0x3c; 0x4e].

(** The same state in a [ChaCha20CSPRNG] whose counter is 1. *)
Definition csprng_example : ChaCha20CSPRNG.t :=
  {| ChaCha20CSPRNG.state := rfc8439_state; ChaCha20CSPRNG.counter := 1;
     ChaCha20CSPRNG.buffer := replicate 64 0; ChaCha20CSPRNG.bufferIndex := 64 |}.

(** The two generators on that state at the last value of a 32-bit block
    counter, 2^32 - 1. *)
Definition rfc8439_last_block : ChaCha20.t :=
  {| ChaCha20.state := <[ 12%nat := 0xFFFFFFFF ]> rfc8439_state;
     ChaCha20.buffer := replicate 64 0; ChaCha20.pos := 64 |}.

Definition csprng_last_block : ChaCha20CSPRNG.t :=
  {| ChaCha20CSPRNG.state := rfc8439_state; ChaCha20CSPRNG.counter := 0xFFFFFFFF;
     ChaCha20CSPRNG.buffer := replicate 64 0; ChaCha20CSPRNG.bufferIndex := 64 |}.

(** A pool that has been given 257 bytes, 0 to 256, one more than it
    holds. *)
Definition overfull_pool : Entropy.t :=
  foldl Entropy.addEntropy Entropy.create (map Z.of_nat (seq 0 257)).

(** ** Hexadecimal text ([lib/entropy.ts], [toHex] and [fromHex]) *)
Module Hex.

(** The digit of [Number.prototype.toString] for a value below 36. *)
Definition digit_char (d : Z) : ascii :=
  match String.get (Z.to_nat d) "0123456789abcdefghijklmnopqrstuvwxyz" with
  | Some c => c
  | None => "0"%char
  end.

Fixpoint digits16 (fuel : nat) (n : Z) (acc : string) : string :=
  match fuel with
  | O => acc
  | S fuel =>
      let acc := String (digit_char (n mod 16)) acc in
      if n / 16 =? 0 then acc else digits16 fuel (n / 16) acc
  end.

(** [n.toString(16)] for an integer [n >= 0]; a number of [k] bits has at
    most [k] hexadecimal digits, which bounds the recursion. *)
Definition toString16 (n : Z) : string :=
  digits16 (S (Z.to_nat (Z.log2 n))) n EmptyString.

(** [s.padStart(targetLength, c)] for a one-character pad string. *)
Definition padStart (s : string) (targetLength : nat) (c : ascii) : string :=
  String.append (string_of_list_ascii (repeat c (targetLength - String.length s))) s.

Definition toHex (bytes : list Z) : string :=
  String.concat "" (map (fun b => padStart (toString16 b) 2 "0") bytes).

Definition hex_value (c : ascii) : option Z :=
  let n := Z.of_nat (nat_of_ascii c) in
  if (48 <=? n) && (n <=? 57) then Some (n - 48)
  else if (97 <=? n) && (n <=? 102) then Some (n - 87)
  else if (65 <=? n) && (n <=? 70) then Some (n - 55)
  else None.

(** The value of the longest prefix of hexadecimal digits. *)
Fixpoint hex_prefix (s : string) (acc : Z) : Z :=
  match s with
  | String c s' =>
      match hex_value c with
      | Some d => hex_prefix s' (16 * acc + d)
      | None => acc
      end
  | EmptyString => acc
  end.

Definition is_space (c : ascii) : bool :=
  let n := nat_of_ascii c in
  ((9 <=? n) && (n <=? 13))%nat || (n =? 32)%nat.

Fixpoint trim_start (s : string) : string :=
  match s with
  | String c s' => if is_space c then trim_start s' else s
  | EmptyString => s
  end.

(** [parseInt(s, 16)]: leading white space, a sign, a [0x] prefix, then as
    many hexadecimal digits as there are; [None] is [NaN]. *)
Definition parseInt16 (s : string) : option Z :=
  let s := trim_start s in
  let (sign, s) :=
    match s with
    | String "-" s' => (-1, s')
    | String "+" s' => (1, s')
    | _ => (1, s)
    end in
  let s :=
    match s with
    | String "0" (String "x" s') => s'
    | String "0" (String "X" s') => s'
    | _ => s
    end in
  match s with
  | String c _ =>
      match hex_value c with
      | Some _ => Some (sign * hex_prefix s 0)
      | None => None
      end
  | EmptyString => None
  end.

(** [s.slice(from, to)] for [0 <= from <= to]. *)
Definition slice (s : string) (from to : nat) : string :=
  substring from (to - from) s.

(** [hex.length / 2] is never negative, so the allocation cannot throw; a
    [NaN] stored into a [Uint8Array] becomes 0. *)
Definition fromHex (hex : string) : list Z :=
  let n := (String.length hex / 2)%nat in
  foldl (fun bytes i =>
           <[ i := JS.u8 (default 0 (parseInt16 (slice hex (i * 2) (i * 2 + 2)))) ]> bytes)
        (replicate n 0) (seq 0 n).

End Hex.

(** What a [Uint8Array] holds. *)
Definition byte (b : Z) : Prop := 0 <= b < 256.

(** One byte written by [toHex] is two characters that [fromHex] reads
    back: the check run on each of the 256 bytes. *)
Definition byte_round_trip (b : Z) : bool :=
  match Hex.padStart (Hex.toString16 b) 2 "0" with
  | String h (String l EmptyString) =>
      JS.u8 (default 0 (Hex.parseInt16 (String h (String l EmptyString)))) =? b
  | _ => false
  end.

(** ** Chi-square uniformity ([src/utils/statistics.ts], class [Statistics])

    The data are kept as exact rationals, and so are the sums, products
    and quotients, which the source rounds to doubles: a value can differ
    from the double in its last places, and no property below states one.
    A division whose divisor is zero is recorded: the functions below
    return [None] as soon as one occurs (JavaScript would go on with [NaN]
    or an infinity), and also for empty data, whose [Math.min] and
    [Math.max] are infinite.  ([Math.min(...data)] passes the sample as
    the arguments of one call; the number of arguments an engine accepts,
    some 10^5, is not modelled.) *)
Module Statistics.

Definition fdiv (x y : Q) : option Q :=
  if Qeq_bool y 0 then None else Some (x / y)%Q.

Definition min2 (a b : Q) : Q := if Qle_bool b a then b else a.
Definition max2 (a b : Q) : Q := if Qle_bool a b then b else a.

(** [Math.min(...data)] and [Math.max(...data)]. *)
Definition Math_min (data : list Q) : option Q :=
  match data with [] => None | x :: l => Some (foldl min2 x l) end.
Definition Math_max (data : list Q) : option Q :=
  match data with [] => None | x :: l => Some (foldl max2 x l) end.

(** [x || d] on numbers: [d] replaces a zero. *)
Definition or_else (x d : Q) : Q := if Qeq_bool x 0 then d else x.

(** [buckets[i]++] on a plain array: a negative index adds a property and
    leaves the elements alone. *)
Definition incr (l : list Z) (i : Z) : list Z :=
  if i <? 0 then l else <[ Z.to_nat i := JS.rd l (Z.to_nat i) + 1 ]> l.

Record result : Set := {
  statistic : Q;
  pValue : Q;
  degreesOfFreedom : Z;
  isRandom : bool;
  buckets : list Z;
  expected : Q
}.

Section PValue.

(** [Math.pow], [Math.sqrt] and [Math.exp] are floating point, and
    parameters here: [Math_pow x y] and [Math_sqrt y] are [None] where the
    source gets [NaN] (the power of a negative base, the root of a
    negative number).  Every division of [chiSquarePValue] and [normalCDF]
    is written out. *)
Variable Math_pow : Q -> Q -> option Q.
Variable Math_sqrt : Q -> option Q.
Variable Math_exp : Q -> Q.

Definition normalCDF (x : Q) : option Q :=
  let a1 := 0.254829592%Q in
  let a2 := (-0.284496736)%Q in
  let a3 := 1.421413741%Q in
  let a4 := (-1.453152027)%Q in
  let a5 := 1.061405429%Q in
  let p := 0.3275911%Q in
  let sign := if Qle_bool 0 x then 1%Q else (-1)%Q in
  root ← Math_sqrt 2;
  x ← fdiv (Qabs x) root;
  t ← fdiv 1 (1 + p * x);
  let y := (1 - (((((a5 * t + a4) * t) + a3) * t + a2) * t + a1) * t
                * Math_exp (- x * x))%Q in
  Some (0.5 * (1 + sign * y))%Q.

Definition chiSquarePValue (chiSquare : Q) (df : Z) : option Q :=
  if df <=? 0 then Some 1%Q
  else
    x ← fdiv chiSquare (inject_Z df);
    third ← fdiv 1 3;
    power ← Math_pow x third;
    a ← fdiv 2 (9 * inject_Z df);
    let z := (power - (1 - a))%Q in
    b ← fdiv 2 (9 * inject_Z df);
    denom ← Math_sqrt b;
    standardized ← fdiv z denom;
    cdf ← normalCDF standardized;
    Some (1 - cdf)%Q.

(** The one statement that can throw is [new Array(numBuckets)]; what
    comes before it, the minimum, the maximum and the range, throws
    nothing, and is computed here after it. *)
Definition chiSquareUniformity (data : list Q) (numBuckets : nat)
  : JS.result (option result) :=
  empty ← JS.new_Array numBuckets;
  mret (
    min ← Math_min data;
    max ← Math_max data;
    let range := or_else (max - min) 1 in
    buckets ←
      foldl (fun acc value =>
               buckets ← acc;
               q ← fdiv (value - min) range;
               let bucketIndex :=
                 Z.min (JS.Math_floor (q * inject_Z (Z.of_nat numBuckets)))
                       (Z.of_nat numBuckets - 1) in
               Some (incr buckets bucketIndex))
            (Some empty) data;
    expected ← fdiv (inject_Z (Z.of_nat (length data))) (inject_Z (Z.of_nat numBuckets));
    statistic ←
      foldl (fun acc observed =>
               sum ← acc;
               t ← fdiv ((inject_Z observed - expected) ^ 2) expected;
               Some (sum + t)%Q)
            (Some 0%Q) buckets;
    let degreesOfFreedom := Z.of_nat numBuckets - 1 in
    pValue ← chiSquarePValue statistic degreesOfFreedom;
    Some {| statistic := statistic;
            pValue := pValue;
            degreesOfFreedom := degreesOfFreedom;
            isRandom := negb (Qle_bool pValue 0.05);
            buckets := buckets;
            expected := expected |}).

End PValue.

End Statistics.

(** ** Statistical tests ([lib/entropy.ts], object [Stats])

    The samples are kept as exact rationals, and so are the statistics
    computed from them; [None] stands for [NaN].  [Math.log2] is a
    parameter of [entropy] and [assess]. *)
Module Stats.

(** [a > b] and [a < b] on numbers. *)
Definition gt (a b : Q) : bool := negb (Qle_bool a b).
Definition lt (a b : Q) : bool := negb (Qle_bool b a).

(** [x / y] where a zero divisor can only meet a zero dividend. *)
Definition fdiv (x y : Q) : option Q :=
  if Qeq_bool y 0 then None else Some (x / y)%Q.

(** [counts[i]++] on a plain array: a negative index adds a property and
    leaves the elements alone. *)
Definition incr (l : list Z) (i : Z) : list Z :=
  if i <? 0 then l else <[ Z.to_nat i := JS.rd l (Z.to_nat i) + 1 ]> l.

Section Entropy.

Variable log2 : Q -> Q.

Definition histogram (data : list Z) : list Z :=
  foldl incr (replicate 256 0) data.

Definition entropy (data : list Z) : Q :=
  foldl (fun h f =>
           if 0 <? f
           then let p := (inject_Z f / inject_Z (Z.of_nat (length data)))%Q in
                (h - p * log2 p)%Q
           else h)
        0%Q (histogram data).

End Entropy.

Record chi_result : Set := { statistic : option Q; chi_pass : bool }.

Definition bucket_of (buckets : nat) (v : Q) : Z :=
  Z.min (JS.Math_floor (v * inject_Z (Z.of_nat buckets))) (Z.of_nat buckets - 1).

Definition chiSquare (data : list Q) (buckets : nat) : chi_result :=
  let counts := replicate buckets 0 in
  let expected := (inject_Z (Z.of_nat (length data)) / inject_Z (Z.of_nat buckets))%Q in
  let counts := foldl (fun counts v => incr counts (bucket_of buckets v)) counts data in
  let statistic :=
    foldl (fun acc c =>
             sum ← acc;
             t ← fdiv ((inject_Z c - expected) ^ 2) expected;
             Some (sum + t)%Q)
          (Some 0%Q) counts in
  let criticalValue := (1692 # 100)%Q in
  {| statistic := statistic;
     chi_pass := match statistic with Some s => lt s criticalValue | None => false end |}.

(** [[...data].sort((a, b) => a - b)]. *)
Fixpoint insert_sorted (x : Q) (l : list Q) : list Q :=
  match l with
  | [] => [x]
  | y :: l' => if Qle_bool x y then x :: l else y :: insert_sorted x l'
  end.
Definition sort (data : list Q) : list Q := foldr insert_sorted [] data.

Record runs_result : Set := { runs : Z; expected : option Q; runs_pass : bool }.

(** The number of places where a sign differs from the one before it. *)
Fixpoint changes (signs : list Z) : Z :=
  match signs with
  | a :: (b :: _) as rest => (if a =? b then 0 else 1) + changes rest
  | _ => 0
  end.

(** [Math.abs(d) / Math.sqrt(v) < c] for a positive [c], decided without
    the square root: with [v > 0] it is [d^2 < c^2 * v]; with [v = 0] the
    quotient is an infinity or [NaN], and the comparison is false. *)
Definition abs_over_sqrt_lt (d v c : Q) : bool :=
  gt v 0 && lt (d ^ 2) (c ^ 2 * v).

Definition runsTest (data : list Q) : runs_result :=
  let median := sort data !! (length data / 2)%nat in
  let signs :=
    map (fun x => match median with
                  | Some m => if Qle_bool m x then 1 else 0
                  | None => 0
                  end) data in
  let runs := 1 + changes signs in
  let n1 := Z.of_nat (length (filter (fun s => s = 1) signs)) in
  let n2 := Z.of_nat (length (filter (fun s => s = 0) signs)) in
  let expected :=
    e ← fdiv (inject_Z (2 * n1 * n2)) (inject_Z (n1 + n2)); Some (e + 1)%Q in
  let variance :=
    fdiv (inject_Z (2 * n1 * n2 * (2 * n1 * n2 - n1 - n2)))
         (inject_Z ((n1 + n2) ^ 2 * (n1 + n2 - 1))) in
  {| runs := runs;
     expected := expected;
     runs_pass :=
       match expected, variance with
       | Some e, Some v => abs_over_sqrt_lt (inject_Z runs - e) v (196 # 100)
       | _, _ => false
       end |}.

Section Assess.

Variable log2 : Q -> Q.

Definition assess (data : list Q) : Z * string :=
  let chi := chiSquare data 10 in
  let runs := runsTest data in
  let bytes := map (fun d => JS.u8 (JS.Math_floor (d * 256))) data in
  let ent := entropy log2 bytes in
  let score := 0 in
  let score := if chi_pass chi then score + 33 else score in
  let score := if runs_pass runs then score + 33 else score in
  let score := if gt ent (75 # 10) then score + 34
               else if gt ent (65 # 10) then score + 17 else score in
  let quality := if 90 <=? score then "excellent"%string
                 else if 70 <=? score then "good"%string
                 else if 50 <=? score then "fair"%string else "poor"%string in
  (score, quality).

End Assess.

End Stats.

(** Two orders of the 256 samples [k / 256]: ascending, and with the lower
    and the upper half dealt out two at a time. *)
Definition sample (k : nat) : Q := inject_Z (Z.of_nat k) / 256.

Definition ascending_order : list nat := seq 0 256.
Definition dealt_order : list nat :=
  flat_map (fun j => [2 * j; 2 * j + 1; 128 + 2 * j; 129 + 2 * j]%nat) (seq 0 64).

Definition ascending : list Q := map sample ascending_order.
Definition dealt : list Q := map sample dealt_order.

(** ** Comparison of byte arrays ([lib/entropy.ts], [secureCompare]) *)
Definition secureCompare (a b : list Z) : bool :=
  if negb (length a =? length b)%nat then false
  else
    let diff := foldl (fun diff i => JS.or diff (JS.xor (JS.rd a i) (JS.rd b i)))
                      0 (seq 0 (length a)) in
    diff =? 0.

(** ** Random bytes from the platform ([lib/entropy.ts], [randomBytes],
    [randomInt], [random], [shuffle], [pick])

    What one call of [randomBytes] finds outside: a Web Crypto object,
    whose [getRandomValues] puts [fill i] at position [i] of the array; or
    none, and then what the [new ChaCha20()] of the fallback reads from its
    entropy pool and from the clock.  ([getRandomValues] refuses more than
    65536 bytes at once; the callers below ask for 4.) *)
Inductive randomness : Type :=
| WebCrypto (fill : nat -> Z)
| NoCrypto (pool_bytes : list Z) (now14 now15 : Z).

Definition randomBytes (env : randomness) (count : Z) : JS.result (list Z) :=
  match env with
  | WebCrypto fill =>
      bytes ← JS.new_array count;
      mret (foldl (fun bytes i => <[ i := JS.u8 (fill i) ]> bytes) bytes (seq 0 (length bytes)))
  | NoCrypto pool_bytes now14 now15 =>
      r ← ChaCha20.nextBytes (ChaCha20.constructor None pool_bytes now14 now15) count;
      mret (fst r)
  end.

(** [(bytes[0] | (bytes[1] << 8) | (bytes[2] << 16) | (bytes[3] << 24)) >>> 0]. *)
Definition uint32_of_bytes (bytes : list Z) : Z :=
  JS.ushr (JS.or (JS.or (JS.or (JS.rd bytes 0) (JS.shl (JS.rd bytes 1) 8))
                        (JS.shl (JS.rd bytes 2) 16))
                 (JS.shl (JS.rd bytes 3) 24)) 0.

(** [val % max] is [NaN] when [max] is 0: [None]. *)
Definition randomInt (env : randomness) (max : Z) : JS.result (option Z) :=
  bytes ← randomBytes env 4;
  let val := uint32_of_bytes bytes in
  mret (if max =? 0 then None else Some (JS.rem val max)).

Definition random (env : randomness) : JS.result Q :=
  bytes ← randomBytes env 4;
  mret (JS.div (uint32_of_bytes bytes) 0xFFFFFFFF).

(** [[array[i], array[j]] = [array[j], array[i]]] for two positions of
    the array; [None] outside it. *)
Definition swap {T : Type} (array : list T) (i j : nat) : option (list T) :=
  x ← array !! j; y ← array !! i; Some (<[ j := y ]> (<[ i := x ]> array)).

(** One turn of the loop of [shuffle]; [env i] is what the call of
    [randomInt] of that turn finds.  [None] stands for what the loop never
    meets: an exception, or an index that is no position of the array. *)
Definition shuffle_step {T : Type} (env : nat -> randomness)
    (acc : option (list T)) (i : nat) : option (list T) :=
  array ← acc;
  match randomInt (env i) (Z.of_nat i + 1) with
  | JS.Ok (Some j) => if j <? 0 then None else swap array i (Z.to_nat j)
  | _ => None
  end.

Definition shuffle {T : Type} (env : nat -> randomness) (array : list T) : option (list T) :=
  foldl (shuffle_step env) (Some array) (rev (seq 1 (length array - 1))).

(** [array[randomInt(array.length)]]; [None] is [undefined]. *)
Definition pick {T : Type} (env : randomness) (array : list T) : JS.result (option T) :=
  j ← randomInt env (Z.of_nat (length array));
  mret (match j with
        | Some j => if j <? 0 then None else array !! Z.to_nat j
        | None => None
        end).

(** ** Hash functions ([lib/entropy.ts], [fnv1a] and [murmur3]) *)
Definition fnv1a (data : list Z) : Z :=
  foldl (fun hash i =>
           let hash := JS.xor hash (JS.rd data i) in
           JS.ushr (JS.mul hash 0x01000193) 0)
        0x811c9dc5 (seq 0 (length data)).

(** FNV-1a on 32 bits as it is defined: xor the byte in, multiply by the
    prime 16777619 modulo 2^32. *)
Definition fnv1a_reference (data : list Z) : Z :=
  foldl (fun hash b => (Z.lxor hash b * 16777619) mod 2 ^ 32) 0x811c9dc5 data.

(** [Math.imul(a, b)]: the low 32 bits of the exact product, signed. *)
Definition Math_imul (a b : Z) : Z := JS.ToInt32 (JS.ToInt32 a * JS.ToInt32 b).

Definition murmur3 (data : list Z) (seed : Z) : Z :=
  let c1 := 0xcc9e2d51 in
  let c2 := 0x1b873593 in
  let h1 := seed in
  let len := Z.of_nat (length data) in
  let blocks := (length data / 4)%nat in
  let h1 :=
    foldl (fun h1 i =>
             let k1 := JS.or (JS.or (JS.or (JS.rd data (i * 4))
                                           (JS.shl (JS.rd data (i * 4 + 1)) 8))
                                    (JS.shl (JS.rd data (i * 4 + 2)) 16))
                             (JS.shl (JS.rd data (i * 4 + 3)) 24) in
             let k1 := Math_imul k1 c1 in
             let k1 := JS.or (JS.shl k1 15) (JS.ushr k1 17) in
             let k1 := Math_imul k1 c2 in
             let h1 := JS.xor h1 k1 in
             let h1 := JS.or (JS.shl h1 13) (JS.ushr h1 19) in
             JS.ushr (JS.add (Math_imul h1 5) 0xe6546b64) 0)
          h1 (seq 0 blocks) in
  let k1 := 0 in
  let tail := JS.and len 3 in
  let k1 := if 3 <=? tail then JS.xor k1 (JS.shl (JS.rd data (blocks * 4 + 2)) 16) else k1 in
  let k1 := if 2 <=? tail then JS.xor k1 (JS.shl (JS.rd data (blocks * 4 + 1)) 8) else k1 in
  let h1 :=
    if 1 <=? tail then
      let k1 := JS.xor k1 (JS.rd data (blocks * 4)) in
      let k1 := Math_imul k1 c1 in
      let k1 := JS.or (JS.shl k1 15) (JS.ushr k1 17) in
      let k1 := Math_imul k1 c2 in
      JS.xor h1 k1
    else h1 in
  let h1 := JS.xor h1 len in
  let h1 := JS.xor h1 (JS.ushr h1 16) in
  let h1 := Math_imul h1 0x85ebca6b in
  let h1 := JS.xor h1 (JS.ushr h1 13) in
  let h1 := Math_imul h1 0xc2b2ae35 in
  let h1 := JS.xor h1 (JS.ushr h1 16) in
  JS.ushr h1 0.

(** MurmurHash3 (x86, 32 bits) as it is defined, on 32-bit words: every
    product and sum is taken modulo 2^32. *)
Module MurmurSpec.

Definition mul32 (a b : Z) : Z := (a * b) mod 2 ^ 32.

(** Four bytes read little-endian; a byte past the end counts as zero. *)
Definition le_word (data : list Z) (i : nat) : Z :=
  JS.rd data i + 2 ^ 8 * JS.rd data (i + 1) + 2 ^ 16 * JS.rd data (i + 2)
  + 2 ^ 24 * JS.rd data (i + 3).

Definition scramble (k : Z) : Z :=
  mul32 (ChaChaSpec.rotl32 (mul32 k 0xcc9e2d51) 15) 0x1b873593.

Definition block (h k : Z) : Z :=
  ChaChaSpec.add32 (mul32 (ChaChaSpec.rotl32 (Z.lxor h (scramble k)) 13) 5) 0xe6546b64.

Definition fmix32 (h : Z) : Z :=
  let h := Z.lxor h (Z.shiftr h 16) in
  let h := mul32 h 0x85ebca6b in
  let h := Z.lxor h (Z.shiftr h 13) in
  let h := mul32 h 0xc2b2ae35 in
  Z.lxor h (Z.shiftr h 16).

Definition murmur3_32 (data : list Z) (seed : Z) : Z :=
  let blocks := (length data / 4)%nat in
  let h := foldl (fun h i => block h (le_word data (i * 4))) seed (seq 0 blocks) in
  let h := if (length data mod 4 =? 0)%nat then h
           else Z.lxor h (scramble (le_word data (blocks * 4))) in
  fmix32 (Z.lxor h (Z.of_nat (length data) mod 2 ^ 32)).

End MurmurSpec.

Definition bytes_of_string (s : string) : list Z :=
  map (fun c => Z.of_nat (nat_of_ascii c)) (list_ascii_of_string s).

(** [getState] and [setState] of the class [LCG] of [lib/entropy.ts]. *)
Module LCGState.

Definition getState (g : LCG.t) : Z := LCG.state g.
Definition setState (g : LCG.t) (state : Z) : LCG.t := {| LCG.state := JS.ushr state 0 |}.

End LCGState.

(** The state a [ChaCha20] generator holds after one more block: word 12
    moves on by one, and word 13 with it when word 12 wraps. *)
Definition next_block (st : list Z) : list Z :=
  let w := (JS.rd st 12 + 1) mod 2 ^ 32 in
  let st := <[ 12%nat := w ]> st in
  if w =? 0 then <[ 13%nat := (JS.rd st 13 + 1) mod 2 ^ 32 ]> st else st.

(** The keystream of [n] successive blocks. *)
Fixpoint keystream_blocks (n : nat) (st : list Z) : list Z :=
  match n with
  | O => []
  | S n => ChaChaSpec.keystream st ++ keystream_blocks n (next_block st)
  end.

(** A well-formed state of [XorShift128Plus]: two 64-bit words, not both
    zero. *)
Definition xorshift_wf (g : XorShift128Plus.t) : Prop :=
  0 <= XorShift128Plus.s0 g < 2 ^ 64 /\ 0 <= XorShift128Plus.s1 g < 2 ^ 64
  /\ (XorShift128Plus.s0 g <> 0 \/ XorShift128Plus.s1 g <> 0).

(** ** [EntropyCollector.numberToBytes] and [CryptoRandom.randomBigInt]
    ([src/modules/complexity.ts]) *)

(** [result.push((num >> (i * 8)) & 0xFF)] for [i] from 0 to [bytes - 1]. *)
Definition numberToBytes (num : Z) (bytes : nat) : list Z :=
  map (fun i => JS.and (JS.sar num (Z.of_nat i * 8)) 0xFF) (seq 0 bytes).

(** [buffer] is what [crypto.randomBytes(Math.ceil(bits / 8))] returned,
    which refuses a negative size.  The operators are those of [bigint]:
    exact, and [<<] by a negative count shifts right. *)
Definition randomBigInt (buffer : list Z) (bits : Z) : JS.result Z :=
  let bytes := (bits + 7) / 8 in
  if bytes <? 0 then JS.Throw JS.RangeError
  else
    let result := foldl (fun result b => Z.lor (Z.shiftl result 8) b) 0 buffer in
    let mask := Z.shiftl 1 bits - 1 in
    mret (Z.land result mask).

(** The value of a byte sequence read big-endian. *)
Definition be_value (buffer : list Z) : Z :=
  foldl (fun v b => 256 * v + b) 0 buffer.

(** ** Quicksort with a random pivot ([src/modules/complexity.ts],
    [RandomizedAlgorithms.quickSort])

    [Math_random k] is what the [k]-th call of [Math.random()] returns.
    The array elements are kept as exact rationals.  [None] stands for a
    call that does not return: with a pivot index outside the array the
    pivot is [undefined], every comparison fails, the right part is the whole
    array again and the recursion does not end. *)
Module RandomizedAlgorithms.

(** One turn of the loop of [sort], at index [fst ix] with [a[i] = snd ix]. *)
Definition partition_step (pivotIdx : nat) (pivot : Q)
    (acc : list Q * list Q * Z) (ix : nat * Q) : list Q * list Q * Z :=
  let '(lft, rgt, comparisons) := acc in
  if (fst ix =? pivotIdx)%nat then acc
  else if Qle_bool (snd ix) pivot then (lft ++ [snd ix], rgt, comparisons + 1)
       else (lft, rgt ++ [snd ix], comparisons + 1).

(** [sort(a)]; [calls] counts the calls of [Math.random()] made so far,
    [comparisons] is the counter the closure shares. *)
Fixpoint sort (fuel : nat) (Math_random : nat -> Q) (calls : nat) (comparisons : Z)
    (a : list Q) : option (list Q * nat * Z) :=
  if (length a <=? 1)%nat then Some (a, calls, comparisons)
  else
    match fuel with
    | O => None
    | S fuel =>
        let pivotIdx := JS.Math_floor (Math_random calls * inject_Z (Z.of_nat (length a))) in
        match (if pivotIdx <? 0 then None else a !! Z.to_nat pivotIdx) with
        | None => None
        | Some pivot =>
            let '(lft, rgt, comparisons) :=
              foldl (partition_step (Z.to_nat pivotIdx) pivot) ([], [], comparisons)
                    (zip (seq 0 (length a)) a) in
            '(l, calls, comparisons) ← sort fuel Math_random (S calls) comparisons lft;
            '(r, calls, comparisons) ← sort fuel Math_random calls comparisons rgt;
            Some (l ++ pivot :: r, calls, comparisons)
        end
    end.

(** The recursion is at most as deep as the array is long. *)
Definition quickSort (Math_random : nat -> Q) (arr : list Q) : option (list Q * Z) :=
  '(sorted, _, comparisons) ← sort (length arr) Math_random 0 0 arr;
  Some (sorted, comparisons).

End RandomizedAlgorithms.

(** ** Recovering the generator from its output
    ([src/modules/complexity.ts], [PatternPredictionAttack.attackLCG])

    The samples are doubles, kept as exact rationals; [s * m] scales by a
    power of two, which is exact.  [diff1] and [diff2] are computed by the
    source and never read.  [None] stands for [{ success: false }]. *)
Module PatternPredictionAttack.

Record prediction : Set := { predictedA : Z; predictedC : Z; nextPrediction : Q }.

Definition knownParams : list (Z * Z) :=
  [(1664525, 1013904223); (1103515245, 12345); (214013, 2531011)].

(** The loop over [knownParams]. *)
Fixpoint try_params (m : Z) (states : list Z) (params : list (Z * Z)) : option prediction :=
  match params with
  | [] => None
  | (a, c) :: params =>
      let predicted := JS.rem (JS.add (JS.mul a (JS.rd states 0)) c) m in
      if Z.abs (JS.add predicted (- JS.rd states 1)) <? 10 then
        let lastState := JS.rd states (length states - 1) in
        let nextState := JS.rem (JS.add (JS.mul a lastState) c) m in
        Some {| predictedA := a; predictedC := c; nextPrediction := JS.div nextState m |}
      else try_params m states params
  end.

Definition attackLCG (samples : list Q) : option prediction :=
  if (length samples <? 3)%nat then None
  else
    let m := 2 ^ 32 in
    let states := map (fun s => JS.Math_floor (s * inject_Z m)) samples in
    try_params m states knownParams.

End PatternPredictionAttack.

(** The values [n] successive calls of [next()] return, for the [LCG] of
    [src/modules/complexity.ts], and the generator they leave. *)
Fixpoint lcg_draws (n : nat) (g : LCG.t) : list Q * LCG.t :=
  match n with
  | O => ([], g)
  | S n =>
      let (x, g) := ComplexityLCG.next g in
      let (xs, g) := lcg_draws n g in
      (x :: xs, g)
  end.

(** ** Modular arithmetic on [bigint]s ([src/utils/statistics.ts], class
    [ModularMath] and its users)

    A [bigint] is an exact integer: [*], [+] and [-] are those of [Z],
    [/] and [%] truncate towards zero ([Z.quot], [Z.rem]) and throw a
    [RangeError] on a zero divisor, [>>] is the arithmetic shift. *)
Module BigInt.

(** What this code can throw: the [RangeError] of a division by zero, and
    the [Error] of [modInverse]. *)
Inductive exn : Set := DivisionByZero | NoInverse.

Inductive result (A : Type) : Type :=
| Ok (a : A)
| Throw (e : exn).
Arguments Ok {A} a.
Arguments Throw {A} e.

#[global] Instance result_ret : MRet result := fun _ a => Ok a.
#[global] Instance result_bind : MBind result := fun _ _ k r =>
  match r with Ok a => k a | Throw e => Throw e end.

(** [a % b]. *)
Definition rem (a b : Z) : result Z :=
  if b =? 0 then Throw DivisionByZero else Ok (Z.rem a b).

End BigInt.

Module ModularMath.

(** The loop of [modPow]; [modulus] (the source's [mod]) is not zero here. *)
Equations? modPow_loop (result base exp modulus : Z) : Z by wf (Z.to_nat exp) lt :=
  modPow_loop result base exp modulus with Z_lt_dec 0 exp := {
    | left _ =>
        modPow_loop (if Z.rem exp 2 =? 1 then Z.rem (result * base) modulus else result)
                    (Z.rem (base * base) modulus) (Z.shiftr exp 1) modulus
    | right _ => result
  }.
Proof.
  rewrite Z.shiftr_div_pow2 by lia. change (2 ^ 1) with 2.
  assert (exp / 2 < exp) by (apply Z.div_lt; lia).
  assert (0 <= exp / 2) by (apply Z.div_pos; lia). lia.
Qed.

Definition modPow (base exp modulus : Z) : BigInt.result Z :=
  base ← BigInt.rem base modulus;
  mret (modPow_loop 1 base exp modulus).

(** [b % a] and [b / a] are reached with [a] not zero. *)
Equations? extendedGcd (a b : Z) : Z * Z * Z by wf (Z.abs_nat a) lt :=
  extendedGcd a b with Z.eq_dec a 0 := {
    | left _ => (b, 0, 1)
    | right _ =>
        let '(gcd, x1, y1) := extendedGcd (Z.rem b a) a in
        let x := y1 - Z.quot b a * x1 in
        let y := x1 in
        (gcd, x, y)
  }.
Proof.
  pose proof (Z.rem_bound_abs b a ltac:(assumption)). lia.
Qed.

Definition modInverse (a modulus : Z) : BigInt.result Z :=
  r ← BigInt.rem a modulus;
  let '(gcd, x, _) := extendedGcd r modulus in
  if negb (gcd =? 1) then BigInt.Throw BigInt.NoInverse
  else mret (Z.rem (Z.rem x modulus + modulus) modulus).

End ModularMath.

(** [DiffieHellman]: [prime] is what [generatePrime] returned and
    [privateKey] what [randomBigInt] returned. *)
Module DiffieHellman.

Record t : Set := { p : Z; g : Z; privateKey : Z; publicKey : Z }.

Definition constructor (prime privateKey : Z) : BigInt.result t :=
  publicKey ← ModularMath.modPow 2 privateKey prime;
  mret {| p := prime; g := 2; privateKey := privateKey; publicKey := publicKey |}.

Definition computeSharedSecret (d : t) (otherPublicKey : Z) : BigInt.result Z :=
  ModularMath.modPow otherPublicKey (privateKey d) (p d).

Definition getParams (d : t) : Z * Z := (p d, g d).

End DiffieHellman.

(** [ElGamal]: [prime] and [x] are what [generatePrime] and [randomBigInt]
    returned to the constructor, [k] what [randomBigInt] returned to
    [encrypt]. *)
Module ElGamal.

Record t : Set := { p : Z; g : Z; x : Z; y : Z }.

Definition constructor (prime x : Z) : BigInt.result t :=
  y ← ModularMath.modPow 2 x prime;
  mret {| p := prime; g := 2; x := x; y := y |}.

Definition encrypt (e : t) (k m : Z) : BigInt.result (Z * Z) :=
  c1 ← ModularMath.modPow (g e) k (p e);
  s ← ModularMath.modPow (y e) k (p e);
  c2 ← BigInt.rem (m * s) (p e);
  mret (c1, c2).

Definition decrypt (e : t) (c1 c2 : Z) : BigInt.result Z :=
  s ← ModularMath.modPow c1 (x e) (p e);
  sInv ← ModularMath.modInverse s (p e);
  BigInt.rem (c2 * sInv) (p e).

End ElGamal.

(** [DiscreteLogProblem.bruteForce], without its timer.  [Number(p)] is
    the rounding of [p] to a double. *)
Module DiscreteLogProblem.

Record outcome : Set := { found : bool; exponent : option Z; attempts : Z }.

(** The loop, with [n] values of [x] left to try. *)
Fixpoint search (n : nat) (x g h p : Z) : BigInt.result (option Z) :=
  match n with
  | O => mret None
  | S n =>
      v ← ModularMath.modPow g x p;
      if v =? h then mret (Some x) else search n (x + 1) g h p
  end.

Definition bruteForce (g h p : Z) : BigInt.result outcome :=
  let maxAttempts := Z.min (JS.round53 p) 1000000 in
  r ← search (Z.to_nat maxAttempts) 0 g h p;
  mret (match r with
        | Some x => {| found := true; exponent := Some x; attempts := JS.add (JS.round53 x) 1 |}
        | None => {| found := false; exponent := None; attempts := maxAttempts |}
        end).

End DiscreteLogProblem.

(** [ModularMath.isProbablePrime] (Miller-Rabin); [rnd i] is what
    [CryptoRandom.randomBigInt] returns in turn [i] of the witness loop. *)
Module MillerRabin.

(** [while (d % 2n === 0n) { r++; d /= 2n; }] on a positive [d]: one turn
    for each trailing zero bit. *)
Fixpoint decompose (r : Z) (d : positive) : Z * Z :=
  match d with
  | xO d' => decompose (r + 1) d'
  | _ => (r, Z.pos d)
  end.

(** The inner loop, with [fuel] turns left: [true] when it leaves by
    [continue witnessLoop], [false] when it runs to its end. *)
Fixpoint squarings (fuel : nat) (x n : Z) : BigInt.result bool :=
  match fuel with
  | O => mret false
  | S fuel =>
      x ← ModularMath.modPow x 2 n;
      if x =? n - 1 then mret true else squarings fuel x n
  end.

(** The witness loop, with [k] turns left, in turn [i]. *)
Fixpoint witnessLoop (k i : nat) (rnd : nat -> Z) (n r d : Z) : BigInt.result bool :=
  match k with
  | O => mret true
  | S k =>
      a ← BigInt.rem (rnd i) (n - 4);
      let a := a + 2 in
      x ← ModularMath.modPow a d n;
      if (x =? 1) || (x =? n - 1) then witnessLoop k (S i) rnd n r d
      else
        found ← squarings (Z.to_nat (r - 1)) x n;
        if found : bool then witnessLoop k (S i) rnd n r d else mret false
  end.

(** [n - 1] is positive where [decompose] is reached. *)
Definition isProbablePrime (rnd : nat -> Z) (n : Z) (k : nat) : BigInt.result bool :=
  if n <? 2 then mret false
  else if (n =? 2) || (n =? 3) then mret true
  else if Z.rem n 2 =? 0 then mret false
  else
    let '(r, d) := decompose 0 (Z.to_pos (n - 1)) in
    witnessLoop k 0 rnd n r d.

End MillerRabin.

(** ** The subset-sum puzzle of [src/utils/statistics.ts]

    The numbers of a puzzle are integers (they are drawn as
    [Math.floor(Math.random() * 100) + 1]); sums are the sums of doubles,
    [JS.add]. *)
Module PNPChallenge.

(** A [Map<number, number>]: its entries in the order of insertion, with
    [get] and [set]. *)
Fixpoint get (m : list (Z * nat)) (n : Z) : option nat :=
  match m with
  | [] => None
  | (k, v) :: m => if k =? n then Some v else get m n
  end.

Fixpoint set (m : list (Z * nat)) (n : Z) (v : nat) : list (Z * nat) :=
  match m with
  | [] => [(n, v)]
  | (k, w) :: m => if k =? n then (k, v) :: m else (k, w) :: set m n v
  end.

(** [l.forEach(n => m.set(n, (m.get(n) || 0) + 1))] on an empty [Map]. *)
Definition count_step (m : list (Z * nat)) (n : Z) : list (Z * nat) :=
  set m n (default 0 (get m n) + 1)%nat.
Definition counts (l : list Z) : list (Z * nat) := foldl count_step [] l.

Definition verifySubsetSum (numbers : list Z) (target : Z) (solution : list Z) : bool :=
  let numCounts := counts numbers in
  let solCounts := counts solution in
  if forallb (fun '(n, count) => negb (default 0 (get numCounts n) <? count)%nat) solCounts
  then foldl JS.add 0 solution =? target
  else false.

(** What [bruteForceSubsetSum] returns, but for the field [time]. *)
Record result : Set := { found : bool; solution : option (list Z); attempts : Z }.

(** One turn of the loop over [i]. *)
Definition subset_step (numbers : list Z) (mask : Z) (acc : Z * list Z) (i : nat)
  : Z * list Z :=
  let '(sum, subset) := acc in
  if JS.and mask (JS.shl 1 (Z.of_nat i)) =? 0 then acc
  else (JS.add sum (JS.rd numbers i), subset ++ [JS.rd numbers i]).

(** The loop over [mask], with [fuel] turns left; [None]: the turns do not
    suffice. *)
Fixpoint search (fuel : nat) (numbers : list Z) (target mask attempts : Z) : option result :=
  if mask <? 2 ^ Z.of_nat (length numbers) then
    match fuel with
    | O => None
    | S fuel =>
        let attempts := JS.add attempts 1 in
        let '(sum, subset) :=
          foldl (subset_step numbers mask) (0, []) (seq 0 (length numbers)) in
        if sum =? target
        then Some {| found := true; solution := Some subset; attempts := attempts |}
        else search fuel numbers target (JS.add mask 1) attempts
    end
  else Some {| found := false; solution := None; attempts := attempts |}.

Definition bruteForceSubsetSum (numbers : list Z) (target : Z) : option result :=
  search (2 ^ length numbers) numbers target 0 0.

End PNPChallenge.

(** The sum of a list of integers, and the elements of [l] at the set bits
    of [mask], the bit of the first element being bit [i]. *)
Definition total (l : list Z) : Z := foldr Z.add 0 l.

Fixpoint pick_bits (mask : Z) (i : nat) (l : list Z) : list Z :=
  match l with
  | [] => []
  | x :: l =>
      if Z.testbit mask (Z.of_nat i) then x :: pick_bits mask (S i) l
      else pick_bits mask (S i) l
  end.

(** The rest of the Mersenne Twister of [src/modules/complexity.ts]:
    [generateNumbers] walks the array in three stretches and takes the
    twist constant from the table [mag01]. *)
Module ComplexityTwister.

Definition mag01 : list Z := [0; 0x9908b0df].

(** [y = (mt[kk] & UPPER_MASK) | (mt[nxt] & LOWER_MASK);
     mt[kk] = mt[from] ^ (y >>> 1) ^ mag01[y & 1]]. *)
Definition update (mt : list Z) (kk nxt from : nat) : list Z :=
  let y := JS.or (JS.and (JS.rd mt kk) 0x80000000) (JS.and (JS.rd mt nxt) 0x7fffffff) in
  <[ kk := JS.u32 (JS.xor (JS.xor (JS.rd mt from) (JS.ushr y 1))
                          (JS.rd mag01 (Z.to_nat (JS.and y 1)))) ]> mt.

Definition generateNumbers (mt : list Z) : list Z :=
  let mt := foldl (fun mt kk => update mt kk (kk + 1) (kk + 397)) mt (seq 0 227) in
  let mt := foldl (fun mt kk => update mt kk (kk + 1) (kk - 227)) mt (seq 227 396) in
  update mt 623 0 396.

(** [next] on the fields [mt] and [mti]. *)
Definition next (g : list Z * nat) : Q * (list Z * nat) :=
  let '(mt, mti) := g in
  let '(mt, mti) := if (624 <=? mti)%nat then (generateNumbers mt, 0%nat) else (mt, mti) in
  let y := JS.rd mt mti in
  let y := JS.xor y (JS.ushr y 11) in
  let y := JS.xor y (JS.and (JS.shl y 7) 0x9d2c5680) in
  let y := JS.xor y (JS.and (JS.shl y 15) 0xefc60000) in
  let y := JS.xor y (JS.ushr y 18) in
  (JS.div (JS.ushr y 0) 0xFFFFFFFF, (mt, S mti)).

End ComplexityTwister.

(** ** Properties *)

Lemma ToUint32_mod (x : Z) : JS.ToUint32 x = x mod 2 ^ 32.
Proof. unfold JS.ToUint32. change 0xFFFFFFFF with (Z.ones 32). apply Z.land_ones. lia. Qed.

Lemma round53_small (x : Z) : Z.abs x < 2 ^ 53 -> JS.round53 x = x.
Proof.
  intros H. unfold JS.round53.
  destruct (Z.ltb_spec (Z.abs x) (2 ^ 53)); [reflexivity | lia].
Qed.

Lemma new_array_Ok (n : Z) :
  0 <= n <= 2 ^ 53 - 1 -> JS.new_array n = JS.Ok (replicate (Z.to_nat n) 0).
Proof.
  intros H. unfold JS.new_array.
  destruct (Z.ltb_spec n 0); [lia |]. destruct (Z.ltb_spec (2 ^ 53 - 1) n); [lia |].
  reflexivity.
Qed.

Lemma new_array_Throw (n : Z) :
  n < 0 \/ 2 ^ 53 - 1 < n -> JS.new_array n = JS.Throw JS.RangeError.
Proof.
  intros H. unfold JS.new_array.
  destruct (Z.ltb_spec n 0); [reflexivity |].
  destruct (Z.ltb_spec (2 ^ 53 - 1) n); [reflexivity | lia].
Qed.

(** One LCG step on a state in [[0, 2^32)] computes
    [(1664525 * state + 1013904223) mod 2^32] exactly (no double rounding
    takes place), in both copies of the generator, and [next()] returns
    that new state divided by [2^32]. *)
Theorem lcg_step_exact (s : Z) :
  0 <= s < 2 ^ 32 ->
  let s' := (1664525 * s + 1013904223) mod 2 ^ 32 in
  LCG.next {| LCG.state := s |} = (JS.div s' (2 ^ 32), {| LCG.state := s' |})
  /\ ComplexityLCG.next {| LCG.state := s |} = (JS.div s' (2 ^ 32), {| LCG.state := s' |})
  /\ 0 <= s' < 2 ^ 32.
Proof.
  intros Hs s'.
  assert (Hmul : JS.mul LCG.a s = 1664525 * s).
  { unfold JS.mul, LCG.a. apply round53_small. lia. }
  assert (Hadd : JS.add (1664525 * s) LCG.c = 1664525 * s + 1013904223).
  { unfold JS.add, LCG.c. apply round53_small. lia. }
  split; [| split].
  - unfold LCG.next. cbn [LCG.state]. rewrite Hmul, Hadd, ToUint32_mod. reflexivity.
  - unfold ComplexityLCG.next. cbn [LCG.state]. rewrite Hmul, Hadd.
    unfold JS.rem, ComplexityLCG.m. rewrite Z.rem_mod_nonneg by lia. reflexivity.
  - subst s'. apply Z.mod_pos_bound. lia.
Qed.

Lemma lcg_step_exact_witness :
  LCG.next {| LCG.state := 12345 |}
  = (JS.div 87628868 (2 ^ 32), {| LCG.state := 87628868 |}).
Proof.
  exact (proj1 (lcg_step_exact 12345 ltac:(lia))).
Defined.

(** C6, where the code leaves it.  The [LCG] of
    [src/modules/complexity.ts] built without a seed holds
    [Date.now() & 0xFFFFFFFF], a signed 32-bit word: at the clock
    1700000000000 that is -807049216.  Its [%] keeps the sign of the
    negative sum: the new state is -2776286369 and [next()] returns
    -2776286369 / 2^32, where [(1664525 * state + 1013904223) mod 2^32] is
    1518680927.  The [LCG] of [lib/entropy.ts], which reduces with
    [>>> 0], gets 1518680927 from the same clock; and from every negative
    signed word up to -610 the [next()] of [src/modules/complexity.ts]
    returns a value that is not positive. *)
Theorem complexity_lcg_signed_state :
  let g := ComplexityLCG.constructor None 1700000000000 in
  LCG.state g = -807049216
  /\ ComplexityLCG.next g
     = (JS.div (-2776286369) (2 ^ 32), {| LCG.state := -2776286369 |})
  /\ (1664525 * LCG.state g + 1013904223) mod 2 ^ 32 = 1518680927
  /\ LCG.next (LCG.constructor None 1700000000000)
     = (JS.div 1518680927 (2 ^ 32), {| LCG.state := 1518680927 |})
  /\ (forall s, - 2 ^ 31 <= s <= -610 ->
        let (x, g') := ComplexityLCG.next {| LCG.state := s |} in
        (x <= 0)%Q /\ - 2 ^ 32 < LCG.state g' <= 0
        /\ (LCG.state g' <> 0 ->
            LCG.state g' = (1664525 * s + 1013904223) mod 2 ^ 32 - 2 ^ 32)).
Proof.
  cbv zeta. split; [reflexivity |]. split; [reflexivity |]. split; [reflexivity |].
  split; [reflexivity |].
  intros s Hs. unfold ComplexityLCG.next. cbn [LCG.state].
  assert (Hmul : JS.mul LCG.a s = 1664525 * s).
  { unfold JS.mul, LCG.a. apply round53_small. lia. }
  assert (Hadd : JS.add (1664525 * s) LCG.c = 1664525 * s + 1013904223).
  { unfold JS.add, LCG.c. apply round53_small. lia. }
  rewrite Hmul, Hadd. unfold JS.rem, ComplexityLCG.m.
  set (t := 1664525 * s + 1013904223).
  assert (Ht : t < 0) by (unfold t; lia).
  assert (Hr : - 2 ^ 32 < Z.rem t (2 ^ 32) <= 0).
  { pose proof (Z.rem_bound_pos (- t) (2 ^ 32) ltac:(lia) ltac:(lia)) as H.
    rewrite Z.rem_opp_l in H by lia. lia. }
  split; [| split].
  - unfold JS.div. apply Qle_shift_div_r.
    + change 0%Q with (inject_Z 0). rewrite <- Zlt_Qlt. lia.
    + rewrite Qmult_0_l. change 0%Q with (inject_Z 0). rewrite <- Zle_Qle. lia.
  - lia.
  - intros Hnz.
    pose proof (Z.quot_rem' t (2 ^ 32)) as Hq.
    pose proof (Z.div_mod t (2 ^ 32) ltac:(lia)) as Hd.
    pose proof (Z.mod_pos_bound t (2 ^ 32) ltac:(lia)) as Hm.
    assert (E : Z.rem t (2 ^ 32) + 2 ^ 32 = t mod 2 ^ 32).
    { apply Z.mod_unique with (q := t ÷ 2 ^ 32 - 1); lia. }
    lia.
Qed.

(** ** The Mersenne Twister *)

(** C3. Seeded with 5489, [MersenneTwister.seed] of [lib/entropy.ts]
    leaves the recurrence at the second step already: the double product
    [0x6c078965 * (prev ^ (prev >>> 30))] exceeds 2^53 and loses its low
    bits, so [mt[2]] is 2938499072 where the recurrence gives 2938499221,
    and the first tempered word is 3334087605 where the reference state
    (the recurrence run exactly, then the same twist and tempering) gives
    the published 3499211612. *)
Theorem mt_seed_5489_not_reference :
  let g := MersenneTwister.constructor (Some 5489) 0 in
  JS.rd (MersenneTwister.mt g) 1 = 1301868182
  /\ JS.rd (MersenneTwister.mt g) 2 = 2938499072
  /\ mt19937_recurrence 1301868182 2 = 2938499221
  /\ fst (MersenneTwister.next g) = JS.div 3334087605 0xFFFFFFFF
  /\ fst (MersenneTwister.next
            {| MersenneTwister.mt := mt19937_seed 5489; MersenneTwister.index := 624 |})
     = JS.div 3499211612 0xFFFFFFFF.
Proof. vm_compute. repeat split; reflexivity. Qed.

Lemma floor_one_times (k : Z) :
  JS.Math_floor (JS.div 0xFFFFFFFF 0xFFFFFFFF * inject_Z k) = k.
Proof.
  unfold JS.Math_floor.
  rewrite <- (Qfloor_Z k) at 2. apply Qfloor_comp.
  assert (H : (JS.div 0xFFFFFFFF 0xFFFFFFFF == 1)%Q) by reflexivity.
  rewrite H. ring.
Qed.

(** C1. [MersenneTwister] seeded with 178701: after 8362 calls of
    [next()] (thirteen full batches and 250 words of the fourteenth) the
    next one tempers its state word to 0xFFFFFFFF and divides it by
    0xFFFFFFFF, so it returns 1, outside [0,1), and [nextInt(k)] in its
    place returns [k], outside [0,k). *)
Theorem mt_next_returns_one :
  exists g g',
    skip (13 * 624 + 250) (GMersenneTwister (MersenneTwister.constructor (Some 178701) 0))
    = JS.Ok g
    /\ next g = JS.Ok (JS.div 0xFFFFFFFF 0xFFFFFFFF, g')
    /\ (JS.div 0xFFFFFFFF 0xFFFFFFFF == 1)%Q
    /\ forall k : Z, nextInt g k = JS.Ok (k, g').
Proof.
  eexists. eexists. split; [vm_compute; reflexivity |].
  match goal with |- ?A /\ _ => assert (Hnext : A) by (vm_compute; reflexivity) end.
  split; [exact Hnext |]. split; [reflexivity |].
  intros k. unfold nextInt. rewrite Hnext. cbn [mbind JS.result_bind mret JS.result_ret fst snd].
  f_equal. f_equal. apply floor_one_times.
Qed.

(** ** Determinism *)

(** C2. Two [ChaCha20] instances built from the same 32-byte seed, one
    when [Date.now()] reads 1700000000000 and one a millisecond later,
    return different values from their first [next()]: the constructor
    writes [Date.now()] into state words 14 and 15 whatever the seed. *)
Theorem chacha_same_seed_different_output :
  let key := replicate 32 42 in
  let g1 := GChaCha20 (ChaCha20.constructor (Some key) [] 1700000000000 1700000000000) in
  let g2 := GChaCha20 (ChaCha20.constructor (Some key) [] 1700000000001 1700000000001) in
  exists g1' g2',
    next g1 = JS.Ok (JS.div 3764892661 0xFFFFFFFF, g1')
    /\ next g2 = JS.Ok (JS.div 1227615204 0xFFFFFFFF, g2')
    /\ ~ (JS.div 3764892661 0xFFFFFFFF == JS.div 1227615204 0xFFFFFFFF)%Q.
Proof.
  eexists. eexists. split; [vm_compute; reflexivity |].
  split; [vm_compute; reflexivity |].
  intros H. vm_compute in H. discriminate H.
Qed.

(** ** 32-bit arithmetic *)

Lemma ToUint32_testbit (x i : Z) :
  Z.testbit (JS.ToUint32 x) i = (i <? 32) && Z.testbit x i.
Proof. rewrite ToUint32_mod. apply Z.testbit_mod_pow2. lia. Qed.

Lemma ToUint32_range (x : Z) : word (JS.ToUint32 x).
Proof. rewrite ToUint32_mod. apply Z.mod_pos_bound. lia. Qed.

Lemma ToUint32_word (x : Z) : word x -> JS.ToUint32 x = x.
Proof. intros H. rewrite ToUint32_mod. apply Z.mod_small. exact H. Qed.

Lemma ToUint32_ToInt32 (x : Z) : JS.ToUint32 (JS.ToInt32 x) = JS.ToUint32 x.
Proof.
  unfold JS.ToInt32. pose proof (ToUint32_range x) as Hr. unfold word in Hr.
  destruct (JS.ToUint32 x <? 0x80000000).
  - apply ToUint32_word. exact Hr.
  - rewrite (ToUint32_mod (_ - _)).
    replace (JS.ToUint32 x - 0x100000000) with (JS.ToUint32 x + (-1) * 2 ^ 32) by lia.
    rewrite Z.mod_add by lia. apply Z.mod_small. exact Hr.
Qed.

Lemma ToInt32_testbit (x i : Z) :
  0 <= i < 32 -> Z.testbit (JS.ToInt32 x) i = Z.testbit x i.
Proof.
  intros Hi.
  assert (H := ToUint32_testbit (JS.ToInt32 x) i).
  rewrite ToUint32_ToInt32, ToUint32_testbit in H.
  destruct (Z.ltb_spec i 32); [| lia]. simpl in H. congruence.
Qed.

Lemma ToInt32_small (x : Z) : 0 <= x < 2 ^ 31 -> JS.ToInt32 x = x.
Proof.
  intros H. unfold JS.ToInt32. rewrite ToUint32_word by (unfold word; lia).
  destruct (Z.ltb_spec x 0x80000000); [reflexivity | lia].
Qed.

Lemma ushr_0 (x : Z) : JS.ushr x 0 = JS.ToUint32 x.
Proof. reflexivity. Qed.

Lemma u32_word (x : Z) : word x -> JS.u32 x = x.
Proof. apply ToUint32_word. Qed.

Lemma add_word (a b : Z) :
  word a -> word b -> JS.ushr (JS.add a b) 0 = ChaChaSpec.add32 a b.
Proof.
  unfold word. intros Ha Hb. rewrite ushr_0. unfold JS.add.
  rewrite round53_small by lia. apply ToUint32_mod.
Qed.

Lemma add32_word (a b : Z) : word (ChaChaSpec.add32 a b).
Proof. apply Z.mod_pos_bound. lia. Qed.

Lemma xor_low (a b : Z) :
  JS.ToUint32 (JS.xor a b) = Z.lxor (JS.ToUint32 a) (JS.ToUint32 b).
Proof.
  unfold JS.xor. rewrite ToUint32_ToInt32. apply Z.bits_inj'. intros i Hi.
  rewrite ToUint32_testbit, !Z.lxor_spec, !ToUint32_testbit.
  destruct (Z.ltb_spec i 32); [| reflexivity].
  rewrite !ToInt32_testbit by lia. reflexivity.
Qed.

Lemma rotl_low (z n : Z) :
  0 < n < 32 -> ChaCha20.rotl z n = ChaChaSpec.rotl32 (JS.ToUint32 z) n.
Proof.
  intros Hn. unfold ChaCha20.rotl, ChaChaSpec.rotl32, JS.or, JS.shl.
  rewrite ushr_0, ToUint32_ToInt32. unfold JS.ushr.
  rewrite (Z.mod_small n 32), (Z.mod_small (32 - n) 32) by lia.
  apply Z.bits_inj'. intros i Hi.
  rewrite ToUint32_testbit, !Z.lor_spec, Z.testbit_mod_pow2 by lia.
  rewrite !Z.shiftr_spec, !Z.shiftl_spec by lia.
  rewrite !ToUint32_testbit.
  destruct (Z.ltb_spec i 32) as [Hlt | Hge]; simpl.
  - rewrite !ToInt32_testbit by lia.
    rewrite Z.shiftl_spec, Z.shiftr_spec, ToUint32_testbit by lia.
    destruct (Z.ltb_spec (i - n) 32); [| lia]. simpl.
    destruct (Z.ltb_spec (i + (32 - n)) 32); simpl.
    + destruct (Z.ltb_spec (i - n) 0).
      * rewrite ?(Z.testbit_neg_r z (i - n)), ?(Z.testbit_neg_r (JS.ToInt32 z) (i - n)) by lia. reflexivity.
      * rewrite ToInt32_testbit by lia. reflexivity.
    + destruct (Z.ltb_spec (i - n) 0); [lia |].
      rewrite ToInt32_testbit by lia. reflexivity.
  - destruct (Z.ltb_spec (i + (32 - n)) 32); [lia |]. reflexivity.
Qed.

Lemma rotl32_word (x n : Z) : word x -> 0 < n < 32 -> word (ChaChaSpec.rotl32 x n).
Proof.
  intros Hx Hn. rewrite <- (ToUint32_word x Hx), <- rotl_low by exact Hn.
  unfold ChaCha20.rotl. rewrite ushr_0. apply ToUint32_range.
Qed.

Lemma lxor_word (a b : Z) : word a -> word b -> word (Z.lxor a b).
Proof.
  intros Ha Hb. rewrite <- (ToUint32_word a Ha), <- (ToUint32_word b Hb), <- xor_low.
  apply ToUint32_range.
Qed.

Lemma rotl_xor_word (a b n : Z) :
  word a -> word b -> 0 < n < 32 ->
  ChaCha20.rotl (JS.xor a b) n = ChaChaSpec.rotl32 (Z.lxor a b) n.
Proof.
  intros Ha Hb Hn. rewrite rotl_low by exact Hn.
  rewrite xor_low, !ToUint32_word by assumption. reflexivity.
Qed.

(** ** Typed arrays as lists *)

Lemma rd_insert_eq (l : list Z) (i : nat) (v : Z) :
  (i < length l)%nat -> JS.rd (<[ i := v ]> l) i = v.
Proof. intros H. unfold JS.rd. rewrite list_lookup_insert_eq by exact H. reflexivity. Qed.

Lemma rd_insert_ne (l : list Z) (i j : nat) (v : Z) :
  i <> j -> JS.rd (<[ i := v ]> l) j = JS.rd l j.
Proof. intros H. unfold JS.rd. rewrite list_lookup_insert_ne by exact H. reflexivity. Qed.

Lemma rd_word (l : list Z) (i : nat) : Forall word l -> word (JS.rd l i).
Proof.
  intros H. unfold JS.rd. destruct (l !! i) as [w |] eqn:E; simpl.
  - exact (proj1 (Forall_lookup word l) H i w E).
  - unfold word. lia.
Qed.

(** ** The quarter-round *)

Lemma add_into_spec (x : list Z) (a b : nat) :
  Forall word x ->
  ChaCha20.add_into x a b = <[ a := ChaChaSpec.add32 (JS.rd x a) (JS.rd x b) ]> x.
Proof.
  intros H. unfold ChaCha20.add_into.
  rewrite add_word by (apply rd_word; exact H).
  rewrite u32_word by apply add32_word. reflexivity.
Qed.

Lemma xor_rotl_into_spec (x : list Z) (d a : nat) (n : Z) :
  Forall word x -> 0 < n < 32 ->
  ChaCha20.xor_rotl_into x d a n
  = <[ d := ChaChaSpec.rotl32 (Z.lxor (JS.rd x d) (JS.rd x a)) n ]> x.
Proof.
  intros H Hn. unfold ChaCha20.xor_rotl_into.
  rewrite rotl_xor_word by (try apply rd_word; assumption).
  rewrite u32_word; [reflexivity |].
  apply rotl32_word; [| exact Hn]. apply lxor_word; apply rd_word; exact H.
Qed.

Lemma quarter_words (a b c d : Z) :
  word a -> word b -> word c -> word d ->
  match ChaChaSpec.quarter a b c d with
  | (a', b', c', d') => word a' /\ word b' /\ word c' /\ word d'
  end.
Proof.
  intros Ha Hb Hc Hd. unfold ChaChaSpec.quarter. cbv zeta.
  repeat split;
    repeat first [ apply add32_word | apply rotl32_word; [| lia] | apply lxor_word
                 | assumption ].
Qed.

Ltac rd_simpl :=
  repeat first [ rewrite rd_insert_eq by (rewrite ?length_insert; lia)
               | rewrite rd_insert_ne by lia ].

Ltac lookup_simpl :=
  repeat first [ rewrite list_lookup_insert_eq by (rewrite ?length_insert; lia)
               | rewrite list_lookup_insert_ne by lia ].

(** One statement of [quarterRound], the innermost not yet rewritten, put
    in terms of [add32] and [rotl32]. *)
Ltac step_add :=
  match goal with
  | |- context [ChaCha20.add_into ?l ?i ?j] =>
      lazymatch l with
      | context [ChaCha20.add_into] => fail
      | context [ChaCha20.xor_rotl_into] => fail
      | _ => idtac
      end;
      let H := fresh "Hl" in
      assert (H : Forall word l) by (repeat apply Forall_insert; assumption);
      rewrite (add_into_spec l i j H); clear H; rd_simpl
  end.

Ltac step_rot n :=
  match goal with
  | |- context [ChaCha20.xor_rotl_into ?l ?i ?j n] =>
      let H := fresh "Hl" in
      assert (H : Forall word l) by (repeat apply Forall_insert; assumption);
      rewrite (xor_rotl_into_spec l i j n H) by assumption; clear H; rd_simpl
  end.

Lemma quarterRound_at (x : list Z) (a b c d : nat) :
  Forall word x ->
  (a < length x)%nat -> (b < length x)%nat -> (c < length x)%nat -> (d < length x)%nat ->
  a <> b -> a <> c -> a <> d -> b <> c -> b <> d -> c <> d ->
  ChaCha20.quarterRound x a b c d = ChaChaSpec.quarter_at x a b c d.
Proof.
  intros Hw Ha Hb Hc Hd Hab Hac Had Hbc Hbd Hcd.
  unfold ChaCha20.quarterRound, ChaChaSpec.quarter_at, ChaChaSpec.quarter. cbv zeta.
  set (wa := JS.rd x a). set (wb := JS.rd x b). set (wc := JS.rd x c). set (wd := JS.rd x d).
  assert (Hwa : word wa) by (apply rd_word; exact Hw).
  assert (Hwb : word wb) by (apply rd_word; exact Hw).
  assert (Hwc : word wc) by (apply rd_word; exact Hw).
  assert (Hwd : word wd) by (apply rd_word; exact Hw).
  assert (H16 : 0 < 16 < 32) by lia. assert (H12 : 0 < 12 < 32) by lia.
  assert (H8 : 0 < 8 < 32) by lia. assert (H7 : 0 < 7 < 32) by lia.
  step_add. fold wa wb.
  set (a1 := ChaChaSpec.add32 wa wb). assert (Ha1 : word a1) by apply add32_word.
  step_rot 16. fold wd.
  set (d1 := ChaChaSpec.rotl32 (Z.lxor wd a1) 16).
  assert (Hd1 : word d1) by (apply rotl32_word; [apply lxor_word |]; assumption).
  step_add. fold wc.
  set (c1 := ChaChaSpec.add32 wc d1). assert (Hc1 : word c1) by apply add32_word.
  step_rot 12. fold wb.
  set (b1 := ChaChaSpec.rotl32 (Z.lxor wb c1) 12).
  assert (Hb1 : word b1) by (apply rotl32_word; [apply lxor_word |]; assumption).
  step_add.
  set (a2 := ChaChaSpec.add32 a1 b1). assert (Ha2 : word a2) by apply add32_word.
  step_rot 8.
  set (d2 := ChaChaSpec.rotl32 (Z.lxor d1 a2) 8).
  assert (Hd2 : word d2) by (apply rotl32_word; [apply lxor_word |]; assumption).
  step_add.
  set (c2 := ChaChaSpec.add32 c1 d2). assert (Hc2 : word c2) by apply add32_word.
  step_rot 7.
  set (b2 := ChaChaSpec.rotl32 (Z.lxor b1 c2) 7).
  (* the later store to each slot is the one that stays *)
  apply list_eq. intros k.
  destruct (decide (k = a)) as [-> |];
    [| destruct (decide (k = b)) as [-> |];
       [| destruct (decide (k = c)) as [-> |];
          [| destruct (decide (k = d)) as [-> |]]]];
    lookup_simpl; reflexivity.
Qed.

Lemma quarter_at_length (x : list Z) (a b c d : nat) :
  length (ChaChaSpec.quarter_at x a b c d) = length x.
Proof.
  unfold ChaChaSpec.quarter_at.
  destruct (ChaChaSpec.quarter _ _ _ _) as [[[a' b'] c'] d'].
  rewrite !length_insert. reflexivity.
Qed.

Lemma quarter_at_words (x : list Z) (a b c d : nat) :
  Forall word x -> Forall word (ChaChaSpec.quarter_at x a b c d).
Proof.
  intros H. unfold ChaChaSpec.quarter_at.
  pose proof (quarter_words (JS.rd x a) (JS.rd x b) (JS.rd x c) (JS.rd x d)
                (rd_word x a H) (rd_word x b H) (rd_word x c H) (rd_word x d H)) as Hq.
  destruct (ChaChaSpec.quarter _ _ _ _) as [[[a' b'] c'] d'].
  destruct Hq as (Ha & Hb & Hc & Hd).
  repeat apply Forall_insert; assumption.
Qed.

(** ** The ten double rounds *)

Lemma block_rounds_spec (x : list Z) :
  length x = 16%nat -> Forall word x ->
  ChaCha20.block_rounds x = ChaChaSpec.double_round x.
Proof.
  intros Hlen Hw.
  unfold ChaCha20.block_rounds, ChaChaSpec.double_round,
    ChaChaSpec.diagonal_round, ChaChaSpec.column_round. cbv zeta.
  repeat
    match goal with
    | |- context [ChaCha20.quarterRound ?l ?a ?b ?c ?d] =>
        lazymatch l with context [ChaCha20.quarterRound] => fail | _ => idtac end;
        rewrite (quarterRound_at l a b c d);
        [ | first [ repeat apply quarter_at_words; exact Hw
                  | rewrite ?quarter_at_length, Hlen; lia
                  | lia ] .. ]
    end.
  reflexivity.
Qed.

Lemma double_round_length (x : list Z) :
  length (ChaChaSpec.double_round x) = length x.
Proof.
  unfold ChaChaSpec.double_round, ChaChaSpec.diagonal_round, ChaChaSpec.column_round.
  rewrite !quarter_at_length. reflexivity.
Qed.

Lemma double_round_words (x : list Z) :
  Forall word x -> Forall word (ChaChaSpec.double_round x).
Proof.
  intros H. unfold ChaChaSpec.double_round, ChaChaSpec.diagonal_round,
    ChaChaSpec.column_round.
  repeat apply quarter_at_words. exact H.
Qed.

Lemma rounds_spec (n : nat) (x : list Z) :
  length x = 16%nat -> Forall word x ->
  Nat.iter n ChaCha20.block_rounds x = Nat.iter n ChaChaSpec.double_round x
  /\ length (Nat.iter n ChaChaSpec.double_round x) = 16%nat
  /\ Forall word (Nat.iter n ChaChaSpec.double_round x).
Proof.
  intros Hlen Hw. induction n as [| n (IH & IHlen & IHw)].
  - auto.
  - rewrite !Nat.iter_succ, IH, block_rounds_spec by assumption.
    rewrite double_round_length. auto using double_round_words.
Qed.

(** ** The keystream bytes *)

Lemma ToInt32_mod_256 (y : Z) : JS.ToInt32 y mod 2 ^ 8 = y mod 2 ^ 8.
Proof.
  apply Z.bits_inj'. intros i Hi. rewrite !Z.testbit_mod_pow2 by lia.
  destruct (Z.ltb_spec i 8); [| reflexivity].
  rewrite ToInt32_testbit by lia. reflexivity.
Qed.

Lemma low_byte (y : Z) : JS.u8 (JS.and y 0xFF) = y mod 256.
Proof.
  unfold JS.and, JS.u8. change (JS.ToInt32 0xFF) with (Z.ones 8). change 0xFF with (Z.ones 8).
  rewrite (Z.land_ones (JS.ToInt32 y)) by lia. rewrite ToInt32_mod_256.
  assert (H : 0 <= y mod 2 ^ 8 < 2 ^ 8) by (apply Z.mod_pos_bound; lia).
  rewrite ToInt32_small by lia.
  rewrite Z.land_ones by lia. rewrite Z.mod_mod by lia. reflexivity.
Qed.

Lemma ushr_word (w k : Z) : word w -> 0 <= k < 32 -> JS.ushr w k = w / 2 ^ k.
Proof.
  intros Hw Hk. unfold JS.ushr. rewrite ToUint32_word by exact Hw.
  rewrite Z.mod_small by lia. apply Z.shiftr_div_pow2. lia.
Qed.

(** A list of known (numeral) length, taken apart into its elements. *)
Ltac list_of_length l H :=
  repeat (destruct l as [| ? l]; [discriminate H |]);
  destruct l; [clear H | discriminate H].

Ltac split_Forall :=
  repeat match goal with
         | H : Forall _ (_ :: _) |- _ =>
             apply Forall_cons in H; let H1 := fresh "Hword" in destruct H as [H1 H]
         end.

Lemma block_store_bytes (st x buffer : list Z) :
  length st = 16%nat -> Forall word st ->
  length x = 16%nat -> Forall word x ->
  length buffer = 64%nat ->
  foldl (ChaCha20.block_store st x) buffer (seq 0 16)
  = flat_map ChaChaSpec.le_bytes (zip_with ChaChaSpec.add32 x st).
Proof.
  intros Hst Wst Hx Wx Hb.
  list_of_length st Hst. list_of_length x Hx. list_of_length buffer Hb.
  split_Forall.
  cbn [foldl seq ChaCha20.block_store insert list_insert Nat.mul Nat.add
       JS.rd lookup list_lookup default from_option id
       flat_map zip_with app ChaChaSpec.le_bytes].
  rewrite !add_word by assumption.
  rewrite !ushr_word by (apply add32_word || lia).
  rewrite !low_byte. reflexivity.
Qed.

Lemma block_store_length (st x : list Z) (l : list nat) (buffer : list Z) :
  length (foldl (ChaCha20.block_store st x) buffer l) = length buffer.
Proof.
  revert buffer. induction l as [| i l IH]; intros buffer; [reflexivity |].
  cbn [foldl]. rewrite IH. unfold ChaCha20.block_store. cbv zeta.
  rewrite !length_insert. reflexivity.
Qed.

(** ** The block counter *)

Lemma incr_word (w : Z) : word w -> JS.u32 (JS.add w 1) = (w + 1) mod 2 ^ 32.
Proof.
  unfold word. intros H. unfold JS.u32, JS.add.
  rewrite round53_small by lia. apply ToUint32_mod.
Qed.

Lemma block_counter (st : list Z) :
  length st = 16%nat -> Forall word st ->
  let st1 := <[ 12%nat := JS.u32 (JS.add (JS.rd st 12) 1) ]> st in
  let st' := if JS.rd st1 12 =? 0
             then <[ 13%nat := JS.u32 (JS.add (JS.rd st1 13) 1) ]> st1 else st1 in
  length st' = 16%nat /\ Forall word st'
  /\ (forall i : nat, i <> 12%nat -> i <> 13%nat -> st' !! i = st !! i)
  /\ JS.rd st' 12 = (JS.rd st 12 + 1) mod 2 ^ 32
  /\ ChaChaSpec.counter st' = (ChaChaSpec.counter st + 1) mod 2 ^ 64.
Proof.
  intros Hlen Hw st1 st'.
  pose proof (rd_word st 12 Hw) as H12. pose proof (rd_word st 13 Hw) as H13.
  assert (E12 : JS.rd st1 12 = (JS.rd st 12 + 1) mod 2 ^ 32).
  { unfold st1. rewrite rd_insert_eq by lia. apply incr_word. exact H12. }
  assert (E13 : JS.rd st1 13 = JS.rd st 13).
  { unfold st1. rewrite rd_insert_ne by lia. reflexivity. }
  assert (W12 : word ((JS.rd st 12 + 1) mod 2 ^ 32)) by (apply Z.mod_pos_bound; lia).
  assert (Hw1 : Forall word st1).
  { unfold st1. apply Forall_insert; [exact Hw |]. rewrite incr_word by exact H12. exact W12. }
  assert (Hl1 : length st1 = 16%nat) by (unfold st1; rewrite length_insert; exact Hlen).
  unfold ChaChaSpec.counter. unfold word in *.
  subst st'. rewrite E12. destruct (Z.eqb_spec ((JS.rd st 12 + 1) mod 2 ^ 32) 0) as [Hz | Hnz].
  - (* word 12 wrapped to 0: word 13 takes the carry *)
    assert (Hmax : JS.rd st 12 = 2 ^ 32 - 1).
    { destruct (Z.eq_dec (JS.rd st 12) (2 ^ 32 - 1)) as [E | N]; [exact E |].
      rewrite Z.mod_small in Hz by lia. lia. }
    rewrite E13, incr_word by exact H13.
    assert (W13 : 0 <= (JS.rd st 13 + 1) mod 2 ^ 32 < 2 ^ 32) by (apply Z.mod_pos_bound; lia).
    repeat split.
    + rewrite length_insert. exact Hl1.
    + apply Forall_insert; assumption.
    + intros i Hi12 Hi13. unfold st1. rewrite !list_lookup_insert_ne by lia. reflexivity.
    + rewrite rd_insert_ne by lia. exact E12.
    + rewrite rd_insert_ne by lia. rewrite rd_insert_eq by lia. rewrite E12, Hz, Hmax.
      replace (2 ^ 32 - 1 + 2 ^ 32 * JS.rd st 13 + 1) with (2 ^ 32 * (JS.rd st 13 + 1)) by lia.
      change (2 ^ 64) with (2 ^ 32 * 2 ^ 32).
      rewrite Z.mul_mod_distr_l by lia. lia.
  - repeat split.
    + exact Hl1.
    + exact Hw1.
    + intros i Hi12 Hi13. unfold st1. rewrite list_lookup_insert_ne by lia. reflexivity.
    + exact E12.
    + rewrite E12, E13.
      assert (Hlt : JS.rd st 12 + 1 < 2 ^ 32).
      { destruct (Z.eq_dec (JS.rd st 12) (2 ^ 32 - 1)) as [E | N]; [| lia].
        exfalso. apply Hnz. rewrite E. reflexivity. }
      rewrite (Z.mod_small (JS.rd st 12 + 1)) by lia.
      rewrite Z.mod_small by lia. lia.
Qed.

(** [ChaCha20.block] of [lib/entropy.ts] on a well-formed generator. *)
Lemma chacha_block_correct (g : ChaCha20.t) :
  chacha_wf g ->
  let g' := ChaCha20.block g in
  ChaCha20.buffer g' = ChaChaSpec.keystream (ChaCha20.state g)
  /\ ChaCha20.pos g' = 0%nat
  /\ (forall i : nat, i <> 12%nat -> i <> 13%nat ->
      ChaCha20.state g' !! i = ChaCha20.state g !! i)
  /\ JS.rd (ChaCha20.state g') 12 = (JS.rd (ChaCha20.state g) 12 + 1) mod 2 ^ 32
  /\ ChaChaSpec.counter (ChaCha20.state g')
     = (ChaChaSpec.counter (ChaCha20.state g) + 1) mod 2 ^ 64
  /\ chacha_wf g'.
Proof.
  intros (Hlen & Hw & Hbuf) g'.
  destruct (rounds_spec 10 (ChaCha20.state g) Hlen Hw) as (Hr & Hrl & Hrw).
  destruct (block_counter (ChaCha20.state g) Hlen Hw) as (Cl & Cw & Cf & C12 & C64).
  assert (Hb : ChaCha20.buffer g' = ChaChaSpec.keystream (ChaCha20.state g)).
  { unfold g', ChaCha20.block, ChaChaSpec.keystream. cbn [ChaCha20.buffer].
    rewrite Hr. apply block_store_bytes; assumption. }
  split; [exact Hb |]. split; [reflexivity |].
  split; [exact Cf |]. split; [exact C12 |]. split; [exact C64 |].
  split; [exact Cl |]. split; [exact Cw |].
  unfold g', ChaCha20.block. cbn [ChaCha20.buffer].
  rewrite block_store_length. exact Hbuf.
Qed.

(** The source and the worded block function both give the keystream RFC
    8439 publishes for its test vector. *)
Example rfc8439_block :
  ChaCha20.buffer (ChaCha20.block rfc8439_generator) = rfc8439_keystream
  /\ ChaChaSpec.keystream rfc8439_state = rfc8439_keystream.
Proof. split; vm_compute; reflexivity. Qed.

(** ** The block function of [ChaCha20CSPRNG] *)

Lemma rotl_u32 (z n : Z) :
  0 < n < 32 -> ChaCha20CSPRNG.rotl (JS.u32 z) n = ChaCha20.rotl z n.
Proof.
  intros Hn. change ChaCha20CSPRNG.rotl with ChaCha20.rotl.
  rewrite !rotl_low by exact Hn. unfold JS.u32.
  rewrite (ToUint32_word (JS.ToUint32 z)) by apply ToUint32_range. reflexivity.
Qed.

Lemma xor_then_rotl (x : list Z) (d a : nat) (n : Z) :
  (d < length x)%nat -> 0 < n < 32 ->
  ChaCha20CSPRNG.rotl_into (ChaCha20CSPRNG.xor_into x d a) d n
  = ChaCha20.xor_rotl_into x d a n.
Proof.
  intros Hd Hn. unfold ChaCha20CSPRNG.rotl_into, ChaCha20CSPRNG.xor_into, ChaCha20.xor_rotl_into.
  rewrite rd_insert_eq by exact Hd. rewrite list_insert_insert_eq.
  rewrite rotl_u32 by exact Hn. reflexivity.
Qed.

Lemma add_into_length (x : list Z) (a b : nat) :
  length (ChaCha20.add_into x a b) = length x.
Proof. apply length_insert. Qed.

Lemma xor_rotl_into_length (x : list Z) (d a : nat) (n : Z) :
  length (ChaCha20.xor_rotl_into x d a n) = length x.
Proof. apply length_insert. Qed.

Lemma csprng_quarterRound (x : list Z) (a b c d : nat) :
  (b < length x)%nat -> (d < length x)%nat ->
  ChaCha20CSPRNG.quarterRound x a b c d = ChaCha20.quarterRound x a b c d.
Proof.
  intros Hb Hd. unfold ChaCha20CSPRNG.quarterRound, ChaCha20.quarterRound. cbv zeta.
  change ChaCha20CSPRNG.add_into with ChaCha20.add_into.
  repeat (rewrite xor_then_rotl
            by (unfold ChaCha20CSPRNG.rotl_into, ChaCha20CSPRNG.xor_into,
                  ChaCha20.add_into, ChaCha20.xor_rotl_into;
                rewrite ?length_insert; (assumption || lia))).
  reflexivity.
Qed.

Lemma quarterRound_length (x : list Z) (a b c d : nat) :
  length (ChaCha20.quarterRound x a b c d) = length x.
Proof.
  unfold ChaCha20.quarterRound, ChaCha20.add_into, ChaCha20.xor_rotl_into. cbv zeta.
  rewrite !length_insert. reflexivity.
Qed.

Lemma csprng_rounds (x : list Z) :
  length x = 16%nat -> ChaCha20CSPRNG.rounds x = ChaCha20.block_rounds x.
Proof.
  intros Hlen. unfold ChaCha20CSPRNG.rounds, ChaCha20.block_rounds. cbv zeta.
  repeat
    match goal with
    | |- context [ChaCha20CSPRNG.quarterRound ?l ?a ?b ?c ?d] =>
        lazymatch l with context [ChaCha20CSPRNG.quarterRound] => fail | _ => idtac end;
        rewrite (csprng_quarterRound l a b c d)
          by (rewrite ?quarterRound_length, Hlen; lia)
    end.
  reflexivity.
Qed.

Lemma csprng_rounds_iter (n : nat) (x : list Z) :
  length x = 16%nat -> Forall word x ->
  Nat.iter n ChaCha20CSPRNG.rounds x = Nat.iter n ChaChaSpec.double_round x.
Proof.
  intros Hlen Hw. destruct (rounds_spec n x Hlen Hw) as (<- & _ & _).
  induction n as [| n IH]; [reflexivity |].
  rewrite !Nat.iter_succ, IH. apply csprng_rounds.
  destruct (rounds_spec n x Hlen Hw) as (-> & Hl & _). exact Hl.
Qed.

Lemma sar_byte (w k : Z) :
  word w -> 0 <= k <= 24 -> JS.u8 (JS.and (JS.sar w k) 0xFF) = w / 2 ^ k mod 256.
Proof.
  intros Hw Hk. rewrite low_byte. unfold JS.sar. rewrite (Z.mod_small k 32) by lia.
  change 256 with (2 ^ 8). apply Z.bits_inj'. intros i Hi.
  rewrite !Z.testbit_mod_pow2 by lia.
  destruct (Z.ltb_spec i 8); [| reflexivity]. cbn [andb].
  rewrite Z.shiftr_spec by lia. rewrite ToInt32_testbit by lia.
  rewrite <- Z.shiftr_div_pow2 by lia. rewrite Z.shiftr_spec by lia. reflexivity.
Qed.

Lemma add_state_sum (st working : list Z) :
  length st = 16%nat -> Forall word st ->
  length working = 16%nat -> Forall word working ->
  foldl (ChaCha20CSPRNG.add_state st) working (seq 0 16)
  = zip_with ChaChaSpec.add32 working st.
Proof.
  intros Hst Wst Hx Wx.
  list_of_length st Hst. list_of_length working Hx. split_Forall.
  cbn [foldl seq ChaCha20CSPRNG.add_state insert list_insert
       JS.rd lookup list_lookup default from_option id zip_with].
  rewrite !add_word by assumption.
  rewrite !u32_word by apply add32_word. reflexivity.
Qed.

Lemma store_word_bytes (working buffer : list Z) :
  length working = 16%nat -> Forall word working -> length buffer = 64%nat ->
  foldl (ChaCha20CSPRNG.store_word working) buffer (seq 0 16)
  = flat_map ChaChaSpec.le_bytes working.
Proof.
  intros Hx Wx Hb.
  list_of_length working Hx. list_of_length buffer Hb. split_Forall.
  cbn [foldl seq ChaCha20CSPRNG.store_word insert list_insert Nat.mul Nat.add
       JS.rd lookup list_lookup default from_option id
       flat_map app ChaChaSpec.le_bytes].
  rewrite !sar_byte by (assumption || lia).
  rewrite !low_byte. reflexivity.
Qed.

Lemma zip_add32_words (x st : list Z) : Forall word (zip_with ChaChaSpec.add32 x st).
Proof.
  revert st. induction x as [| a x IH]; intros [| b st]; cbn [zip_with]; constructor.
  - apply add32_word.
  - apply IH.
Qed.

Lemma generateBlock_equation (g : ChaCha20CSPRNG.t) :
  length (ChaCha20CSPRNG.state g) = 16%nat -> Forall word (ChaCha20CSPRNG.state g) ->
  length (ChaCha20CSPRNG.buffer g) = 64%nat -> 0 <= ChaCha20CSPRNG.counter g ->
  let st := <[ 12%nat := ChaCha20CSPRNG.counter g mod 2 ^ 32 ]> (ChaCha20CSPRNG.state g) in
  ChaCha20CSPRNG.generateBlock g
  = {| ChaCha20CSPRNG.state := st;
       ChaCha20CSPRNG.counter := ChaCha20CSPRNG.counter g + 1;
       ChaCha20CSPRNG.buffer := ChaChaSpec.keystream st;
       ChaCha20CSPRNG.bufferIndex := 0 |}.
Proof.
  intros Hlen Hw Hbuf Hc st.
  assert (Hlow : JS.u32 (JS.round53 (Z.land (ChaCha20CSPRNG.counter g) 0xFFFFFFFF))
                 = ChaCha20CSPRNG.counter g mod 2 ^ 32).
  { fold (JS.ToUint32 (ChaCha20CSPRNG.counter g)).
    pose proof (ToUint32_range (ChaCha20CSPRNG.counter g)) as Hr. unfold word in Hr.
    rewrite round53_small by lia. rewrite u32_word by exact Hr. apply ToUint32_mod. }
  assert (Hwst : Forall word st).
  { apply Forall_insert; [exact Hw |]. apply Z.mod_pos_bound. lia. }
  assert (Hlst : length st = 16%nat) by (unfold st; rewrite length_insert; exact Hlen).
  destruct (rounds_spec 10 st Hlst Hwst) as (_ & Hrl & Hrw).
  unfold ChaCha20CSPRNG.generateBlock. cbv zeta. rewrite Hlow. fold st.
  rewrite csprng_rounds_iter by assumption.
  rewrite add_state_sum by assumption.
  rewrite store_word_bytes;
    [ unfold ChaChaSpec.keystream; reflexivity | | apply zip_add32_words | exact Hbuf ].
  rewrite length_zip_with, Hrl, Hlst. reflexivity.
Qed.

(** What [generateBlock] does on sixteen 32-bit words, a 64-byte buffer
    and a counter [c >= 0]: word 12 is set to [c mod 2^32] before the
    rounds, the keystream is that of the worded block function on the
    state so set, the counter becomes [c + 1], and no other word of the
    state changes: a wrap of word 12 carries nowhere. *)
Theorem generateBlock_spec (g : ChaCha20CSPRNG.t) :
  length (ChaCha20CSPRNG.state g) = 16%nat -> Forall word (ChaCha20CSPRNG.state g) ->
  length (ChaCha20CSPRNG.buffer g) = 64%nat -> 0 <= ChaCha20CSPRNG.counter g ->
  let st := <[ 12%nat := ChaCha20CSPRNG.counter g mod 2 ^ 32 ]> (ChaCha20CSPRNG.state g) in
  ChaCha20CSPRNG.generateBlock g
  = {| ChaCha20CSPRNG.state := st;
       ChaCha20CSPRNG.counter := ChaCha20CSPRNG.counter g + 1;
       ChaCha20CSPRNG.buffer := ChaChaSpec.keystream st;
       ChaCha20CSPRNG.bufferIndex := 0 |}.
Proof. exact (generateBlock_equation g). Qed.

Lemma generateBlock_spec_witness :
  ChaCha20CSPRNG.generateBlock csprng_example
  = {| ChaCha20CSPRNG.state :=
         <[ 12%nat := ChaCha20CSPRNG.counter csprng_example mod 2 ^ 32 ]>
           (ChaCha20CSPRNG.state csprng_example);
       ChaCha20CSPRNG.counter := ChaCha20CSPRNG.counter csprng_example + 1;
       ChaCha20CSPRNG.buffer :=
         ChaChaSpec.keystream
           (<[ 12%nat := ChaCha20CSPRNG.counter csprng_example mod 2 ^ 32 ]>
              (ChaCha20CSPRNG.state csprng_example));
       ChaCha20CSPRNG.bufferIndex := 0 |}.
Proof.
  apply (generateBlock_spec csprng_example).
  - reflexivity.
  - repeat (constructor; [unfold word; lia |]). constructor.
  - reflexivity.
  - unfold csprng_example. cbn [ChaCha20CSPRNG.counter]. lia.
Defined.

(** C5, as stated, fails for [ChaCha20CSPRNG.generateBlock].  On the state
    of the RFC 8439 test vector with the counter at 2^32 - 1: the block
    function leaves that value in word 12, and the one after it writes 0
    there and leaves word 13 as it was. *)
Example generateBlock_no_carry :
  let g := {| ChaCha20CSPRNG.state := rfc8439_state; ChaCha20CSPRNG.counter := 0xFFFFFFFF;
              ChaCha20CSPRNG.buffer := replicate 64 0; ChaCha20CSPRNG.bufferIndex := 64 |} in
  let g1 := ChaCha20CSPRNG.generateBlock g in
  let g2 := ChaCha20CSPRNG.generateBlock g1 in
  JS.rd (ChaCha20CSPRNG.state g1) 12 = 0xFFFFFFFF
  /\ ChaCha20CSPRNG.counter g1 = 0x100000000
  /\ JS.rd (ChaCha20CSPRNG.state g2) 12 = 0
  /\ JS.rd (ChaCha20CSPRNG.state g2) 13 = JS.rd rfc8439_state 13.
Proof. vm_compute. repeat split; reflexivity. Qed.

Lemma keystream_length (st : list Z) :
  length st = 16%nat -> Forall word st -> length (ChaChaSpec.keystream st) = 64%nat.
Proof.
  intros Hlen Hw. destruct (rounds_spec 10 st Hlen Hw) as (_ & Hrl & _).
  unfold ChaChaSpec.keystream.
  assert (Hz : length (zip_with ChaChaSpec.add32 (Nat.iter 10 ChaChaSpec.double_round st) st)
               = 16%nat) by (rewrite length_zip_with, Hrl, Hlen; reflexivity).
  revert Hz. generalize (zip_with ChaChaSpec.add32 (Nat.iter 10 ChaChaSpec.double_round st) st).
  intros l Hl.
  assert (H4 : forall l : list Z, length (flat_map ChaChaSpec.le_bytes l) = (4 * length l)%nat).
  { clear. induction l as [| w l IH]; [reflexivity |].
    cbn [flat_map ChaChaSpec.le_bytes app length]. rewrite IH. lia. }
  rewrite H4, Hl. reflexivity.
Qed.

(** C5, source by source.  On a well-formed generator (sixteen 32-bit
    words, a 64-byte buffer) [ChaCha20.block] of [lib/entropy.ts] does all
    the claim says: it fills the buffer with the little-endian bytes of
    the word-wise sum, modulo 2^32, of the input state and of that state
    after ten double rounds (four column quarter-rounds, then four
    diagonal ones, each add-rotate-xor with rotations 16, 12, 8, 7); it
    resets the cursor, leaves every word but 12 and 13 alone, adds one to
    word 12 modulo 2^32, and words 12 and 13 together move on by one as a
    64-bit counter, which is the carry into word 13.
    [ChaCha20CSPRNG.generateBlock] of [src/modules/complexity.ts] fills
    its buffer by the same function, but of the state in which it has
    first set word 12 to its [bigint] counter modulo 2^32; it resets the
    cursor and adds one to that counter, and it leaves every other word,
    word 13 among them, as it was: there is no carry into word 13. *)
Theorem chacha_block_spec (g : ChaCha20.t) (h : ChaCha20CSPRNG.t) :
  chacha_wf g -> csprng_wf h ->
  (let g' := ChaCha20.block g in
   ChaCha20.buffer g' = ChaChaSpec.keystream (ChaCha20.state g)
   /\ ChaCha20.pos g' = 0%nat
   /\ (forall i : nat, i <> 12%nat -> i <> 13%nat ->
       ChaCha20.state g' !! i = ChaCha20.state g !! i)
   /\ JS.rd (ChaCha20.state g') 12 = (JS.rd (ChaCha20.state g) 12 + 1) mod 2 ^ 32
   /\ ChaChaSpec.counter (ChaCha20.state g')
      = (ChaChaSpec.counter (ChaCha20.state g) + 1) mod 2 ^ 64
   /\ chacha_wf g')
  /\ (let st := <[ 12%nat := ChaCha20CSPRNG.counter h mod 2 ^ 32 ]>
                  (ChaCha20CSPRNG.state h) in
      let h' := ChaCha20CSPRNG.generateBlock h in
      ChaCha20CSPRNG.buffer h' = ChaChaSpec.keystream st
      /\ ChaCha20CSPRNG.bufferIndex h' = 0%nat
      /\ ChaCha20CSPRNG.state h' = st
      /\ (forall i : nat, i <> 12%nat ->
          ChaCha20CSPRNG.state h' !! i = ChaCha20CSPRNG.state h !! i)
      /\ ChaCha20CSPRNG.counter h' = ChaCha20CSPRNG.counter h + 1
      /\ csprng_wf h').
Proof.
  intros Hg (Hlen & Hw & Hbuf & Hc). split; [exact (chacha_block_correct g Hg) |].
  cbv zeta. rewrite (generateBlock_equation h Hlen Hw Hbuf Hc).
  cbn [ChaCha20CSPRNG.buffer ChaCha20CSPRNG.bufferIndex ChaCha20CSPRNG.state
       ChaCha20CSPRNG.counter].
  split; [reflexivity |]. split; [reflexivity |]. split; [reflexivity |].
  split; [intros i Hi; apply list_lookup_insert_ne; lia |].
  split; [reflexivity |].
  unfold csprng_wf.
  cbn [ChaCha20CSPRNG.buffer ChaCha20CSPRNG.bufferIndex ChaCha20CSPRNG.state
       ChaCha20CSPRNG.counter].
  split; [rewrite length_insert; exact Hlen |].
  split; [apply Forall_insert; [exact Hw | apply Z.mod_pos_bound; lia] |].
  split; [| lia].
  apply keystream_length.
  - rewrite length_insert. exact Hlen.
  - apply Forall_insert; [exact Hw | apply Z.mod_pos_bound; lia].
Qed.

(** At the last value of the 32-bit counter: [ChaCha20.block] moves the
    64-bit counter of words 12 and 13 on by one, and [generateBlock]
    leaves in the state the low word of its own counter and nothing
    else. *)
Lemma chacha_block_spec_witness :
  chacha_wf rfc8439_last_block /\ csprng_wf csprng_last_block
  /\ ChaCha20.buffer (ChaCha20.block rfc8439_last_block)
     = ChaChaSpec.keystream (ChaCha20.state rfc8439_last_block)
  /\ ChaChaSpec.counter (ChaCha20.state (ChaCha20.block rfc8439_last_block))
     = (ChaChaSpec.counter (ChaCha20.state rfc8439_last_block) + 1) mod 2 ^ 64
  /\ ChaCha20CSPRNG.state (ChaCha20CSPRNG.generateBlock csprng_last_block)
     = <[ 12%nat := ChaCha20CSPRNG.counter csprng_last_block mod 2 ^ 32 ]>
         (ChaCha20CSPRNG.state csprng_last_block).
Proof.
  assert (Hs : Forall word rfc8439_state).
  { repeat (constructor; [unfold word; lia |]). constructor. }
  assert (H : chacha_wf rfc8439_last_block).
  { split; [reflexivity |]. split; [| reflexivity].
    apply Forall_insert; [exact Hs | unfold word; lia]. }
  assert (H' : csprng_wf csprng_last_block).
  { split; [reflexivity |]. split; [exact Hs |]. split; [reflexivity |].
    unfold csprng_last_block. cbn [ChaCha20CSPRNG.counter]. lia. }
  pose proof (chacha_block_spec rfc8439_last_block csprng_last_block H H') as T.
  split; [exact H |]. split; [exact H' |].
  split; [exact (proj1 (proj1 T)) |].
  split; [exact (proj1 (proj2 (proj2 (proj2 (proj2 (proj1 T)))))) |].
  exact (proj1 (proj2 (proj2 (proj2 T)))).
Defined.

(** The carry, and its absence: from word 12 at 2^32 - 1 and word 13 at
    0x09000000, [ChaCha20.block] leaves 0 and 0x09000001. *)
Example block_carries_into_word_13 :
  JS.rd (ChaCha20.state (ChaCha20.block rfc8439_last_block)) 12 = 0
  /\ JS.rd (ChaCha20.state (ChaCha20.block rfc8439_last_block)) 13 = 0x09000001.
Proof. vm_compute. split; reflexivity. Qed.

(** ** The seeding of [src/modules/complexity.ts] *)

Lemma ToInt32_mod (x : Z) : JS.ToInt32 x mod 2 ^ 32 = x mod 2 ^ 32.
Proof. rewrite <- !ToUint32_mod. apply ToUint32_ToInt32. Qed.

Lemma and_high_half (s : Z) :
  JS.ushr (JS.and s 0xffff0000) 16 = JS.ToUint32 s / 2 ^ 16.
Proof.
  unfold JS.ushr, JS.and. rewrite ToUint32_ToInt32.
  change (16 mod 32) with 16. rewrite <- Z.shiftr_div_pow2 by lia.
  apply Z.bits_inj'. intros i Hi.
  rewrite !Z.shiftr_spec, !ToUint32_testbit, Z.land_spec by lia.
  destruct (Z.ltb_spec (i + 16) 32); [| reflexivity]. cbn [andb].
  rewrite !ToInt32_testbit by lia.
  change 0xffff0000 with (Z.shiftl (Z.ones 16) 16).
  rewrite Z.shiftl_spec by lia. rewrite Z.ones_spec_low by lia.
  apply andb_true_r.
Qed.

Lemma and_low_half (s : Z) : JS.and s 0x0000ffff = JS.ToUint32 s mod 2 ^ 16.
Proof.
  unfold JS.and. change (JS.ToInt32 0x0000ffff) with (Z.ones 16).
  rewrite Z.land_ones by lia.
  assert (H : JS.ToInt32 s mod 2 ^ 16 = JS.ToUint32 s mod 2 ^ 16).
  { apply Z.bits_inj'. intros i Hi. rewrite !Z.testbit_mod_pow2 by lia.
    destruct (Z.ltb_spec i 16); [| reflexivity]. cbn [andb].
    rewrite ToInt32_testbit, ToUint32_testbit by lia.
    destruct (Z.ltb_spec i 32); [reflexivity | lia]. }
  rewrite H. apply ToInt32_small.
  pose proof (Z.mod_pos_bound (JS.ToUint32 s) (2 ^ 16)). lia.
Qed.

Lemma ToInt32_range (x : Z) : - 2 ^ 31 <= JS.ToInt32 x < 2 ^ 31.
Proof.
  unfold JS.ToInt32. pose proof (ToUint32_range x) as H. unfold word in H.
  destruct (Z.ltb_spec (JS.ToUint32 x) 0x80000000); lia.
Qed.

Lemma init_word (p : Z) (i : nat) :
  word p -> (i < 624)%nat ->
  let s := JS.xor p (JS.ushr p 30) in
  JS.ushr (JS.add (JS.add (JS.shl (JS.mul (JS.ushr (JS.and s 0xffff0000) 16) 1812433253) 16)
                          (JS.mul (JS.and s 0x0000ffff) 1812433253))
                  (Z.of_nat i)) 0
  = mt19937_recurrence p i.
Proof.
  intros Hp Hi s. unfold mt19937_recurrence.
  assert (Hu : JS.ToUint32 s = Z.lxor p (Z.shiftr p 30)).
  { unfold s. rewrite xor_low, (ToUint32_word p Hp). f_equal.
    unfold JS.ushr. rewrite (ToUint32_word p Hp). change (30 mod 32) with 30.
    apply ToUint32_word. unfold word in *. rewrite Z.shiftr_div_pow2 by lia.
    split; [apply Z.div_pos; lia |].
    apply Z.div_lt_upper_bound; lia. }
  rewrite and_high_half, and_low_half, Hu.
  set (u := Z.lxor p (Z.shiftr p 30)).
  assert (Hw : word u) by (unfold u; rewrite <- Hu; apply ToUint32_range). unfold word in Hw.
  assert (Hhi : 0 <= u / 2 ^ 16 < 2 ^ 16).
  { split; [apply Z.div_pos; lia | apply Z.div_lt_upper_bound; lia]. }
  assert (Hlo : 0 <= u mod 2 ^ 16 < 2 ^ 16) by (apply Z.mod_pos_bound; lia).
  set (hi := u / 2 ^ 16) in *. set (lo := u mod 2 ^ 16) in *.
  assert (Hhk : 0 <= hi * 1812433253 < 2 ^ 48) by nia.
  assert (Hlk : 0 <= lo * 1812433253 < 2 ^ 48) by nia.
  unfold JS.mul. rewrite !round53_small by lia.
  unfold JS.shl. change (16 mod 32) with 16. rewrite Z.shiftl_mul_pow2 by lia.
  set (A := JS.ToInt32 (JS.ToInt32 (hi * 1812433253) * 2 ^ 16)).
  pose proof (ToInt32_range (JS.ToInt32 (hi * 1812433253) * 2 ^ 16)) as HA. fold A in HA.
  unfold JS.add. rewrite (round53_small (A + lo * 1812433253)) by lia.
  rewrite round53_small by lia.
  rewrite ushr_0, ToUint32_mod.
  rewrite <- Z.add_assoc, <- Zplus_mod_idemp_l.
  unfold A. rewrite ToInt32_mod, <- Zmult_mod_idemp_l, ToInt32_mod, Zmult_mod_idemp_l.
  rewrite Zplus_mod_idemp_l. f_equal.
  rewrite (Z.div_mod u (2 ^ 16)) by lia. fold hi lo. ring.
Qed.

Lemma init_step_spec (mt : list Z) (i : nat) :
  Forall word mt -> (i < 624)%nat ->
  ComplexityMT.init_step mt i = <[ i := mt19937_recurrence (JS.rd mt (i - 1)) i ]> mt.
Proof.
  intros Hw Hi. unfold ComplexityMT.init_step. cbv zeta.
  rewrite (init_word (JS.rd mt (i - 1)) i (rd_word mt (i - 1) Hw) Hi).
  rewrite u32_word; [reflexivity |].
  apply Z.mod_pos_bound. lia.
Qed.

Lemma init_steps_spec (l : list nat) (mt : list Z) :
  Forall word mt -> Forall (fun i => (i < 624)%nat) l ->
  foldl ComplexityMT.init_step mt l
  = foldl (fun mt i => <[ i := mt19937_recurrence (JS.rd mt (i - 1)) i ]> mt) mt l.
Proof.
  intros Hw Hl. revert mt Hw. induction Hl as [| i l Hi _ IH]; intros mt Hw; [reflexivity |].
  cbn [foldl]. rewrite init_step_spec by assumption. apply IH.
  apply Forall_insert; [exact Hw |]. apply Z.mod_pos_bound. lia.
Qed.

(** [MersenneTwister.init] of [src/modules/complexity.ts] computes the
    seeding recurrence exactly, for every seed: the two 16-bit halves keep
    each product below 2^53. *)
Theorem complexity_init_exact (seed : Z) :
  ComplexityMT.init (replicate 624 0) seed = mt19937_seed seed.
Proof.
  unfold ComplexityMT.init, mt19937_seed.
  rewrite ushr_0, (u32_word _ (ToUint32_range seed)), ToUint32_mod.
  apply init_steps_spec.
  - apply Forall_insert; [| apply Z.mod_pos_bound; lia].
    apply Forall_replicate. unfold word. lia.
  - apply Forall_forall. intros i Hi. apply list_elem_of_In, in_seq in Hi. lia.
Qed.

(** ** Every call of [next] returns *)

Lemma next_returns (g : generator) : exists x g', next g = JS.Ok (x, g').
Proof.
  destruct g as [g | g | g | g]; unfold next.
  - destruct (LCG.next g) as [x g']. eauto.
  - destruct (MersenneTwister.next g) as [x g']. eauto.
  - unfold ChaCha20.next, ChaCha20.nextBytes.
    change (JS.new_array 4) with (JS.Ok (replicate 4 0)).
    cbn [mbind JS.result_bind mret JS.result_ret fst snd]. eauto.
  - destruct (XorShift128Plus.next g) as [x g']. eauto.
Qed.

Lemma nextBytes_step_returns (l : list nat) (bytes : list Z) (g : generator) :
  exists bytes' g',
    foldl nextBytes_step (JS.Ok (bytes, g)) l = JS.Ok (bytes', g')
    /\ length bytes' = length bytes.
Proof.
  revert bytes g. induction l as [| i l IH]; intros bytes g; cbn [foldl].
  - eauto.
  - destruct (next_returns g) as (x & g' & Hx).
    assert (Hs : nextBytes_step (JS.Ok (bytes, g)) i
                 = JS.Ok (<[ i := JS.u8 (JS.Math_floor (x * inject_Z 256)) ]> bytes, g')).
    { unfold nextBytes_step, nextInt. cbn [mbind JS.result_bind snd]. rewrite Hx. reflexivity. }
    rewrite Hs.
    destruct (IH (<[ i := JS.u8 (JS.Math_floor (x * inject_Z 256)) ]> bytes) g')
      as (bytes' & g'' & -> & Hlen).
    rewrite length_insert in Hlen. eauto.
Qed.

Lemma chacha_nextBytes_step_length (l : list nat) (acc : list Z * ChaCha20.t) :
  length (fst (foldl ChaCha20.nextBytes_step acc l)) = length (fst acc).
Proof.
  revert acc. induction l as [| i l IH]; intros acc; cbn [foldl]; [reflexivity |].
  rewrite IH. unfold ChaCha20.nextBytes_step.
  destruct (ChaCha20.nextByte (snd acc)) as [b g]. cbn [fst].
  apply length_insert.
Qed.

(** ** The entropy pool *)

Lemma addEntropy_pool (e : Entropy.t) (byte : Z) :
  (length (Entropy.pool e) <= 256)%nat ->
  Entropy.pool (Entropy.addEntropy e byte)
  = (if (length (Entropy.pool e) =? 256)%nat then tail (Entropy.pool e) else Entropy.pool e)
      ++ [JS.and byte 0xFF]
  /\ (length (Entropy.pool (Entropy.addEntropy e byte)) <= 256)%nat.
Proof.
  intros Hle. unfold Entropy.addEntropy, Entropy.poolSize. cbn [Entropy.pool].
  rewrite length_app. cbn [length].
  destruct (Nat.eqb_spec (length (Entropy.pool e)) 256) as [Heq | Hne].
  - destruct (Nat.ltb_spec 256 (length (Entropy.pool e) + 1)); [| lia].
    destruct (Entropy.pool e) as [| b p]; [discriminate Heq |].
    cbn [tail app length] in *. rewrite length_app. cbn [length]. split; [reflexivity | lia].
  - destruct (Nat.ltb_spec 256 (length (Entropy.pool e) + 1)); [lia |].
    rewrite length_app. cbn [length]. split; [reflexivity | lia].
Qed.

Lemma getBytes_pool_bound (e e' : Entropy.t) (count : Z) (env : Entropy.samples)
    (bytes : list Z) :
  (length (Entropy.pool e) <= 256)%nat ->
  Entropy.getBytes e count env = JS.Ok (bytes, e') ->
  (length (Entropy.pool e') <= 256)%nat.
Proof.
  intros Hle. unfold Entropy.getBytes.
  destruct (JS.new_array count) as [result | err]; [| discriminate].
  cbn [mbind JS.result_bind]. unfold mret, JS.result_ret.
  generalize (seq 0 16). intros l. cbv zeta.
  match goal with |- JS.Ok (?r, ?e1) = _ -> _ => generalize r; set (e2 := e1) end.
  assert (H2 : (length (Entropy.pool e2) <= 256)%nat).
  { subst e2. revert e Hle.
    induction l as [| i l IH]; intros e Hle; cbn [foldl]; [exact Hle |].
    apply IH. apply addEntropy_pool. apply addEntropy_pool. exact Hle. }
  clearbody e2. intros r H. congruence.
Qed.

(** C10. A pool never holds more than 256 bytes: whatever sequence of
    [addEntropy] and [getBytes] calls produced it, its length is at most
    256; one more [addEntropy] keeps it so, appending the new byte and,
    when the pool is full, dropping the oldest one. *)
Theorem pool_never_exceeds_capacity (e : Entropy.t) :
  Entropy.reachable e ->
  (length (Entropy.pool e) <= 256)%nat
  /\ forall byte : Z,
      Entropy.pool (Entropy.addEntropy e byte)
      = (if (length (Entropy.pool e) =? 256)%nat
         then tail (Entropy.pool e) else Entropy.pool e) ++ [JS.and byte 0xFF]
      /\ (length (Entropy.pool (Entropy.addEntropy e byte)) <= 256)%nat.
Proof.
  intros Hr.
  assert (Hle : (length (Entropy.pool e) <= 256)%nat).
  { induction Hr as [| e byte Hr IH | e e' count env bytes Hr IH Hget].
    - cbn. lia.
    - apply addEntropy_pool. exact IH.
    - eapply getBytes_pool_bound; eassumption. }
  split; [exact Hle |]. intros byte. apply addEntropy_pool. exact Hle.
Qed.

Lemma reachable_addEntropy_all (l : list Z) (e : Entropy.t) :
  Entropy.reachable e -> Entropy.reachable (foldl Entropy.addEntropy e l).
Proof.
  revert e. induction l as [| b l IH]; intros e He; cbn [foldl]; [exact He |].
  apply IH. apply Entropy.reach_addEntropy. exact He.
Qed.

(** At a full pool: after 257 calls of [addEntropy] the pool holds 256
    bytes, and one more call drops the oldest of them. *)
Lemma pool_never_exceeds_capacity_witness :
  length (Entropy.pool overfull_pool) = 256%nat
  /\ (length (Entropy.pool overfull_pool) <= 256)%nat
  /\ forall byte : Z,
      Entropy.pool (Entropy.addEntropy overfull_pool byte)
      = (if (length (Entropy.pool overfull_pool) =? 256)%nat
         then tail (Entropy.pool overfull_pool) else Entropy.pool overfull_pool)
          ++ [JS.and byte 0xFF]
      /\ (length (Entropy.pool (Entropy.addEntropy overfull_pool byte)) <= 256)%nat.
Proof.
  split; [vm_compute; reflexivity |].
  exact (pool_never_exceeds_capacity overfull_pool
           (reachable_addEntropy_all _ _ Entropy.reach_create)).
Defined.

(** The 257 bytes 0, 1, ..., 256 given to a new pool leave it holding 1,
    ..., 255 and 0 (256 is stored as [256 & 0xFF]): the first byte given
    is the one dropped; a [getBytes] on the full pool, which adds 32
    samples of its own, leaves it full. *)
Example pool_full_evicts_oldest :
  Entropy.pool overfull_pool = map Z.of_nat (seq 1 255) ++ [0]
  /\ Entropy.pool (Entropy.addEntropy overfull_pool 7)
     = map Z.of_nat (seq 2 254) ++ [0; 7]
  /\ (exists bytes e',
        Entropy.getBytes overfull_pool 4
          {| Entropy.collectTiming := fun _ => 9; Entropy.collectMathRandom := fun _ => 8 |}
        = JS.Ok (bytes, e')
        /\ length bytes = 4%nat /\ length (Entropy.pool e') = 256%nat).
Proof.
  split; [vm_compute; reflexivity |]. split; [vm_compute; reflexivity |].
  eexists. eexists. split; [vm_compute; reflexivity |]. split; reflexivity.
Qed.

(** ** Hexadecimal text *)

Lemma byte_round_trip_all (b : Z) : byte b -> byte_round_trip b = true.
Proof.
  intros Hb.
  assert (Hall : forallb byte_round_trip (map Z.of_nat (seq 0 256)) = true)
    by (vm_compute; reflexivity).
  rewrite forallb_forall in Hall. apply Hall.
  rewrite <- (Z2Nat.id b) by (unfold byte in Hb; lia).
  apply in_map. apply in_seq. unfold byte in Hb. lia.
Qed.

Lemma append_empty_r (s : string) : String.append s EmptyString = s.
Proof. induction s as [| c s IH]; cbn; [reflexivity | rewrite IH; reflexivity]. Qed.

Lemma toHex_cons (b : Z) (bs : list Z) :
  Hex.toHex (b :: bs)
  = String.append (Hex.padStart (Hex.toString16 b) 2 "0") (Hex.toHex bs).
Proof.
  unfold Hex.toHex. cbn [map String.concat].
  destruct (map _ bs) as [| s ss] eqn:E.
  - cbn [String.concat]. rewrite append_empty_r. reflexivity.
  - reflexivity.
Qed.

Lemma toHex_cons_byte (b : Z) (bs : list Z) :
  byte b ->
  exists h l,
    Hex.toHex (b :: bs) = String h (String l (Hex.toHex bs))
    /\ JS.u8 (default 0 (Hex.parseInt16 (String h (String l EmptyString)))) = b.
Proof.
  intros Hb. pose proof (byte_round_trip_all b Hb) as H. unfold byte_round_trip in H.
  rewrite toHex_cons.
  destruct (Hex.padStart (Hex.toString16 b) 2 "0") as [| h [| l [| ? ?]]]; try discriminate H.
  exists h, l. split; [reflexivity |]. apply Z.eqb_eq. exact H.
Qed.

Lemma toHex_length (bs : list Z) :
  Forall byte bs -> String.length (Hex.toHex bs) = (2 * length bs)%nat.
Proof.
  induction 1 as [| b bs Hb _ IH]; [reflexivity |].
  destruct (toHex_cons_byte b bs Hb) as (h & l & -> & _).
  cbn [String.length length]. rewrite IH. lia.
Qed.

(** A loop that stores [f i] at each index [i] of a fresh array builds the
    list of the [f i]. *)
Lemma foldl_insert_map (f : nat -> Z) (n : nat) :
  foldl (fun bytes i => <[ i := f i ]> bytes) (replicate n 0) (seq 0 n)
  = map f (seq 0 n).
Proof.
  assert (H : forall k l, length l = n -> (k <= n)%nat ->
                foldl (fun bytes i => <[ i := f i ]> bytes) l (seq 0 k)
                = map f (seq 0 k) ++ drop k l).
  { induction k as [| k IH]; intros l Hl Hk.
    - cbn. rewrite drop_0. reflexivity.
    - rewrite seq_S, foldl_app, map_app. cbn [foldl map Nat.add].
      rewrite IH by lia.
      assert (Hlen : length (map f (seq 0 k)) = k) by (rewrite length_map, length_seq; reflexivity).
      replace k with (length (map f (seq 0 k)) + 0)%nat at 1 by lia.
      rewrite insert_app_r.
      destruct (drop k l) as [| x d] eqn:E.
      + apply (f_equal length) in E. rewrite length_drop in E. cbn in E. lia.
      + cbn [insert list_insert].
        assert (Hd : drop (S k) l = d).
        { replace (S k) with (k + 1)%nat by lia. rewrite <- drop_drop, E. reflexivity. }
        rewrite Hd, <- app_assoc. reflexivity. }
  rewrite (H n (replicate n 0)) by (rewrite ?length_replicate; lia).
  rewrite drop_ge by (rewrite length_replicate; lia).
  apply app_nil_r.
Qed.

Lemma fromHex_map (hex : string) :
  Hex.fromHex hex
  = map (fun i => JS.u8 (default 0 (Hex.parseInt16 (Hex.slice hex (i * 2) (i * 2 + 2)))))
        (seq 0 (String.length hex / 2)).
Proof. unfold Hex.fromHex. cbv zeta. apply foldl_insert_map. Qed.

Lemma slice_two (h l : ascii) (s : string) :
  Hex.slice (String h (String l s)) 0 2 = String h (String l EmptyString).
Proof. unfold Hex.slice. cbn. destruct s; reflexivity. Qed.

Lemma slice_shift (h l : ascii) (s : string) (i : nat) :
  Hex.slice (String h (String l s)) (S i * 2) (S i * 2 + 2) = Hex.slice s (i * 2) (i * 2 + 2).
Proof.
  unfold Hex.slice.
  replace (S i * 2 + 2 - S i * 2)%nat with 2%nat by lia.
  replace (i * 2 + 2 - i * 2)%nat with 2%nat by lia.
  reflexivity.
Qed.

(** C9. [fromHex(toHex(b))] is [b], for every byte sequence [b], the
    empty one included: same length, same elements. *)
Theorem fromHex_toHex (bytes : list Z) :
  Forall byte bytes -> Hex.fromHex (Hex.toHex bytes) = bytes.
Proof.
  intros Hb. rewrite fromHex_map, toHex_length by exact Hb.
  replace (2 * length bytes / 2)%nat with (length bytes)
    by (symmetry; rewrite Nat.mul_comm; apply Nat.div_mul; lia).
  induction Hb as [| b bs Hb Hbs IH]; [reflexivity |].
  destruct (toHex_cons_byte b bs Hb) as (h & l & -> & Hhl).
  cbn [length seq map]. rewrite slice_two, Hhl. f_equal.
  rewrite <- seq_shift, map_map. etransitivity; [| exact IH].
  apply map_ext. intros i. rewrite slice_shift. reflexivity.
Qed.

Lemma fromHex_toHex_witness :
  Hex.fromHex (Hex.toHex [0; 1; 255]) = [0; 1; 255]
  /\ Hex.fromHex (Hex.toHex []) = [].
Proof.
  split.
  - apply (fromHex_toHex [0; 1; 255]). repeat constructor; unfold byte; lia.
  - apply (fromHex_toHex []). constructor.
Defined.

(** The three cases of the test suite. *)
Example toHex_examples :
  Hex.toHex [0; 1; 255] = "0001ff"%string
  /\ Hex.toHex [] = ""%string
  /\ Hex.toHex [171] = "ab"%string
  /\ Hex.fromHex "0001ff" = [0; 1; 255].
Proof. repeat split; vm_compute; reflexivity. Qed.

(** ** Chi-square on a constant sample *)

Lemma stats_sum_defined (e : Q) (counts : list Z) (acc : Q) :
  ~ (e == 0)%Q ->
  exists s,
    foldl (fun acc c =>
             sum ← acc;
             t ← Stats.fdiv ((inject_Z c - e) ^ 2) e;
             Some (sum + t)%Q)
          (Some acc) counts = Some s.
Proof.
  intros He. revert acc. induction counts as [| c counts IH]; intros acc; cbn [foldl].
  - eauto.
  - cbn [mbind option_bind]. unfold Stats.fdiv at 2.
    destruct (Qeq_bool e 0) eqn:E; [apply Qeq_bool_iff in E; contradiction |].
    cbn [mbind option_bind]. apply IH.
Qed.

Section ConstantSample.

Variable Math_pow : Q -> Q -> option Q.
Variable Math_sqrt : Q -> option Q.
Variable Math_exp : Q -> Q.
Variable v : Q.

(** What is used of [Math.pow] and [Math.sqrt]: the cube root of a number
    that is not negative is a number, and the square root of a positive
    number is a positive number. *)
Hypothesis Math_pow_defined :
  forall x : Q, (0 <= x)%Q -> exists r, Math_pow x (1 / 3) = Some r.
Hypothesis Math_sqrt_pos :
  forall y : Q, (0 < y)%Q -> exists r, Math_sqrt y = Some r /\ (0 < r)%Q.

Lemma min_constant (n : nat) : foldl Statistics.min2 v (repeat v n) = v.
Proof.
  induction n as [| n IH]; [reflexivity |]. cbn [repeat foldl].
  unfold Statistics.min2 at 2. destruct (Qle_bool v v); exact IH.
Qed.

Lemma max_constant (n : nat) : foldl Statistics.max2 v (repeat v n) = v.
Proof.
  induction n as [| n IH]; [reflexivity |]. cbn [repeat foldl].
  unfold Statistics.max2 at 2. destruct (Qle_bool v v); exact IH.
Qed.

Lemma range_constant : Statistics.or_else (v - v) 1 = 1%Q.
Proof.
  unfold Statistics.or_else.
  assert (H : Qeq_bool (v - v) 0 = true) by (apply Qeq_bool_iff; ring).
  rewrite H. reflexivity.
Qed.

Lemma fdiv_nonzero (x y : Q) : ~ (y == 0)%Q -> Statistics.fdiv x y = Some (x / y)%Q.
Proof.
  intros H. unfold Statistics.fdiv.
  destruct (Qeq_bool y 0) eqn:E; [| reflexivity].
  apply Qeq_bool_iff in E. contradiction.
Qed.

Lemma bucket_constant (nb : nat) :
  (0 < nb)%nat ->
  Z.min (JS.Math_floor ((v - v) / 1 * inject_Z (Z.of_nat nb))) (Z.of_nat nb - 1) = 0.
Proof.
  intros Hnb. unfold JS.Math_floor.
  assert (H : ((v - v) / 1 * inject_Z (Z.of_nat nb) == inject_Z 0)%Q) by (unfold inject_Z at 2; field).
  rewrite (Qfloor_comp _ _ H), Qfloor_Z. lia.
Qed.

Lemma fill_constant (nb k : nat) (l : list Z) :
  (0 < nb)%nat ->
  foldl (fun acc value =>
           buckets ← acc;
           q ← Statistics.fdiv (value - v) 1;
           Some (Statistics.incr buckets
                   (Z.min (JS.Math_floor (q * inject_Z (Z.of_nat nb))) (Z.of_nat nb - 1))))
        (Some l) (repeat v k)
  = Some (Nat.iter k (fun l => Statistics.incr l 0) l).
Proof.
  intros Hnb. revert l. induction k as [| k IH]; intros l; [reflexivity |].
  cbn [repeat foldl]. cbn [mbind option_bind].
  rewrite fdiv_nonzero by discriminate. cbn [mbind option_bind].
  rewrite bucket_constant by exact Hnb. rewrite IH.
  rewrite Nat.iter_succ_r. reflexivity.
Qed.

Lemma incr_head (k : nat) (c : Z) (l : list Z) :
  Nat.iter k (fun l => Statistics.incr l 0) (c :: l) = (c + Z.of_nat k) :: l.
Proof.
  induction k as [| k IH].
  - cbn. f_equal. lia.
  - rewrite Nat.iter_succ, IH.
    change (Statistics.incr (c + Z.of_nat k :: l) 0) with ((c + Z.of_nat k + 1) :: l).
    f_equal. lia.
Qed.

Lemma sum_terms (e : Q) (l : list Z) (acc : Q) :
  ~ (e == 0)%Q ->
  foldl (fun acc observed =>
           sum ← acc;
           t ← Statistics.fdiv ((inject_Z observed - e) ^ 2) e;
           Some (sum + t)%Q)
        (Some acc) l
  = Some (foldl (fun sum observed => (sum + (inject_Z observed - e) ^ 2 / e)%Q) acc l).
Proof.
  intros He. revert acc. induction l as [| o l IH]; intros acc; [reflexivity |].
  cbn [foldl]. cbn [mbind option_bind]. rewrite fdiv_nonzero by exact He.
  cbn [mbind option_bind]. apply IH.
Qed.

Lemma square_nonneg (q : Q) : (0 <= q * q)%Q.
Proof. destruct q as [a b]. unfold Qle, Qmult. cbn [Qnum Qden]. nia. Qed.

Lemma sum_nonneg (e : Q) (l : list Z) (acc : Q) :
  (0 < e)%Q -> (0 <= acc)%Q ->
  (0 <= foldl (fun sum observed => (sum + (inject_Z observed - e) ^ 2 / e)%Q) acc l)%Q.
Proof.
  intros He. revert acc. induction l as [| o l IH]; intros acc Hacc; [exact Hacc |].
  cbn [foldl]. apply IH.
  rewrite <- (Qplus_0_r 0). apply Qplus_le_compat; [exact Hacc |].
  apply Qle_shift_div_l; [exact He |]. rewrite Qmult_0_l.
  change ((inject_Z o - e) ^ 2)%Q with ((inject_Z o - e) * (inject_Z o - e))%Q.
  apply square_nonneg.
Qed.

Lemma pos_nonzero (q : Q) : (0 < q)%Q -> ~ (q == 0)%Q.
Proof. intros H E. rewrite E in H. exact (Qlt_irrefl 0 H). Qed.

(** [normalCDF] divides by [Math.sqrt(2)] and by [1 + p |x| / sqrt(2)],
    which is at least 1. *)
Lemma normalCDF_defined (x : Q) :
  exists y, Statistics.normalCDF Math_sqrt Math_exp x = Some y.
Proof.
  unfold Statistics.normalCDF. cbv zeta.
  destruct (Math_sqrt_pos 2 ltac:(reflexivity)) as (root & -> & H2).
  cbn [mbind option_bind].
  rewrite (fdiv_nonzero (Qabs x) root) by (apply pos_nonzero; exact H2).
  cbn [mbind option_bind].
  assert (Hx : (0 <= Qabs x / root)%Q).
  { apply Qle_shift_div_l; [exact H2 |]. rewrite Qmult_0_l. apply Qabs_nonneg. }
  rewrite (fdiv_nonzero 1 (1 + _)). { cbn [mbind option_bind]. eauto. }
  apply pos_nonzero. apply Qlt_le_trans with (y := 1%Q); [reflexivity |].
  rewrite <- (Qplus_0_r 1) at 1. apply Qplus_le_compat; [apply Qle_refl |].
  apply Qmult_le_0_compat; [discriminate | exact Hx].
Qed.

(** [chiSquarePValue] on a statistic that is not negative: it divides by
    [df], by 3, twice by [9 * df] and by the root of [2 / (9 * df)], all
    positive where [df] is, and takes the cube root of a number that is
    not negative; for [df <= 0] it returns 1 and computes nothing. *)
Lemma chiSquarePValue_defined (chiSquare : Q) (df : Z) :
  (0 <= chiSquare)%Q ->
  (exists p, Statistics.chiSquarePValue Math_pow Math_sqrt Math_exp chiSquare df = Some p)
  /\ (df <= 0 ->
      Statistics.chiSquarePValue Math_pow Math_sqrt Math_exp chiSquare df = Some 1%Q).
Proof.
  intros Hchi. unfold Statistics.chiSquarePValue.
  destruct (Z.leb_spec df 0) as [Hle | Hpos]; [split; eauto | split; [| lia]].
  assert (Hdf : (0 < inject_Z df)%Q) by (change 0%Q with (inject_Z 0); rewrite <- Zlt_Qlt; lia).
  assert (H9 : (0 < 9 * inject_Z df)%Q).
  { rewrite <- (Qmult_0_r 9). apply Qmult_lt_l; [reflexivity | exact Hdf]. }
  assert (Hq : (0 < 2 / (9 * inject_Z df))%Q).
  { apply Qlt_shift_div_l; [exact H9 |]. rewrite Qmult_0_l. reflexivity. }
  assert (Hx : (0 <= chiSquare / inject_Z df)%Q).
  { apply Qle_shift_div_l; [exact Hdf |]. rewrite Qmult_0_l. exact Hchi. }
  rewrite (fdiv_nonzero chiSquare (inject_Z df)) by (apply pos_nonzero; exact Hdf).
  cbn [mbind option_bind].
  rewrite (fdiv_nonzero 1 3) by discriminate. cbn [mbind option_bind].
  destruct (Math_pow_defined (chiSquare / inject_Z df) Hx) as (power & ->).
  cbn [mbind option_bind].
  rewrite !(fdiv_nonzero 2 (9 * inject_Z df)) by (apply pos_nonzero; exact H9).
  cbn [mbind option_bind].
  destruct (Math_sqrt_pos (2 / (9 * inject_Z df)) Hq) as (denom & -> & Hdenom).
  cbn [mbind option_bind].
  rewrite (fdiv_nonzero _ denom) by (apply pos_nonzero; exact Hdenom).
  cbn [mbind option_bind].
  match goal with |- context [Statistics.normalCDF _ _ ?z] =>
    destruct (normalCDF_defined z) as (y & ->) end.
  cbn [mbind option_bind]. eauto.
Qed.

(** C8. On a constant, non-empty sample [chiSquareUniformity] divides by
    no zero and takes no root or power that is not a number, in the
    chi-square sum and in the p-value alike: minimum and maximum coincide,
    [max - min || 1] is 1, every value falls into bucket 0, [expected] is
    positive, and the call throws nothing and returns its record: the
    counts, a statistic that is not negative, the degrees of freedom, a
    p-value and the verdict [pValue > 0.05], for every number of buckets
    an array can have.  With one bucket the p-value is 1 and the verdict
    [true].  [Stats.chiSquare] of [lib/entropy.ts], which has no range to
    substitute, returns a statistic on the same sample as well. *)
Theorem chiSquareUniformity_constant (n nb : nat) :
  (0 < nb)%nat -> Z.of_nat nb <= 2 ^ 32 - 1 ->
  Statistics.Math_min (repeat v (S n)) = Some v
  /\ Statistics.Math_max (repeat v (S n)) = Some v
  /\ Statistics.or_else (v - v) 1 = 1%Q
  /\ (exists r,
      Statistics.chiSquareUniformity Math_pow Math_sqrt Math_exp (repeat v (S n)) nb
      = JS.Ok (Some r)
      /\ Statistics.buckets r = Z.of_nat (S n) :: replicate (nb - 1) 0
      /\ (0 < Statistics.expected r)%Q
      /\ (0 <= Statistics.statistic r)%Q
      /\ Statistics.degreesOfFreedom r = Z.of_nat nb - 1
      /\ Statistics.chiSquarePValue Math_pow Math_sqrt Math_exp
           (Statistics.statistic r) (Statistics.degreesOfFreedom r)
         = Some (Statistics.pValue r)
      /\ Statistics.isRandom r = negb (Qle_bool (Statistics.pValue r) 0.05)
      /\ (nb = 1%nat -> Statistics.pValue r = 1%Q /\ Statistics.isRandom r = true))
  /\ exists s, Stats.statistic (Stats.chiSquare (repeat v (S n)) nb) = Some s.
Proof.
  intros Hnb Hmax32.
  assert (Hmin : Statistics.Math_min (repeat v (S n)) = Some v)
    by (cbn [repeat Statistics.Math_min]; rewrite min_constant; reflexivity).
  assert (Hmax : Statistics.Math_max (repeat v (S n)) = Some v)
    by (cbn [repeat Statistics.Math_max]; rewrite max_constant; reflexivity).
  split; [exact Hmin |]. split; [exact Hmax |]. split; [exact range_constant |].
  split.
  2: { unfold Stats.chiSquare. cbv zeta. cbn [Stats.statistic].
       apply stats_sum_defined. rewrite repeat_length.
       unfold Qeq, Qdiv, Qmult, Qinv, inject_Z. cbn [Qnum Qden].
       destruct (Z.of_nat nb) as [| p | p] eqn:E; [lia | | lia].
       cbn [Qnum Qden]. lia. }
  set (N := inject_Z (Z.of_nat (S n))). set (B := inject_Z (Z.of_nat nb)).
  assert (HN : (0 < N)%Q).
  { unfold N. change 0%Q with (inject_Z 0). rewrite <- Zlt_Qlt. lia. }
  assert (HB : (0 < B)%Q).
  { unfold B. change 0%Q with (inject_Z 0). rewrite <- Zlt_Qlt. lia. }
  assert (He : (0 < N / B)%Q).
  { apply Qlt_shift_div_l; [exact HB |]. rewrite Qmult_0_l. exact HN. }
  unfold Statistics.chiSquareUniformity, JS.new_Array.
  destruct (Z.ltb_spec (2 ^ 32 - 1) (Z.of_nat nb)); [lia |].
  cbn [mbind JS.result_bind]. unfold mret at 1, JS.result_ret.
  rewrite Hmin, Hmax. cbn [mbind option_bind]. rewrite range_constant.
  rewrite fill_constant by exact Hnb. cbn [mbind option_bind].
  destruct nb as [| nb']; [lia |]. cbn [replicate]. rewrite incr_head.
  fold N B. rewrite repeat_length. fold N.
  rewrite (fdiv_nonzero N B) by (apply pos_nonzero; exact HB). cbn [mbind option_bind].
  rewrite sum_terms by (apply pos_nonzero; exact He). cbn [mbind option_bind].
  match goal with |- context [Statistics.chiSquarePValue _ _ _ ?st ?df] =>
    destruct (chiSquarePValue_defined st df) as ((p & Hp) & Hp1);
      [apply sum_nonneg; [exact He | apply Qle_refl] | rewrite Hp]
  end.
  cbn [mbind option_bind].
  eexists. split; [reflexivity |].
  cbn [Statistics.buckets Statistics.expected Statistics.statistic
       Statistics.degreesOfFreedom Statistics.isRandom Statistics.pValue].
  split; [replace (S nb' - 1)%nat with nb' by lia; f_equal; lia |].
  split; [exact He |].
  split; [apply sum_nonneg; [exact He | apply Qle_refl] |].
  split; [reflexivity |].
  split; [exact Hp |].
  split; [reflexivity |].
  intros H1. assert (Hone : Some p = Some 1%Q) by (rewrite <- Hp; apply Hp1; lia).
  injection Hone as ->. split; reflexivity.
Qed.

End ConstantSample.

Lemma chiSquareUniformity_constant_witness :
  exists r,
    Statistics.chiSquareUniformity (fun x _ => Some x) (fun y => Some y) (fun _ => 1%Q)
      [5; 5; 5; 5; 5]%Q 10 = JS.Ok (Some r)
    /\ Statistics.buckets r = [5; 0; 0; 0; 0; 0; 0; 0; 0; 0]
    /\ (0 < Statistics.expected r)%Q
    /\ Statistics.degreesOfFreedom r = 9.
Proof.
  destruct (chiSquareUniformity_constant (fun x _ => Some x) (fun y => Some y)
              (fun _ => 1%Q) 5%Q
              (fun x _ => ex_intro _ x eq_refl)
              (fun y H => ex_intro _ y (conj eq_refl H)) 4 10 ltac:(lia) ltac:(cbn; lia))
    as (_ & _ & _ & (r & Hr & Hb & He & _ & Hd & _) & _).
  exists r. split; [exact Hr |]. split; [exact Hb |]. split; [exact He | exact Hd].
Defined.

(** ** The composite assessor and the order of its input *)

Lemma foldl_permutation {A B : Type} (f : B -> A -> B) :
  (forall b x y, f (f b x) y = f (f b y) x) ->
  forall l l', Permutation l l' -> forall b, foldl f b l = foldl f b l'.
Proof.
  intros Hf l l' Hp. induction Hp as [| x l l' _ IH | x y l | l l' l'' _ IH1 _ IH2]; intros b.
  - reflexivity.
  - cbn [foldl]. apply IH.
  - cbn [foldl]. rewrite Hf. reflexivity.
  - rewrite IH1. apply IH2.
Qed.

Lemma incr_comm (l : list Z) (i j : Z) :
  Stats.incr (Stats.incr l i) j = Stats.incr (Stats.incr l j) i.
Proof.
  unfold Stats.incr.
  destruct (i <? 0) eqn:Hi, (j <? 0) eqn:Hj; rewrite ?Hi, ?Hj; try reflexivity.
  destruct (decide (Z.to_nat i = Z.to_nat j)) as [-> | Hne]; [reflexivity |].
  rewrite !rd_insert_ne by congruence.
  apply list_insert_insert_ne. congruence.
Qed.

Lemma histogram_permutation (b b' : list Z) :
  Permutation b b' -> Stats.histogram b = Stats.histogram b'.
Proof. intros Hp. apply foldl_permutation; [apply incr_comm | exact Hp]. Qed.

Lemma entropy_permutation (log2 : Q -> Q) (b b' : list Z) :
  Permutation b b' -> Stats.entropy log2 b = Stats.entropy log2 b'.
Proof.
  intros Hp. unfold Stats.entropy.
  rewrite (histogram_permutation b b' Hp), (Permutation_length Hp). reflexivity.
Qed.

Lemma counts_as_fold (buckets : nat) (data : list Q) (counts : list Z) :
  foldl (fun counts v => Stats.incr counts (Stats.bucket_of buckets v)) counts data
  = foldl Stats.incr counts (map (Stats.bucket_of buckets) data).
Proof.
  revert counts. induction data as [| v data IH]; intros counts; [reflexivity |].
  cbn [map foldl]. apply IH.
Qed.

Lemma chiSquare_permutation (data data' : list Q) (buckets : nat) :
  Permutation data data' -> Stats.chiSquare data buckets = Stats.chiSquare data' buckets.
Proof.
  intros Hp. unfold Stats.chiSquare. cbv zeta.
  rewrite !counts_as_fold.
  rewrite (foldl_permutation Stats.incr incr_comm _ _
             (Permutation_map (Stats.bucket_of buckets) Hp)).
  rewrite (Permutation_length Hp). reflexivity.
Qed.

(** C7, as the code has it.  The chi-square test and the byte entropy
    see the sample as a multiset, so a permutation leaves them as they
    are; the runs test reads the sample in order, and [assess] gives a
    permuted sample the same score and label whenever the runs test gives
    it the same verdict. *)
Theorem assess_permutation (log2 : Q -> Q) (data data' : list Q) :
  Permutation data data' ->
  Stats.chiSquare data 10 = Stats.chiSquare data' 10
  /\ Stats.entropy log2 (map (fun d => JS.u8 (JS.Math_floor (d * 256))) data)
     = Stats.entropy log2 (map (fun d => JS.u8 (JS.Math_floor (d * 256))) data')
  /\ (Stats.runs_pass (Stats.runsTest data) = Stats.runs_pass (Stats.runsTest data') ->
      Stats.assess log2 data = Stats.assess log2 data').
Proof.
  intros Hp.
  assert (Hchi := chiSquare_permutation data data' 10 Hp).
  assert (Hent := entropy_permutation log2 _ _
                    (Permutation_map (fun d => JS.u8 (JS.Math_floor (d * 256))) Hp)).
  split; [exact Hchi |]. split; [exact Hent |].
  intros Hruns. unfold Stats.assess. cbv zeta.
  rewrite Hchi, Hent, Hruns. reflexivity.
Qed.

Lemma dealt_permutation : Permutation ascending dealt.
Proof.
  apply Permutation_map. symmetry. apply NoDup_Permutation_bis.
  - apply NoDup_ListNoDup. apply (bool_decide_unpack _). vm_compute. exact I.
  - vm_compute. lia.
  - intros k Hk. apply in_seq.
    assert (H : Forall (fun k => (k < 256)%nat) dealt_order)
      by (apply (bool_decide_unpack _); vm_compute; exact I).
    rewrite Forall_forall in H. specialize (H k). rewrite list_elem_of_In in H.
    specialize (H Hk). lia.
Qed.

Lemma assess_permutation_witness :
  Stats.chiSquare ascending 10 = Stats.chiSquare dealt 10.
Proof.
  exact (proj1 (assess_permutation (fun _ => 0%Q) ascending dealt dealt_permutation)).
Defined.

(** C7, as stated, fails.  The 256 samples [k / 256] in ascending order
    fail the runs test (2 runs where 129 are expected); dealt out two low,
    two high, they pass it (128 runs).  Whatever [Math.log2] is, the
    second order scores 33 points more than the first and gets another
    label (with the real [log2]: 67, fair, against 100, excellent). *)
Lemma assess_depends_on_order :
  Permutation ascending dealt
  /\ forall log2 : Q -> Q,
      fst (Stats.assess log2 dealt) = fst (Stats.assess log2 ascending) + 33
      /\ snd (Stats.assess log2 dealt) <> snd (Stats.assess log2 ascending).
Proof.
  split; [exact dealt_permutation |]. intros log2.
  assert (Hchi := chiSquare_permutation ascending dealt 10 dealt_permutation).
  assert (Hent := entropy_permutation log2 _ _
                    (Permutation_map (fun d => JS.u8 (JS.Math_floor (d * 256)))
                       dealt_permutation)).
  unfold Stats.assess. cbv zeta. rewrite <- Hchi, <- Hent.
  assert (H1 : Stats.chi_pass (Stats.chiSquare ascending 10) = true) by (vm_compute; reflexivity).
  assert (H2 : Stats.runs_pass (Stats.runsTest ascending) = false) by (vm_compute; reflexivity).
  assert (H3 : Stats.runs_pass (Stats.runsTest dealt) = true) by (vm_compute; reflexivity).
  rewrite H1, H2, H3.
  destruct (Stats.gt _ (75 # 10)); [cbn; split; [reflexivity | discriminate] |].
  destruct (Stats.gt _ (65 # 10)); cbn; (split; [reflexivity | discriminate]).
Qed.

(** ** The range of the LCG *)

Lemma div_unit_interval (s m : Z) : 0 <= s < m -> (0 <= JS.div s m /\ JS.div s m < 1)%Q.
Proof.
  intros H. unfold JS.div.
  assert (Hm : (inject_Z 0 < inject_Z m)%Q) by (rewrite <- Zlt_Qlt; lia).
  split.
  - apply Qle_shift_div_l; [exact Hm |]. rewrite Qmult_0_l.
    change 0%Q with (inject_Z 0). rewrite <- Zle_Qle. lia.
  - apply Qlt_shift_div_r; [exact Hm |]. rewrite Qmult_1_l, <- Zlt_Qlt. lia.
Qed.

Lemma floor_scaled (x : Q) (k : Z) :
  (0 <= x)%Q -> (x < 1)%Q -> 0 < k -> 0 <= JS.Math_floor (x * inject_Z k) < k.
Proof.
  intros H0 H1 Hk. unfold JS.Math_floor.
  assert (Hk' : (inject_Z 0 < inject_Z k)%Q) by (rewrite <- Zlt_Qlt; lia).
  split.
  - rewrite <- (Qfloor_Z 0). apply Qfloor_resp_le.
    apply Qmult_le_0_compat; [exact H0 | apply Qlt_le_weak; exact Hk'].
  - rewrite Zlt_Qlt. eapply Qle_lt_trans; [apply Qfloor_le |].
    rewrite <- (Qmult_1_l (inject_Z k)) at 2.
    apply Qmult_lt_compat_r; assumption.
Qed.

(** Whatever its state, [LCG.next()] of [lib/entropy.ts] is in [0,1) and
    [nextInt(k)] is in [0,k) for [k > 0]: the new state is below 2^32 and
    it is divided by 2^32. *)
Theorem lcg_range (g : LCG.t) (k : Z) :
  0 < k ->
  exists x v g',
    next (GLCG g) = JS.Ok (x, GLCG g')
    /\ nextInt (GLCG g) k = JS.Ok (v, GLCG g')
    /\ (0 <= x)%Q /\ (x < 1)%Q /\ 0 <= v < k.
Proof.
  intros Hk.
  set (s := JS.ToUint32 (JS.add (JS.mul LCG.a (LCG.state g)) LCG.c)).
  assert (Hs : 0 <= s < LCG.m) by (pose proof (ToUint32_range (JS.add (JS.mul LCG.a (LCG.state g)) LCG.c)) as H; exact H).
  destruct (div_unit_interval s LCG.m Hs) as (H0 & H1).
  exists (JS.div s LCG.m), (JS.Math_floor (JS.div s LCG.m * inject_Z k)), {| LCG.state := s |}.
  split; [reflexivity |]. split; [reflexivity |].
  split; [exact H0 |]. split; [exact H1 |].
  apply floor_scaled; assumption.
Qed.

Lemma lcg_range_witness :
  exists x v g',
    next (GLCG {| LCG.state := 12345 |}) = JS.Ok (x, GLCG g')
    /\ nextInt (GLCG {| LCG.state := 12345 |}) 10 = JS.Ok (v, GLCG g')
    /\ (0 <= x)%Q /\ (x < 1)%Q /\ 0 <= v < 10.
Proof. apply (lcg_range {| LCG.state := 12345 |} 10). lia. Defined.

(** The remainder [%] of [src/modules/complexity.ts] keeps the sign of a
    negative state, which a missing seed can produce
    ([Date.now() & 0xFFFFFFFF] is a signed word): from state -1000 its
    [next()] is negative. *)
Example complexity_lcg_negative :
  ComplexityLCG.next {| LCG.state := -1000 |}
  = (JS.div (-650620777) (2 ^ 32), {| LCG.state := -650620777 |}).
Proof. reflexivity. Qed.

(** ** [Stats.chiSquare] on a non-empty sample *)



Lemma ToInt32_byte (x : Z) : byte x -> JS.ToInt32 x = x.
Proof. unfold byte. intros H. apply ToInt32_small. lia. Qed.

Lemma lxor_byte (x y : Z) : byte x -> byte y -> byte (Z.lxor x y).
Proof.
  unfold byte. intros Hx Hy.
  assert (H : Z.lxor x y = Z.lxor x y mod 2 ^ 8).
  { apply Z.bits_inj'. intros i Hi.
    rewrite Z.testbit_mod_pow2, Z.lxor_spec by lia.
    destruct (Z.ltb_spec i 8); [reflexivity |].
    rewrite <- (Z.mod_small x (2 ^ 8)), <- (Z.mod_small y (2 ^ 8)) by lia.
    rewrite !Z.testbit_mod_pow2 by lia.
    destruct (Z.ltb_spec i 8); [lia | reflexivity]. }
  rewrite H. apply Z.mod_pos_bound. lia.
Qed.

Lemma lor_byte (x y : Z) : byte x -> byte y -> byte (Z.lor x y).
Proof.
  unfold byte. intros Hx Hy.
  assert (H : Z.lor x y = Z.lor x y mod 2 ^ 8).
  { apply Z.bits_inj'. intros i Hi.
    rewrite Z.testbit_mod_pow2, Z.lor_spec by lia.
    destruct (Z.ltb_spec i 8); [reflexivity |].
    rewrite <- (Z.mod_small x (2 ^ 8)), <- (Z.mod_small y (2 ^ 8)) by lia.
    rewrite !Z.testbit_mod_pow2 by lia.
    destruct (Z.ltb_spec i 8); [lia | reflexivity]. }
  rewrite H. apply Z.mod_pos_bound. lia.
Qed.

Lemma xor_byte (x y : Z) : byte x -> byte y -> JS.xor x y = Z.lxor x y.
Proof.
  intros Hx Hy. unfold JS.xor. rewrite (ToInt32_byte x Hx), (ToInt32_byte y Hy).
  apply ToInt32_byte, lxor_byte; assumption.
Qed.

Lemma or_byte (x y : Z) : byte x -> byte y -> JS.or x y = Z.lor x y.
Proof.
  intros Hx Hy. unfold JS.or. rewrite (ToInt32_byte x Hx), (ToInt32_byte y Hy).
  apply ToInt32_byte, lor_byte; assumption.
Qed.

Lemma rd_byte (l : list Z) (i : nat) : Forall byte l -> byte (JS.rd l i).
Proof.
  intros H. unfold JS.rd. destruct (l !! i) as [x |] eqn:E; cbn.
  - eapply Forall_lookup_1; eassumption.
  - unfold byte. lia.
Qed.

(** The accumulator of [secureCompare] after the first [n] positions is a
    byte, and it is zero exactly when the two arrays agree there. *)
Lemma secureCompare_diff (a b : list Z) (n : nat) :
  Forall byte a -> Forall byte b ->
  let diff := foldl (fun diff i => JS.or diff (JS.xor (JS.rd a i) (JS.rd b i)))
                    0 (seq 0 n) in
  byte diff /\ (diff = 0 <-> forall i, (i < n)%nat -> JS.rd a i = JS.rd b i).
Proof.
  intros Ha Hb. induction n as [| n IH].
  - cbn. split; [unfold byte; lia |]. split; [intros _ i Hi; lia | reflexivity].
  - rewrite seq_S, foldl_app. cbn [foldl Nat.add].
    destruct IH as [Hd IH].
    set (d := foldl _ 0 (seq 0 n)) in *.
    pose proof (rd_byte a n Ha) as Han. pose proof (rd_byte b n Hb) as Hbn.
    rewrite xor_byte by assumption.
    pose proof (lxor_byte _ _ Han Hbn) as Hx.
    rewrite or_byte by assumption.
    split; [apply lor_byte; assumption |].
    rewrite Z.lor_eq_0_iff, Z.lxor_eq_0_iff, IH.
    split.
    + intros [H1 H2] i Hi. destruct (Nat.eq_dec i n) as [-> | Hne]; [exact H2 | apply H1; lia].
    + intros H. split; [intros i Hi; apply H; lia | apply H; lia].
Qed.

Lemma rd_ext (a b : list Z) :
  length a = length b -> (forall i, (i < length a)%nat -> JS.rd a i = JS.rd b i) -> a = b.
Proof.
  intros Hl H. apply list_eq. intros i.
  destruct (Nat.lt_ge_cases i (length a)) as [Hi | Hi].
  - specialize (H i Hi). unfold JS.rd in H.
    destruct (lookup_lt_is_Some_2 a i Hi) as [x Hx].
    destruct (lookup_lt_is_Some_2 b i ltac:(lia)) as [y Hy].
    rewrite Hx, Hy in *. cbn in H. congruence.
  - rewrite !lookup_ge_None_2 by lia. reflexivity.
Qed.

(** [secureCompare(a, b)] is [true] exactly when the two byte arrays are
    equal: arrays of different lengths compare unequal, and on arrays of
    one length the or of the byte-wise xors is zero exactly when every
    byte agrees. *)
Theorem secureCompare_eq (a b : list Z) :
  Forall byte a -> Forall byte b ->
  secureCompare a b = true <-> a = b.
Proof.
  intros Ha Hb. unfold secureCompare.
  destruct (Nat.eqb_spec (length a) (length b)) as [Hl | Hl]; cbn [negb].
  - destruct (secureCompare_diff a b (length a) Ha Hb) as [_ Hd]. cbv zeta in Hd.
    rewrite Z.eqb_eq, Hd. split.
    + intros H. apply rd_ext; assumption.
    + intros -> i _. reflexivity.
  - split; [discriminate | intros ->; contradiction].
Qed.

Lemma secureCompare_eq_witness :
  secureCompare [1; 2; 3] [1; 2; 3] = true <-> [1; 2; 3] = [1; 2; 3].
Proof.
  apply secureCompare_eq; repeat constructor; unfold byte; lia.
Defined.

Lemma fill_length (fill : nat -> Z) (l : list nat) (bytes : list Z) :
  length (foldl (fun bytes i => <[ i := JS.u8 (fill i) ]> bytes) bytes l) = length bytes.
Proof.
  revert bytes. induction l as [| i l IH]; intros bytes; cbn [foldl]; [reflexivity |].
  rewrite IH. apply length_insert.
Qed.

Lemma randomBytes_returns (env : randomness) (n : nat) :
  Z.of_nat n <= 2 ^ 53 - 1 ->
  exists bytes, randomBytes env (Z.of_nat n) = JS.Ok bytes /\ length bytes = n.
Proof.
  intros Hn.
  destruct env as [fill | pool_bytes now14 now15]; unfold randomBytes.
  - rewrite new_array_Ok by lia.
    cbn [mbind JS.result_bind mret JS.result_ret]. eexists. split; [reflexivity |].
    rewrite fill_length, length_replicate. apply Nat2Z.id.
  - unfold ChaCha20.nextBytes. rewrite new_array_Ok by lia.
    cbn [mbind JS.result_bind mret JS.result_ret]. eexists. split; [reflexivity |].
    rewrite chacha_nextBytes_step_length. cbn [fst].
    rewrite Nat2Z.id. apply length_replicate.
Qed.

Lemma uint32_of_bytes_word (bytes : list Z) : word (uint32_of_bytes bytes).
Proof. unfold uint32_of_bytes. rewrite ushr_0. apply ToUint32_range. Qed.

(** [randomInt(max)] never throws.  For [max > 0] it returns an integer of
    [[0, max)], for [max < 0] one of [[0, -max)] (the remainder takes the
    sign of the dividend, which is not negative), and for [max = 0] it
    returns [NaN]. *)
Theorem randomInt_range (env : randomness) (max : Z) :
  (max = 0 -> randomInt env max = JS.Ok None)
  /\ (max <> 0 -> exists v, randomInt env max = JS.Ok (Some v) /\ 0 <= v < Z.abs max).
Proof.
  destruct (randomBytes_returns env 4 ltac:(cbn; lia)) as (bytes & Hb & _).
  change (Z.of_nat 4) with 4 in Hb.
  unfold randomInt. rewrite Hb. cbn [mbind JS.result_bind mret JS.result_ret].
  split.
  - intros ->. reflexivity.
  - intros Hm. destruct (Z.eqb_spec max 0); [contradiction |].
    eexists. split; [reflexivity |].
    pose proof (uint32_of_bytes_word bytes) as Hw. unfold word in Hw.
    unfold JS.rem. split.
    + apply Z.rem_nonneg; lia.
    + rewrite <- (Z.abs_eq (Z.rem _ _)) by (apply Z.rem_nonneg; lia).
      apply Z.rem_bound_abs. exact Hm.
Qed.

Lemma swap_permutation {T : Type} (array : list T) (i j : nat) :
  (i < length array)%nat -> (j < length array)%nat ->
  exists l, swap array i j = Some l /\ l ≡ₚ array.
Proof.
  intros Hi Hj. unfold swap.
  destruct (lookup_lt_is_Some_2 array j Hj) as [x Hx].
  destruct (lookup_lt_is_Some_2 array i Hi) as [y Hy].
  rewrite Hx, Hy. cbn [mbind option_bind]. eexists. split; [reflexivity |].
  destruct (Nat.eq_dec i j) as [-> | Hne].
  - rewrite list_insert_insert_eq. assert (x = y) as -> by congruence.
    rewrite list_insert_id by exact Hy. reflexivity.
  - symmetry. apply Permutation_inj. split.
    + rewrite !length_insert. reflexivity.
    + exists (fun k => if Nat.eq_dec k i then j else if Nat.eq_dec k j then i else k).
      split.
      * intros a b. repeat destruct (Nat.eq_dec _ _); intros; subst; congruence.
      * intros k. destruct (Nat.eq_dec k i) as [-> | Hki].
        { rewrite list_lookup_insert_eq by (rewrite length_insert; exact Hj). exact Hy. }
        destruct (Nat.eq_dec k j) as [-> | Hkj].
        { rewrite list_lookup_insert_ne, list_lookup_insert_eq by (try exact Hi; congruence).
          exact Hx. }
        rewrite !list_lookup_insert_ne by congruence. reflexivity.
Qed.

Lemma shuffle_steps {T : Type} (env : nat -> randomness) (l : list nat) (array : list T) :
  Forall (fun i => i < length array)%nat l ->
  exists array', foldl (shuffle_step env) (Some array) l = Some array' /\ array' ≡ₚ array.
Proof.
  revert array. induction l as [| i l IH]; intros array Hl; cbn [foldl].
  - eauto.
  - apply Forall_cons in Hl. destruct Hl as [Hi Hl].
    destruct (randomInt_range (env i) (Z.of_nat i + 1)) as [_ H].
    destruct (H ltac:(lia)) as (j & Hj & Hr).
    unfold shuffle_step at 2. cbn [mbind option_bind]. rewrite Hj.
    destruct (Z.ltb_spec j 0); [lia |].
    destruct (swap_permutation array i (Z.to_nat j) Hi ltac:(lia)) as (a1 & Hs & Hp).
    rewrite Hs.
    destruct (IH a1) as (a2 & Hf & Hp2).
    { apply Permutation_length in Hp. rewrite Hp. exact Hl. }
    exists a2. split; [exact Hf | etransitivity; eassumption].
Qed.

(** [shuffle(array)] meets no exception and no index outside the array,
    and what it returns is a permutation of the array it was given,
    whatever the random bytes are. *)
Theorem shuffle_permutation {T : Type} (env : nat -> randomness) (array : list T) :
  exists array', shuffle env array = Some array' /\ array' ≡ₚ array.
Proof.
  unfold shuffle. apply shuffle_steps.
  apply Forall_forall. intros i Hi. apply list_elem_of_In, in_rev, in_seq in Hi. lia.
Qed.

(** [pick(array)] on a non-empty array returns one of its elements; on the
    empty array it returns [undefined]. *)
Theorem pick_member {T : Type} (env : randomness) (array : list T) :
  (array = [] -> pick env array = JS.Ok None)
  /\ (array <> [] -> exists x, pick env array = JS.Ok (Some x) /\ x ∈ array).
Proof.
  unfold pick.
  destruct (randomInt_range env (Z.of_nat (length array))) as [H0 H1].
  split.
  - intros ->. rewrite H0 by reflexivity. reflexivity.
  - intros Hne. destruct array as [| a array]; [contradiction |].
    destruct (H1 ltac:(cbn [length]; lia)) as (v & Hv & Hr).
    rewrite Hv. cbn [mbind JS.result_bind mret JS.result_ret].
    destruct (Z.ltb_spec v 0); [lia |].
    destruct (lookup_lt_is_Some_2 (a :: array) (Z.to_nat v) ltac:(lia)) as [x Hx].
    exists x. rewrite Hx. split; [reflexivity |].
    eapply list_elem_of_lookup_2. exact Hx.
Qed.

Lemma div_closed_unit_interval (s m : Z) : 0 <= s <= m -> 0 < m -> (0 <= JS.div s m /\ JS.div s m <= 1)%Q.
Proof.
  intros H Hm0. unfold JS.div.
  assert (Hm : (inject_Z 0 < inject_Z m)%Q) by (rewrite <- Zlt_Qlt; lia).
  split.
  - apply Qle_shift_div_l; [exact Hm |]. rewrite Qmult_0_l.
    change 0%Q with (inject_Z 0). rewrite <- Zle_Qle. lia.
  - apply Qle_shift_div_r; [exact Hm |]. rewrite Qmult_1_l, <- Zle_Qle. lia.
Qed.

(** [random()] returns a value of the closed interval [[0, 1]], and it
    does return 1, when the four random bytes are all 255: the 32-bit
    value is divided by [0xFFFFFFFF], not by 2^32. *)
Theorem random_closed_interval (env : randomness) :
  (exists x, random env = JS.Ok x /\ (0 <= x)%Q /\ (x <= 1)%Q)
  /\ exists x, random (WebCrypto (fun _ => 255)) = JS.Ok x /\ (x == 1)%Q.
Proof.
  split.
  - destruct (randomBytes_returns env 4 ltac:(cbn; lia)) as (bytes & Hb & _).
    change (Z.of_nat 4) with 4 in Hb.
    unfold random. rewrite Hb. cbn [mbind JS.result_bind mret JS.result_ret].
    eexists. split; [reflexivity |].
    pose proof (uint32_of_bytes_word bytes) as Hw. unfold word in Hw.
    apply div_closed_unit_interval; lia.
  - eexists. split; [vm_compute; reflexivity | reflexivity].
Qed.

Lemma or_low (a b : Z) :
  JS.ToUint32 (JS.or a b) = Z.lor (JS.ToUint32 a) (JS.ToUint32 b).
Proof.
  unfold JS.or. rewrite ToUint32_ToInt32. apply Z.bits_inj'. intros i Hi.
  rewrite ToUint32_testbit, !Z.lor_spec, !ToUint32_testbit.
  destruct (Z.ltb_spec i 32); [| reflexivity].
  rewrite !ToInt32_testbit by lia. reflexivity.
Qed.

Lemma shl_low (x n : Z) :
  0 <= n < 32 -> JS.ToUint32 (JS.shl x n) = JS.ToUint32 (Z.shiftl (JS.ToUint32 x) n).
Proof.
  intros Hn. unfold JS.shl. rewrite ToUint32_ToInt32, (Z.mod_small n 32) by lia.
  apply Z.bits_inj'. intros i Hi.
  rewrite !ToUint32_testbit, !Z.shiftl_spec by lia.
  destruct (Z.ltb_spec i 32); [| reflexivity]. cbn [andb].
  destruct (Z.ltb_spec (i - n) 0).
  - rewrite !Z.testbit_neg_r by lia. reflexivity.
  - rewrite ToInt32_testbit, ToUint32_testbit by lia.
    destruct (Z.ltb_spec (i - n) 32); [reflexivity | lia].
Qed.

Lemma imul_low (a b : Z) :
  JS.ToUint32 (Math_imul a b) = MurmurSpec.mul32 (JS.ToUint32 a) (JS.ToUint32 b).
Proof.
  unfold Math_imul, MurmurSpec.mul32. rewrite ToUint32_ToInt32, !ToUint32_mod.
  rewrite Z.mul_mod by lia. rewrite !ToInt32_mod. reflexivity.
Qed.

Lemma rotl_or_low (k n : Z) :
  0 < n < 32 ->
  JS.ToUint32 (JS.or (JS.shl k n) (JS.ushr k (32 - n))) = ChaChaSpec.rotl32 (JS.ToUint32 k) n.
Proof. intros Hn. rewrite <- rotl_low by exact Hn. reflexivity. Qed.

Lemma disjoint_sum (x y k : Z) :
  0 <= k -> 0 <= x < 2 ^ k -> Z.lor x (Z.shiftl y k) = x + 2 ^ k * y /\ Z.lxor x (Z.shiftl y k) = x + 2 ^ k * y.
Proof.
  intros Hk Hx.
  assert (Hd : Z.land x (Z.shiftl y k) = 0).
  { apply Z.bits_inj'. intros i Hi. rewrite Z.land_spec, Z.shiftl_spec, Z.bits_0 by lia.
    destruct (Z.ltb_spec i k).
    - rewrite (Z.testbit_neg_r y) by lia. apply andb_false_r.
    - rewrite <- (Z.mod_small x (2 ^ k)) by lia. rewrite Z.testbit_mod_pow2 by lia.
      destruct (Z.ltb_spec i k); [lia | reflexivity]. }
  rewrite Z.shiftl_mul_pow2 by lia.
  rewrite Z.shiftl_mul_pow2 in Hd by lia.
  split.
  - pose proof (Z.add_lor_land x (y * 2 ^ k)) as H. rewrite Hd in H. lia.
  - symmetry. rewrite (Z.mul_comm (2 ^ k)). apply Z.add_nocarry_lxor. exact Hd.
Qed.

Lemma shl_byte (x n : Z) :
  byte x -> 0 <= n <= 24 -> JS.ToUint32 (JS.shl x n) = Z.shiftl x n.
Proof.
  unfold byte. intros Hx Hn.
  assert (Hp : 2 ^ n <= 2 ^ 24) by (apply Z.pow_le_mono_r; lia).
  assert (Hp0 : 0 < 2 ^ n) by (apply Z.pow_pos_nonneg; lia).
  rewrite shl_low by lia. rewrite (ToUint32_word x) by (unfold word; lia).
  apply ToUint32_word. unfold word. rewrite Z.shiftl_mul_pow2 by lia. nia.
Qed.

Lemma byte_word (x : Z) : byte x -> word x.
Proof. unfold byte, word. lia. Qed.

(** The little-endian word that [b0 | (b1 << 8) | (b2 << 16) | (b3 << 24)]
    assembles from four bytes. *)
Lemma le_word_or (data : list Z) (i : nat) :
  Forall byte data ->
  JS.ToUint32 (JS.or (JS.or (JS.or (JS.rd data i) (JS.shl (JS.rd data (i + 1)) 8))
                            (JS.shl (JS.rd data (i + 2)) 16))
                     (JS.shl (JS.rd data (i + 3)) 24))
  = MurmurSpec.le_word data i.
Proof.
  intros Hd. unfold MurmurSpec.le_word.
  pose proof (rd_byte data i Hd) as H0. pose proof (rd_byte data (i + 1) Hd) as H1.
  pose proof (rd_byte data (i + 2) Hd) as H2. pose proof (rd_byte data (i + 3) Hd) as H3.
  rewrite !or_low, !shl_byte by (assumption || lia).
  rewrite (ToUint32_word (JS.rd data i)) by (apply byte_word; assumption).
  unfold byte in *.
  assert (Hc : forall x y k, 0 <= k -> 0 <= x < 2 ^ k -> Z.lor x (Z.shiftl y k) = x + 2 ^ k * y)
    by (intros; apply disjoint_sum; assumption).
  rewrite (Hc _ _ 8) by lia. rewrite (Hc _ _ 16) by lia. rewrite (Hc _ _ 24) by lia.
  reflexivity.
Qed.

Lemma le_word_range (data : list Z) (i : nat) :
  Forall byte data -> word (MurmurSpec.le_word data i).
Proof.
  intros Hd. unfold MurmurSpec.le_word, word.
  pose proof (rd_byte data i Hd) as H0. pose proof (rd_byte data (i + 1) Hd) as H1.
  pose proof (rd_byte data (i + 2) Hd) as H2. pose proof (rd_byte data (i + 3) Hd) as H3.
  unfold byte in *. lia.
Qed.

Lemma scramble_js (k : Z) :
  JS.ToUint32
    (Math_imul (JS.or (JS.shl (Math_imul k 0xcc9e2d51) 15) (JS.ushr (Math_imul k 0xcc9e2d51) 17))
               0x1b873593)
  = MurmurSpec.scramble (JS.ToUint32 k).
Proof.
  unfold MurmurSpec.scramble. rewrite imul_low.
  change 17 with (32 - 15). rewrite rotl_or_low by lia. rewrite imul_low. reflexivity.
Qed.

Lemma mul32_word (a b : Z) : word (MurmurSpec.mul32 a b).
Proof. apply Z.mod_pos_bound. lia. Qed.

Lemma block_js (h k : Z) :
  JS.ushr
    (JS.add (Math_imul (JS.or (JS.shl (JS.xor h k) 13) (JS.ushr (JS.xor h k) 19)) 5) 0xe6546b64) 0
  = ChaChaSpec.add32
      (MurmurSpec.mul32 (ChaChaSpec.rotl32 (Z.lxor (JS.ToUint32 h) (JS.ToUint32 k)) 13) 5)
      0xe6546b64.
Proof.
  rewrite ushr_0. unfold JS.add.
  set (p := Math_imul _ 5).
  assert (Hp : - 2 ^ 31 <= p < 2 ^ 31) by apply ToInt32_range.
  rewrite round53_small by lia.
  assert (Hpx : JS.ToUint32 p
                = MurmurSpec.mul32
                    (ChaChaSpec.rotl32 (Z.lxor (JS.ToUint32 h) (JS.ToUint32 k)) 13) 5).
  { subst p. rewrite imul_low. change 19 with (32 - 13).
    rewrite rotl_or_low by lia. rewrite xor_low. reflexivity. }
  unfold ChaChaSpec.add32. rewrite <- Hpx, !ToUint32_mod.
  rewrite Zplus_mod_idemp_l. reflexivity.
Qed.

Lemma fmix_xor (h n : Z) :
  0 <= n < 32 ->
  JS.ToUint32 (JS.xor h (JS.ushr h n)) = Z.lxor (JS.ToUint32 h) (Z.shiftr (JS.ToUint32 h) n).
Proof.
  intros Hn. rewrite xor_low. f_equal. unfold JS.ushr. rewrite (Z.mod_small n 32) by lia.
  apply ToUint32_word. unfold word.
  pose proof (ToUint32_range h) as Hh. unfold word in Hh.
  rewrite Z.shiftr_div_pow2 by lia. split.
  - apply Z.div_pos; [lia | apply Z.pow_pos_nonneg; lia].
  - apply Z.div_lt_upper_bound; [apply Z.pow_pos_nonneg; lia |].
    assert (1 <= 2 ^ n) by (apply (Z.pow_le_mono_r 2 0 n); lia). nia.
Qed.

Lemma fmix_js (h : Z) :
  (let h1 := JS.xor h (JS.ushr h 16) in
   let h1 := Math_imul h1 0x85ebca6b in
   let h1 := JS.xor h1 (JS.ushr h1 13) in
   let h1 := Math_imul h1 0xc2b2ae35 in
   let h1 := JS.xor h1 (JS.ushr h1 16) in
   JS.ushr h1 0) = MurmurSpec.fmix32 (JS.ToUint32 h).
Proof.
  cbv zeta. unfold MurmurSpec.fmix32.
  rewrite ushr_0, fmix_xor, imul_low, fmix_xor, imul_low, fmix_xor by lia. reflexivity.
Qed.

Lemma and_3 (n : nat) : JS.and (Z.of_nat n) 3 = Z.of_nat (n mod 4).
Proof.
  unfold JS.and. change (JS.ToInt32 3) with (Z.ones 2). rewrite Z.land_ones by lia.
  assert (H : JS.ToInt32 (Z.of_nat n) mod 2 ^ 2 = Z.of_nat n mod 2 ^ 2).
  { apply Z.bits_inj'. intros i Hi. rewrite !Z.testbit_mod_pow2 by lia.
    destruct (Z.ltb_spec i 2); [| reflexivity]. cbn [andb].
    apply ToInt32_testbit. lia. }
  rewrite H.
  assert (Hr : 0 <= Z.of_nat n mod 2 ^ 2 < 2 ^ 2) by (apply Z.mod_pos_bound; lia).
  rewrite ToInt32_small by lia.
  change (2 ^ 2) with (Z.of_nat 4). rewrite <- Nat2Z.inj_mod. reflexivity.
Qed.

Lemma rd_beyond (data : list Z) (i : nat) : (length data <= i)%nat -> JS.rd data i = 0.
Proof. intros H. unfold JS.rd. rewrite lookup_ge_None_2 by exact H. reflexivity. Qed.

(** The word the three conditional statements of [murmur3] assemble from
    the one to three bytes after the last whole block. *)
Lemma tail_js (data : list Z) :
  Forall byte data ->
  let blocks := (length data / 4)%nat in
  let tail := JS.and (Z.of_nat (length data)) 3 in
  let k1 := 0 in
  let k1 := if 3 <=? tail then JS.xor k1 (JS.shl (JS.rd data (blocks * 4 + 2)) 16) else k1 in
  let k1 := if 2 <=? tail then JS.xor k1 (JS.shl (JS.rd data (blocks * 4 + 1)) 8) else k1 in
  1 <= tail ->
  JS.ToUint32 (JS.xor k1 (JS.rd data (blocks * 4))) = MurmurSpec.le_word data (blocks * 4).
Proof.
  intros Hd blocks tail. cbv zeta. subst tail. rewrite and_3.
  pose proof (Nat.div_mod_eq (length data) 4) as Hdm. fold blocks in Hdm.
  pose proof (Nat.mod_upper_bound (length data) 4 ltac:(lia)) as Hlt.
  set (t := (length data mod 4)%nat) in *.
  pose proof (rd_byte data (blocks * 4) Hd) as H0.
  pose proof (rd_byte data (blocks * 4 + 1) Hd) as H1.
  pose proof (rd_byte data (blocks * 4 + 2) Hd) as H2.
  intros Ht. unfold MurmurSpec.le_word.
  rewrite (rd_beyond data (blocks * 4 + 3)) by lia.
  assert (Hx : forall a b, JS.ToUint32 (JS.xor a b) = Z.lxor (JS.ToUint32 a) (JS.ToUint32 b))
    by apply xor_low.
  assert (Hc : forall x y k, 0 <= k -> 0 <= x < 2 ^ k -> Z.lxor x (Z.shiftl y k) = x + 2 ^ k * y)
    by (intros; apply disjoint_sum; assumption).
  unfold byte in *.
  destruct (Z.leb_spec 3 (Z.of_nat t)), (Z.leb_spec 2 (Z.of_nat t)); try lia.
  - rewrite !Hx, !shl_byte by (unfold byte; lia).
    rewrite (ToUint32_word (JS.rd _ _)) by (unfold word; lia).
    change (JS.ToUint32 0) with 0. rewrite Z.lxor_0_l.
    set (A := Z.shiftl _ 16). set (B := Z.shiftl _ 8). set (C := JS.rd data (blocks * 4)).
    rewrite (Z.lxor_comm (Z.lxor A B) C), (Z.lxor_comm A B), <- Z.lxor_assoc.
    subst A B C.
    rewrite (Hc _ _ 8) by lia. rewrite (Hc _ _ 16) by lia. lia.
  - rewrite (rd_beyond data (blocks * 4 + 2)) by lia.
    rewrite !Hx, !shl_byte by (unfold byte; lia).
    rewrite (ToUint32_word (JS.rd _ _)) by (unfold word; lia).
    change (JS.ToUint32 0) with 0. rewrite Z.lxor_0_l.
    rewrite Z.lxor_comm. rewrite (Hc _ _ 8) by lia. lia.
  - rewrite (rd_beyond data (blocks * 4 + 2)), (rd_beyond data (blocks * 4 + 1)) by lia.
    rewrite Hx. change (JS.ToUint32 0) with 0. rewrite Z.lxor_0_l.
    rewrite ToUint32_word by (unfold word; lia). lia.
Qed.

Lemma murmur3_blocks (data : list Z) (l : list nat) (h : Z) :
  Forall byte data ->
  JS.ToUint32
    (foldl (fun h1 i =>
             let k1 := JS.or (JS.or (JS.or (JS.rd data (i * 4))
                                           (JS.shl (JS.rd data (i * 4 + 1)) 8))
                                    (JS.shl (JS.rd data (i * 4 + 2)) 16))
                             (JS.shl (JS.rd data (i * 4 + 3)) 24) in
             let k1 := Math_imul k1 0xcc9e2d51 in
             let k1 := JS.or (JS.shl k1 15) (JS.ushr k1 17) in
             let k1 := Math_imul k1 0x1b873593 in
             let h1 := JS.xor h1 k1 in
             let h1 := JS.or (JS.shl h1 13) (JS.ushr h1 19) in
             JS.ushr (JS.add (Math_imul h1 5) 0xe6546b64) 0)
          h l)
  = foldl (fun h i => MurmurSpec.block h (MurmurSpec.le_word data (i * 4))) (JS.ToUint32 h) l.
Proof.
  intros Hd. revert h. induction l as [| i l IH]; intros h; cbn [foldl]; [reflexivity |].
  rewrite IH. f_equal. cbv zeta. rewrite block_js, scramble_js, le_word_or by exact Hd.
  unfold MurmurSpec.block. apply ToUint32_word, add32_word.
Qed.

(** [murmur3(data, seed)] is MurmurHash3 (x86, 32 bits) of the bytes with
    the seed reduced modulo 2^32: [Math.imul] and the 32-bit operators keep
    every step exact. *)
Theorem murmur3_exact (data : list Z) (seed : Z) :
  Forall byte data ->
  murmur3 data seed = MurmurSpec.murmur3_32 data (seed mod 2 ^ 32).
Proof.
  intros Hd. unfold murmur3. cbv zeta.
  set (hb := foldl _ seed _).
  assert (Hb : JS.ToUint32 hb
               = foldl (fun h i => MurmurSpec.block h (MurmurSpec.le_word data (i * 4)))
                       (seed mod 2 ^ 32) (seq 0 (length data / 4))).
  { subst hb. rewrite murmur3_blocks by exact Hd. rewrite ToUint32_mod. reflexivity. }
  unfold MurmurSpec.murmur3_32. cbv zeta. rewrite <- Hb. clear Hb.
  pose proof (tail_js data Hd) as Ht. cbv zeta in Ht.
  pose proof (and_3 (length data)) as H3.
  set (tail := JS.and (Z.of_nat (length data)) 3) in *.
  set (k1 := if 2 <=? tail then _ else _) in *.
  match goal with |- JS.ushr ?e 0 = _ =>
    match e with context [JS.xor ?h (Z.of_nat (length data))] =>
      change (JS.ushr e 0)
        with (let h1 := JS.xor (JS.xor h (Z.of_nat (length data)))
                               (JS.ushr (JS.xor h (Z.of_nat (length data))) 16) in
              let h1 := Math_imul h1 0x85ebca6b in
              let h1 := JS.xor h1 (JS.ushr h1 13) in
              let h1 := Math_imul h1 0xc2b2ae35 in
              let h1 := JS.xor h1 (JS.ushr h1 16) in
              JS.ushr h1 0)
    end
  end.
  rewrite fmix_js, xor_low. f_equal.
  rewrite (ToUint32_mod (Z.of_nat _)). f_equal.
  destruct (Nat.eqb_spec (length data mod 4) 0) as [E | E].
  - rewrite E in H3. destruct (Z.leb_spec 1 tail); [lia | reflexivity].
  - destruct (Z.leb_spec 1 tail); [| lia].
    rewrite xor_low, scramble_js, Ht by assumption. reflexivity.
Qed.

Lemma murmur3_exact_witness :
  murmur3 (bytes_of_string "hello") 0 = MurmurSpec.murmur3_32 (bytes_of_string "hello") (0 mod 2 ^ 32).
Proof.
  apply murmur3_exact. vm_compute. repeat constructor; discriminate.
Defined.

(** The model on published test vectors of MurmurHash3 (x86, 32 bits). *)
Example murmur3_vectors :
  murmur3 [] 0 = 0
  /\ murmur3 [] 1 = 0x514E28B7
  /\ murmur3 [] 0xffffffff = 0x81F16F39
  /\ murmur3 (bytes_of_string "hello") 0 = 0x248bfa47
  /\ murmur3 (bytes_of_string "The quick brown fox jumps over the lazy dog") 0 = 0x2e4ff723.
Proof. vm_compute. repeat split; reflexivity. Qed.


Lemma fnv1a_bytes_check :
  forallb (fun b => Bool.eqb (fnv1a [b] =? fnv1a_reference [b]) (b mod 4 =? 1))
          (map Z.of_nat (seq 0 256)) = true.
Proof. vm_compute. reflexivity. Qed.

(** [fnv1a] multiplies by the FNV prime in double arithmetic, where the
    product, of 55 bits, is rounded to a multiple of 4 before [>>> 0]
    reduces it.  On a one-byte input it returns the FNV-1a hash exactly
    when the byte is 1 modulo 4; on every other byte the low bits differ. *)
Theorem fnv1a_single_byte (b : Z) :
  byte b -> (fnv1a [b] = fnv1a_reference [b] <-> b mod 4 = 1).
Proof.
  unfold byte. intros Hb.
  pose proof fnv1a_bytes_check as H. rewrite forallb_forall in H.
  specialize (H b). rewrite in_map_iff in H.
  assert (Hin : exists x : nat, Z.of_nat x = b /\ In x (seq 0 256)).
  { exists (Z.to_nat b). split; [lia | apply in_seq; lia]. }
  specialize (H Hin). apply Bool.eqb_prop in H.
  rewrite <- Z.eqb_eq, H, Z.eqb_eq. reflexivity.
Qed.

Lemma fnv1a_single_byte_witness :
  fnv1a [97] = fnv1a_reference [97] <-> 97 mod 4 = 1.
Proof. apply fnv1a_single_byte. unfold byte. lia. Defined.

(** On the six bytes of "foobar" the reference hash is 0xbf9cf968; the
    source returns another word. *)
Example fnv1a_foobar :
  fnv1a_reference (bytes_of_string "foobar") = 0xbf9cf968
  /\ fnv1a (bytes_of_string "foobar") = 249808880
  /\ fnv1a (bytes_of_string "a") = 0xe40c292c
  /\ fnv1a [] = 0x811c9dc5.
Proof. vm_compute. repeat split; reflexivity. Qed.

(** ** [LCG.getState] and [LCG.setState] *)

(** A state read with [getState] and put into any instance with
    [setState] makes that instance continue as the one it was read from:
    the instance is the same when the state is a 32-bit word (as it is
    after every [next()]), and the next draw and state are the same for
    every state between -2^32 and 2^32 (a seed given to the constructor is
    stored as it is). *)
Theorem lcg_setState_getState (g g0 : LCG.t) :
  - 2 ^ 32 <= LCG.state g <= 2 ^ 32 ->
  LCG.next (LCGState.setState g0 (LCGState.getState g)) = LCG.next g
  /\ (word (LCG.state g) -> LCGState.setState g0 (LCGState.getState g) = g)
  /\ LCGState.setState g0 (LCGState.getState (snd (LCG.next g))) = snd (LCG.next g).
Proof.
  intros Hs. destruct g as [s]. cbn [LCG.state] in *.
  unfold LCGState.setState, LCGState.getState. cbn [LCG.state].
  rewrite ushr_0.
  split; [| split].
  - unfold LCG.next. cbn [LCG.state].
    assert (H : JS.ToUint32 (JS.add (JS.mul LCG.a (JS.ToUint32 s)) LCG.c)
                = JS.ToUint32 (JS.add (JS.mul LCG.a s) LCG.c)).
    { pose proof (ToUint32_range s) as Hr. unfold word in Hr.
      unfold JS.add, JS.mul, LCG.a, LCG.c.
      rewrite (round53_small (1664525 * JS.ToUint32 s)) by lia.
      rewrite (round53_small (1664525 * s)) by lia.
      rewrite !round53_small by lia.
      rewrite !ToUint32_mod.
      rewrite Z.add_mod, Z.mul_mod by lia. rewrite Z.mod_mod by lia.
      rewrite <- Z.mul_mod, <- Z.add_mod by lia. reflexivity. }
    rewrite H. reflexivity.
  - intros Hw. rewrite ToUint32_word by exact Hw. reflexivity.
  - unfold LCG.next. cbv zeta. cbn [snd LCG.state]. rewrite ushr_0.
    rewrite (ToUint32_word (JS.ToUint32 _)) by apply ToUint32_range. reflexivity.
Qed.

Lemma lcg_setState_getState_witness :
  LCG.next (LCGState.setState {| LCG.state := 7 |} (LCGState.getState {| LCG.state := -1 |}))
  = LCG.next {| LCG.state := -1 |}.
Proof.
  exact (proj1 (lcg_setState_getState {| LCG.state := -1 |} {| LCG.state := 7 |}
                  ltac:(cbn; lia))).
Defined.

(** ** The state of [XorShift128Plus] *)

Lemma land_mask64 (s : Z) : Z.land s XorShift128Plus.mask = s mod 2 ^ 64.
Proof. unfold XorShift128Plus.mask. change 0xFFFFFFFFFFFFFFFF with (Z.ones 64). apply Z.land_ones. lia. Qed.

Lemma lxor_range (a b k : Z) :
  0 <= k -> 0 <= a < 2 ^ k -> 0 <= b < 2 ^ k -> 0 <= Z.lxor a b < 2 ^ k.
Proof.
  intros Hk Ha Hb.
  assert (H : Z.lxor a b = Z.lxor a b mod 2 ^ k).
  { apply Z.bits_inj'. intros i Hi.
    rewrite Z.testbit_mod_pow2, Z.lxor_spec by lia.
    destruct (Z.ltb_spec i k); [reflexivity |].
    rewrite <- (Z.mod_small a (2 ^ k)), <- (Z.mod_small b (2 ^ k)) by lia.
    rewrite !Z.testbit_mod_pow2 by lia.
    destruct (Z.ltb_spec i k); [lia | reflexivity]. }
  rewrite H. apply Z.mod_pos_bound. apply Z.pow_pos_nonneg; lia.
Qed.

Lemma shiftr_range (a n k : Z) : 0 <= n -> 0 <= a < 2 ^ k -> 0 <= Z.shiftr a n < 2 ^ k.
Proof.
  intros Hn Ha. rewrite Z.shiftr_div_pow2 by lia.
  assert (Hp : 0 < 2 ^ n) by (apply Z.pow_pos_nonneg; lia).
  split; [apply Z.div_pos; lia |].
  apply Z.div_lt_upper_bound; [lia |]. nia.
Qed.

(** A word that equals itself shifted right is zero. *)
Lemma shiftr_fixed (z k : Z) : 0 <= z -> 0 < k -> z = Z.shiftr z k -> z = 0.
Proof.
  intros Hz Hk H. rewrite Z.shiftr_div_pow2 in H by lia.
  destruct (Z.eq_dec z 0) as [E | E]; [exact E |].
  assert (Hp : 1 < 2 ^ k) by (apply Z.pow_gt_1; lia).
  pose proof (Z.div_lt z (2 ^ k) ltac:(lia) Hp). lia.
Qed.

(** A word that equals itself shifted left (and cut to 64 bits) is zero. *)
Lemma shiftl_fixed (x k : Z) :
  0 <= x -> 0 < k -> x = Z.land (Z.shiftl x k) XorShift128Plus.mask -> x = 0.
Proof.
  intros Hx Hk H. apply Z.bits_inj_0. intros i.
  destruct (Z.lt_ge_cases i 0) as [Hneg | Hi]; [apply Z.testbit_neg_r; exact Hneg |].
  revert i Hi. apply (Zlt_0_ind (fun i => Z.testbit x i = false)).
  intros i IH Hi. rewrite H, Z.land_spec, Z.shiftl_spec by lia.
  destruct (Z.lt_ge_cases (i - k) 0) as [Hlt | Hge].
  - rewrite (Z.testbit_neg_r x) by exact Hlt. reflexivity.
  - rewrite IH by lia. reflexivity.
Qed.

Lemma xorshift_next_wf (g : XorShift128Plus.t) :
  xorshift_wf g -> xorshift_wf (snd (XorShift128Plus.next g)).
Proof.
  destruct g as [x y]. unfold xorshift_wf. cbn [XorShift128Plus.s0 XorShift128Plus.s1].
  intros (Hx & Hy & Hnz). unfold XorShift128Plus.next.
  cbn [XorShift128Plus.s0 XorShift128Plus.s1 snd].
  set (x' := Z.lxor x (Z.land (Z.shiftl x 23) XorShift128Plus.mask)).
  assert (Hm : 0 <= Z.land (Z.shiftl x 23) XorShift128Plus.mask < 2 ^ 64).
  { rewrite land_mask64. apply Z.mod_pos_bound. lia. }
  assert (Hx' : 0 <= x' < 2 ^ 64) by (apply lxor_range; [lia | exact Hx | exact Hm]).
  split; [exact Hy |]. split.
  - repeat apply lxor_range; try lia; apply shiftr_range; lia.
  - destruct (Z.eq_dec y 0) as [-> | Hy0]; [right | left; exact Hy0].
    destruct Hnz as [Hx0 | Hy0]; [| contradiction].
    rewrite Z.lxor_0_r. change (Z.shiftr 0 5) with 0. rewrite Z.lxor_0_r.
    intros Hn. apply Z.lxor_eq in Hn.
    apply shiftr_fixed in Hn; [| lia | lia].
    subst x'. apply Z.lxor_eq in Hn.
    apply shiftl_fixed in Hn; [contradiction | lia | lia].
Qed.

Lemma xorshift_constructor_wf (seed : option Z) (now : Z) :
  xorshift_wf (XorShift128Plus.constructor seed now).
Proof.
  unfold XorShift128Plus.constructor, xorshift_wf. cbv zeta.
  cbn [XorShift128Plus.s0 XorShift128Plus.s1].
  set (s := match seed with Some s => s | None => _ end).
  rewrite !land_mask64.
  pose proof (Z.mod_pos_bound s (2 ^ 64) ltac:(lia)) as Ha.
  pose proof (Z.mod_pos_bound (s * 0x5851F42D4C957F2D) (2 ^ 64) ltac:(lia)) as Hb.
  destruct (Z.eqb_spec (s mod 2 ^ 64) 0), (Z.eqb_spec ((s * 0x5851F42D4C957F2D) mod 2 ^ 64) 0);
    repeat split; try lia; left; lia.
Qed.

(** [XorShift128Plus] never reaches the state whose two words are zero,
    from which it would never move and every [next()] would be 0: the
    constructor avoids it for every seed, and a step maps no other state of
    two 64-bit words to it. *)
Theorem xorshift_never_zero (seed : option Z) (now : Z) (n : nat) :
  xorshift_wf (Nat.iter n (fun g => snd (XorShift128Plus.next g))
                        (XorShift128Plus.constructor seed now))
  /\ snd (XorShift128Plus.next {| XorShift128Plus.s0 := 0; XorShift128Plus.s1 := 0 |})
     = {| XorShift128Plus.s0 := 0; XorShift128Plus.s1 := 0 |}
  /\ (fst (XorShift128Plus.next {| XorShift128Plus.s0 := 0; XorShift128Plus.s1 := 0 |}) == 0)%Q.
Proof.
  split; [| split; reflexivity].
  induction n as [| n IH]; [apply xorshift_constructor_wf |].
  rewrite Nat.iter_succ. apply xorshift_next_wf. exact IH.
Qed.

(** ** The range every generator does keep *)

Lemma round53_64 (x : Z) : 0 <= x < 2 ^ 64 -> 0 <= JS.round53 x <= 2 ^ 64.
Proof.
  intros Hx. unfold JS.round53. cbv zeta. rewrite (Z.abs_eq x) by lia.
  destruct (Z.ltb_spec x (2 ^ 53)); [lia |].
  assert (Hl : 53 <= Z.log2 x < 64).
  { split; [apply Z.log2_le_pow2; lia | apply Z.log2_lt_pow2; lia]. }
  pose proof (Z.log2_spec x ltac:(lia)) as Hs.
  set (e := Z.log2 x - 52) in *.
  assert (He : 2 ^ Z.succ (Z.log2 x) = 2 ^ 53 * 2 ^ e).
  { rewrite <- Z.pow_add_r by lia. f_equal. lia. }
  assert (Hpe : 0 < 2 ^ e) by (apply Z.pow_pos_nonneg; lia).
  rewrite Z.sgn_pos by lia. rewrite Z.mul_1_l.
  set (q := Z.shiftr x e).
  assert (Hq : 0 <= q < 2 ^ 53).
  { subst q. rewrite Z.shiftr_div_pow2 by lia. split; [apply Z.div_pos; lia |].
    apply Z.div_lt_upper_bound; [lia |]. lia. }
  match goal with |- context [if ?c then q + 1 else q] =>
    set (q' := if c then q + 1 else q);
    assert (Hq' : 0 <= q' <= 2 ^ 53) by (subst q'; destruct c; lia)
  end.
  rewrite Z.shiftl_mul_pow2 by lia.
  assert (H64 : 2 ^ 53 * 2 ^ e <= 2 ^ 64).
  { rewrite <- He. apply Z.pow_le_mono_r; lia. }
  split; [nia | nia].
Qed.

Lemma floor_scaled_closed (x : Q) (k : Z) :
  (0 <= x)%Q -> (x <= 1)%Q -> 0 < k -> 0 <= JS.Math_floor (x * inject_Z k) <= k.
Proof.
  intros H0 H1 Hk. unfold JS.Math_floor.
  assert (Hk' : (inject_Z 0 < inject_Z k)%Q) by (rewrite <- Zlt_Qlt; lia).
  split.
  - rewrite <- (Qfloor_Z 0). apply Qfloor_resp_le.
    apply Qmult_le_0_compat; [exact H0 | apply Qlt_le_weak; exact Hk'].
  - rewrite <- (Qfloor_Z k) at 2. apply Qfloor_resp_le.
    rewrite <- (Qmult_1_l (inject_Z k)) at 2.
    apply Qmult_le_compat_r; [exact H1 | apply Qlt_le_weak; exact Hk'].
Qed.

Lemma next_unit_interval (g : generator) :
  exists x g', next g = JS.Ok (x, g') /\ (0 <= x)%Q /\ (x <= 1)%Q.
Proof.
  destruct g as [g | g | g | g]; unfold next.
  - destruct (LCG.next g) as [x g'] eqn:E. exists x, (GLCG g').
    split; [reflexivity |].
    unfold LCG.next in E. injection E as <- _.
    pose proof (ToUint32_range (JS.add (JS.mul LCG.a (LCG.state g)) LCG.c)) as Hw.
    unfold word in Hw. apply div_closed_unit_interval; unfold LCG.m; lia.
  - destruct (MersenneTwister.next g) as [x g'] eqn:E. exists x, (GMersenneTwister g').
    split; [reflexivity |].
    unfold MersenneTwister.next in E. cbv zeta in E. injection E as <- _.
    unfold MersenneTwister.temper. cbv zeta. rewrite ushr_0.
    match goal with |- context [JS.ToUint32 ?y] => pose proof (ToUint32_range y) as Hw end.
    unfold word in Hw. apply div_closed_unit_interval; lia.
  - unfold ChaCha20.next, ChaCha20.nextBytes.
    change (JS.new_array 4) with (JS.Ok (replicate 4 0)).
    cbn [mbind JS.result_bind mret JS.result_ret fst snd].
    eexists. eexists. split; [reflexivity |].
    rewrite ushr_0.
    match goal with |- context [JS.ToUint32 ?y] => pose proof (ToUint32_range y) as Hw end.
    unfold word in Hw. apply div_closed_unit_interval; lia.
  - destruct (XorShift128Plus.next g) as [x g'] eqn:E. exists x, (GXorShift128Plus g').
    split; [reflexivity |].
    unfold XorShift128Plus.next in E. cbv zeta in E. injection E as <- _.
    rewrite land_mask64.
    match goal with |- context [JS.round53 (?y mod 2 ^ 64)] =>
      pose proof (round53_64 (y mod 2 ^ 64) (Z.mod_pos_bound y (2 ^ 64) ltac:(lia))) as Hw
    end.
    change (JS.round53 0xFFFFFFFFFFFFFFFF) with (2 ^ 64).
    apply div_closed_unit_interval; lia.
Qed.

Lemma floor_scaled_neg (x : Q) (k : Z) :
  (0 <= x)%Q -> (x <= 1)%Q -> k <= 0 -> k <= JS.Math_floor (x * inject_Z k) <= 0.
Proof.
  intros H0 H1 Hk. unfold JS.Math_floor. destruct x as [xn xd].
  assert (Hlo : (inject_Z k <= (xn # xd) * inject_Z k)%Q).
  { unfold Qle, Qmult, inject_Z in *. cbn [Qnum Qden] in *.
    rewrite Pos.mul_1_r. nia. }
  assert (Hhi : ((xn # xd) * inject_Z k <= inject_Z 0)%Q).
  { unfold Qle, Qmult, inject_Z in *. cbn [Qnum Qden] in *. nia. }
  split.
  - rewrite <- (Qfloor_Z k) at 1. apply Qfloor_resp_le. exact Hlo.
  - rewrite <- (Qfloor_Z 0). apply Qfloor_resp_le. exact Hhi.
Qed.

(** Whatever the variant and the state, [next()] returns a value of the
    closed interval [[0, 1]] and [nextInt(k)], for [k > 0], an integer of
    [[0, k]]: the upper ends are included, since three of the four
    variants divide by the largest value of their numerator. *)
Theorem next_closed_interval (g : generator) :
  exists x g',
    next g = JS.Ok (x, g') /\ (0 <= x)%Q /\ (x <= 1)%Q
    /\ forall k, 0 < k -> exists v, nextInt g k = JS.Ok (v, g') /\ 0 <= v <= k.
Proof.
  destruct (next_unit_interval g) as (x & g' & Hn & H0 & H1).
  exists x, g'. split; [exact Hn |]. split; [exact H0 |]. split; [exact H1 |].
  intros k Hk. unfold nextInt. rewrite Hn.
  cbn [mbind JS.result_bind mret JS.result_ret fst snd].
  eexists. split; [reflexivity |]. apply floor_scaled_closed; assumption.
Qed.

(** ** Arguments out of range *)

(** C4, as the code has it.  No generator checks its arguments.
    [nextInt(max)] never throws, for no [max]: it returns
    [Math.floor(next() * max)], an integer between 0 and [max], so 0 for
    [max = 0] and a value of [[max, 0]] for a negative [max].
    [nextBytes(count)] throws exactly when [count] is not a length a typed
    array can have, below 0 or above 2^53 - 1, and what it throws is the
    [RangeError] of [new Uint8Array(count)]; otherwise it returns [count]
    bytes. *)
Theorem nextInt_total_nextBytes_RangeError (g : generator) (max count : Z) :
  (exists x v g',
      next g = JS.Ok (x, g') /\ nextInt g max = JS.Ok (v, g')
      /\ Z.min 0 max <= v <= Z.max 0 max)
  /\ (if (count <? 0) || (2 ^ 53 - 1 <? count)
      then nextBytes g count = JS.Throw JS.RangeError
      else exists bytes g', nextBytes g count = JS.Ok (bytes, g')
                            /\ Z.of_nat (length bytes) = count).
Proof.
  split.
  - destruct (next_unit_interval g) as (x & g' & H & H0 & H1).
    exists x, (JS.Math_floor (x * inject_Z max)), g'. split; [exact H |].
    split; [unfold nextInt; rewrite H; reflexivity |].
    destruct (Z.lt_ge_cases 0 max) as [Hpos | Hneg].
    + pose proof (floor_scaled_closed x max H0 H1 Hpos). lia.
    + pose proof (floor_scaled_neg x max H0 H1 Hneg). lia.
  - destruct ((count <? 0) || (2 ^ 53 - 1 <? count)) eqn:E.
    + assert (Hnew : JS.new_array count = JS.Throw JS.RangeError).
      { apply new_array_Throw. apply orb_true_iff in E.
        destruct E as [E | E]; apply Z.ltb_lt in E; lia. }
      destruct g; unfold nextBytes, ChaCha20.nextBytes; rewrite Hnew; reflexivity.
    + apply orb_false_iff in E. destruct E as [E1 E2]. apply Z.ltb_ge in E1, E2.
      assert (Hnew : JS.new_array count = JS.Ok (replicate (Z.to_nat count) 0))
        by (apply new_array_Ok; lia).
      assert (Hlen : Z.of_nat (length (replicate (Z.to_nat count) 0)) = count).
      { rewrite length_replicate. lia. }
      destruct g as [g | g | g | g]; unfold nextBytes, ChaCha20.nextBytes; rewrite Hnew;
        cbn [mbind JS.result_bind mret JS.result_ret].
      3: { eexists. eexists. split; [reflexivity |]. cbn [fst].
           rewrite chacha_nextBytes_step_length. exact Hlen. }
      all: unfold mret, JS.result_ret;
        match goal with |- context [foldl nextBytes_step (JS.Ok (?b, ?g0)) ?l] =>
             destruct (nextBytes_step_returns l b g0) as (bytes' & g'' & -> & Hl) end;
        exists bytes', g''; split; [reflexivity | rewrite Hl; exact Hlen].
Qed.

(** C4, as stated, fails: [nextInt(0)] and [nextInt(-5)] on [new LCG(12345)]
    return 0 and -1 and throw nothing. *)
Lemma nextInt_nonpositive_returns :
  nextInt (GLCG (LCG.constructor (Some 12345) 0)) 0
  = JS.Ok (0, GLCG {| LCG.state := 87628868 |})
  /\ nextInt (GLCG (LCG.constructor (Some 12345) 0)) (-5)
     = JS.Ok (-1, GLCG {| LCG.state := 87628868 |}).
Proof. split; vm_compute; reflexivity. Qed.

(** ** Byte loops: [nextBytes] called twice and called once *)

Section ByteLoop.

Variable G : Type.
Variable f : G -> Z.
Variable h : G -> G.
Variable step : list Z * G -> nat -> list Z * G.
Hypothesis step_eq :
  forall acc i, step acc i = (<[ i := f (snd acc) ]> (fst acc), h (snd acc)).

(** The loop writes at the positions it is given and nowhere else. *)
Lemma loop_suffix (l : list nat) (acc suffix : list Z) (g : G) :
  Forall (fun i => i < length acc)%nat l ->
  foldl step (acc ++ suffix, g) l
  = (fst (foldl step (acc, g) l) ++ suffix, snd (foldl step (acc, g) l)).
Proof.
  revert acc g. induction l as [| i l IH]; intros acc g Hl; cbn [foldl]; [reflexivity |].
  apply Forall_cons in Hl. destruct Hl as [Hi Hl]. rewrite !step_eq. cbn [fst snd].
  rewrite insert_app_l by exact Hi. apply IH.
  rewrite length_insert. exact Hl.
Qed.

Lemma loop_prefix (l : list nat) (pre acc : list Z) (g : G) :
  foldl step (pre ++ acc, g) (map (Nat.add (length pre)) l)
  = (pre ++ fst (foldl step (acc, g) l), snd (foldl step (acc, g) l)).
Proof.
  revert acc g. induction l as [| i l IH]; intros acc g; cbn [foldl map]; [reflexivity |].
  rewrite !step_eq. cbn [fst snd]. rewrite insert_app_r. apply IH.
Qed.

Lemma loop_length (l : list nat) (acc : list Z) (g : G) :
  length (fst (foldl step (acc, g) l)) = length acc.
Proof.
  revert acc g. induction l as [| i l IH]; intros acc g; cbn [foldl]; [reflexivity |].
  rewrite step_eq. cbn [fst snd]. rewrite IH. apply length_insert.
Qed.

Lemma loop_app (m n : nat) (g : G) (b1 b2 : list Z) (g1 g2 : G) :
  foldl step (replicate m 0, g) (seq 0 m) = (b1, g1) ->
  foldl step (replicate n 0, g1) (seq 0 n) = (b2, g2) ->
  foldl step (replicate (m + n) 0, g) (seq 0 (m + n)) = (b1 ++ b2, g2)
  /\ length b1 = m /\ length b2 = n.
Proof.
  intros E1 E2.
  assert (Hm : length b1 = m).
  { apply (f_equal (fun r => length (fst r))) in E1. cbn [fst] in E1.
    rewrite loop_length, length_replicate in E1. congruence. }
  assert (Hn : length b2 = n).
  { apply (f_equal (fun r => length (fst r))) in E2. cbn [fst] in E2.
    rewrite loop_length, length_replicate in E2. congruence. }
  split; [| split; assumption].
  rewrite seq_app, foldl_app, replicate_add.
  rewrite loop_suffix by (apply Forall_forall; intros i Hi;
                          apply list_elem_of_In, in_seq in Hi; rewrite length_replicate; lia).
  rewrite E1. cbn [Nat.add fst snd].
  replace (seq m n) with (map (Nat.add (length b1)) (seq 0 n)).
  - rewrite loop_prefix, E2. reflexivity.
  - rewrite Hm. rewrite <- (Nat.add_0_r m) at 2. apply (fmap_add_seq m 0 n).
Qed.

End ByteLoop.

Lemma foldl_pointwise {A B : Type} (f g : A -> B -> A) (l : list B) (a : A) :
  (forall a b, f a b = g a b) -> foldl f a l = foldl g a l.
Proof.
  intros H. revert a. induction l as [| b l IH]; intros a; cbn [foldl]; [reflexivity |].
  rewrite H. apply IH.
Qed.

Lemma chacha_nextBytes_step_eq (acc : list Z * ChaCha20.t) (i : nat) :
  ChaCha20.nextBytes_step acc i
  = (<[ i := JS.u8 (fst (ChaCha20.nextByte (snd acc))) ]> (fst acc),
     snd (ChaCha20.nextByte (snd acc))).
Proof. unfold ChaCha20.nextBytes_step. destruct (ChaCha20.nextByte (snd acc)). reflexivity. Qed.

Lemma chacha_nextBytes_returns (g : ChaCha20.t) (n : nat) :
  Z.of_nat n <= 2 ^ 53 - 1 ->
  ChaCha20.nextBytes g (Z.of_nat n)
  = JS.Ok (foldl ChaCha20.nextBytes_step (replicate n 0, g) (seq 0 n)).
Proof.
  intros Hn. unfold ChaCha20.nextBytes. rewrite new_array_Ok by lia.
  cbn [mbind JS.result_bind mret JS.result_ret]. rewrite Nat2Z.id. reflexivity.
Qed.

(** [ChaCha20.nextBytes(m)] followed by [nextBytes(n)] returns the bytes
    of one [nextBytes(m + n)], and leaves the generator in the same state. *)
Lemma chacha_nextBytes_app (g : ChaCha20.t) (m n : nat) :
  Z.of_nat (m + n) <= 2 ^ 53 - 1 ->
  exists b1 g1 b2 g2,
    ChaCha20.nextBytes g (Z.of_nat m) = JS.Ok (b1, g1)
    /\ ChaCha20.nextBytes g1 (Z.of_nat n) = JS.Ok (b2, g2)
    /\ ChaCha20.nextBytes g (Z.of_nat (m + n)) = JS.Ok (b1 ++ b2, g2)
    /\ length b1 = m /\ length b2 = n.
Proof.
  intros Hmn. rewrite !chacha_nextBytes_returns by lia.
  destruct (foldl ChaCha20.nextBytes_step (replicate m 0, g) (seq 0 m)) as [b1 g1] eqn:E1.
  exists b1, g1. rewrite chacha_nextBytes_returns by lia.
  destruct (foldl ChaCha20.nextBytes_step (replicate n 0, g1) (seq 0 n)) as [b2 g2] eqn:E2.
  exists b2, g2.
  destruct (loop_app ChaCha20.t (fun g => JS.u8 (fst (ChaCha20.nextByte g)))
                     (fun g => snd (ChaCha20.nextByte g))
                     ChaCha20.nextBytes_step chacha_nextBytes_step_eq
                     m n g b1 b2 g1 g2 E1 E2) as (H & L1 & L2).
  rewrite H. auto.
Qed.

Lemma classic_chacha (g : generator) :
  (exists c, g = GChaCha20 c) \/ (forall c, g <> GChaCha20 c).
Proof. destruct g; [right | right | left; eauto | right]; discriminate. Qed.

Lemma next_variant (g g' : generator) (x : Q) :
  (forall c, g <> GChaCha20 c) -> next g = JS.Ok (x, g') -> forall c, g' <> GChaCha20 c.
Proof.
  intros Hg Hn c. destruct g as [g | g | g | g]; unfold next in Hn.
  - destruct (LCG.next g). injection Hn as _ <-. discriminate.
  - destruct (MersenneTwister.next g). injection Hn as _ <-. discriminate.
  - exfalso. exact (Hg g eq_refl).
  - destruct (XorShift128Plus.next g). injection Hn as _ <-. discriminate.
Qed.

Lemma nextBytes_step_pure (acc : list Z) (g : generator) (i : nat) :
  nextBytes_step (JS.Ok (acc, g)) i
  = JS.Ok (<[ i := match nextInt g 256 with JS.Ok r => JS.u8 (fst r) | JS.Throw _ => 0 end ]> acc,
           match nextInt g 256 with JS.Ok r => snd r | JS.Throw _ => g end).
Proof.
  unfold nextBytes_step. cbn [mbind JS.result_bind snd fst].
  destruct (next_returns g) as (x & g' & Hx).
  unfold nextInt. rewrite Hx. reflexivity.
Qed.

Lemma nextBytes_loop_pure (l : list nat) (acc : list Z) (g : generator) :
  foldl nextBytes_step (JS.Ok (acc, g)) l
  = JS.Ok (foldl (fun (a : list Z * generator) (i : nat) =>
                    (<[ i := match nextInt (snd a) 256 with
                             | JS.Ok r => JS.u8 (fst r) | JS.Throw _ => 0 end ]> (fst a),
                     match nextInt (snd a) 256 with
                     | JS.Ok r => snd r | JS.Throw _ => snd a end))
                 (acc, g) l).
Proof.
  revert acc g. induction l as [| i l IH]; intros acc g; cbn [foldl]; [reflexivity |].
  rewrite nextBytes_step_pure. cbn [fst snd]. apply IH.
Qed.

Lemma nextBytes_loop_variant (l : list nat) (acc : list Z) (g : generator) :
  (forall c, g <> GChaCha20 c) ->
  forall c,
    snd (foldl (fun (a : list Z * generator) (i : nat) =>
                  (<[ i := match nextInt (snd a) 256 with
                           | JS.Ok r => JS.u8 (fst r) | JS.Throw _ => 0 end ]> (fst a),
                   match nextInt (snd a) 256 with
                   | JS.Ok r => snd r | JS.Throw _ => snd a end))
               (acc, g) l) <> GChaCha20 c.
Proof.
  revert acc g. induction l as [| i l IH]; intros acc g Hg; cbn [foldl]; [exact Hg |].
  cbn [fst snd]. apply IH.
  destruct (next_returns g) as (x & g' & Hx).
  unfold nextInt. rewrite Hx. cbn [mbind JS.result_bind mret JS.result_ret snd].
  exact (next_variant g g' x Hg Hx).
Qed.

Lemma nextBytes_generic (g : generator) (n : nat) :
  Z.of_nat n <= 2 ^ 53 - 1 ->
  (forall c, g <> GChaCha20 c) ->
  nextBytes g (Z.of_nat n) = foldl nextBytes_step (JS.Ok (replicate n 0, g)) (seq 0 n).
Proof.
  intros Hn Hg. unfold nextBytes. rewrite new_array_Ok by lia.
  destruct g as [g | g | g | g]; [| | exfalso; exact (Hg g eq_refl) |];
    cbn [mbind JS.result_bind mret JS.result_ret]; rewrite Nat2Z.id; reflexivity.
Qed.

(** For every variant, [nextBytes(m)] followed by [nextBytes(n)] returns
    the bytes one [nextBytes(m + n)] returns, and leaves the generator in
    the same state: the bytes are a stream, however they are asked for
    ([m + n] being a length a typed array can have). *)
Theorem nextBytes_app (g : generator) (m n : nat) :
  Z.of_nat (m + n) <= 2 ^ 53 - 1 ->
  exists b1 g1 b2 g2,
    nextBytes g (Z.of_nat m) = JS.Ok (b1, g1)
    /\ nextBytes g1 (Z.of_nat n) = JS.Ok (b2, g2)
    /\ nextBytes g (Z.of_nat (m + n)) = JS.Ok (b1 ++ b2, g2)
    /\ length b1 = m /\ length b2 = n.
Proof.
  intros Hmn. destruct (classic_chacha g) as [[c ->] | Hg].
  - destruct (chacha_nextBytes_app c m n Hmn) as (b1 & g1 & b2 & g2 & H1 & H2 & H3 & L1 & L2).
    exists b1, (GChaCha20 g1), b2, (GChaCha20 g2). unfold nextBytes.
    rewrite H1, H2, H3. repeat split; assumption.
  - pose proof (nextBytes_loop_variant (seq 0 m) (replicate m 0) g Hg) as Hv.
    rewrite !(nextBytes_generic g) by (lia || exact Hg). rewrite !nextBytes_loop_pure.
    match goal with |- context [foldl ?s (replicate m 0, g) (seq 0 m)] => set (step := s) in * end.
    destruct (foldl step (replicate m 0, g) (seq 0 m)) as [b1 g1] eqn:E1.
    cbn [snd] in Hv.
    exists b1, g1. rewrite (nextBytes_generic g1) by (lia || exact Hv).
    rewrite nextBytes_loop_pure.
    fold step.
    destruct (foldl step (replicate n 0, g1) (seq 0 n)) as [b2 g2] eqn:E2.
    exists b2, g2.
    destruct (loop_app generator
                (fun g => match nextInt g 256 with JS.Ok r => JS.u8 (fst r) | JS.Throw _ => 0 end)
                (fun g => match nextInt g 256 with JS.Ok r => snd r | JS.Throw _ => g end)
                step (fun _ _ => eq_refl) m n g b1 b2 g1 g2 E1 E2)
      as (H & L1 & L2).
    rewrite H. auto.
Qed.

Lemma nextBytes_app_witness :
  exists b1 g1 b2 g2,
    nextBytes (GXorShift128Plus (XorShift128Plus.constructor (Some 42) 0)) (Z.of_nat 2)
    = JS.Ok (b1, g1)
    /\ nextBytes g1 (Z.of_nat 3) = JS.Ok (b2, g2)
    /\ nextBytes (GXorShift128Plus (XorShift128Plus.constructor (Some 42) 0))
                 (Z.of_nat (2 + 3)) = JS.Ok (b1 ++ b2, g2)
    /\ length b1 = 2%nat /\ length b2 = 3%nat.
Proof.
  apply (nextBytes_app (GXorShift128Plus (XorShift128Plus.constructor (Some 42) 0)) 2 3).
  vm_compute. discriminate.
Defined.

(** ** The byte stream of [ChaCha20] *)

Lemma le_bytes_byte (w : Z) : Forall byte (ChaChaSpec.le_bytes w).
Proof.
  unfold ChaChaSpec.le_bytes, byte.
  repeat (constructor; [apply Z.mod_pos_bound; lia |]). constructor.
Qed.

Lemma keystream_byte (st : list Z) : Forall byte (ChaChaSpec.keystream st).
Proof.
  unfold ChaChaSpec.keystream. generalize (zip_with ChaChaSpec.add32 (Nat.iter 10 ChaChaSpec.double_round st) st).
  intros l. induction l as [| w l IH]; cbn [flat_map]; [constructor |].
  apply Forall_app. split; [apply le_bytes_byte | exact IH].
Qed.

Lemma u8_byte (b : Z) : byte b -> JS.u8 b = b.
Proof.
  unfold byte, JS.u8. intros H. change 0xFF with (Z.ones 8).
  rewrite Z.land_ones by lia. apply Z.mod_small. lia.
Qed.

Lemma block_fields (g : ChaCha20.t) :
  chacha_wf g ->
  ChaCha20.buffer (ChaCha20.block g) = ChaChaSpec.keystream (ChaCha20.state g)
  /\ ChaCha20.state (ChaCha20.block g) = next_block (ChaCha20.state g)
  /\ length (ChaChaSpec.keystream (ChaCha20.state g)) = 64%nat
  /\ length (next_block (ChaCha20.state g)) = 16%nat
  /\ Forall word (next_block (ChaCha20.state g)).
Proof.
  intros (Hlen & Hw & Hbuf).
  destruct (rounds_spec 10 (ChaCha20.state g) Hlen Hw) as (Hr & Hrl & Hrw).
  destruct (block_counter (ChaCha20.state g) Hlen Hw) as (Cl & Cw & _).
  assert (Hb : ChaCha20.buffer (ChaCha20.block g) = ChaChaSpec.keystream (ChaCha20.state g)).
  { unfold ChaCha20.block, ChaChaSpec.keystream. cbn [ChaCha20.buffer].
    rewrite Hr. apply block_store_bytes; assumption. }
  assert (Hs : ChaCha20.state (ChaCha20.block g) = next_block (ChaCha20.state g)).
  { unfold ChaCha20.block, next_block. cbn [ChaCha20.state]. cbv zeta.
    rewrite incr_word by (apply rd_word; exact Hw).
    rewrite !rd_insert_eq by lia.
    destruct (Z.eqb ((JS.rd (ChaCha20.state g) 12 + 1) mod 2 ^ 32) 0); [| reflexivity].
    rewrite incr_word; [reflexivity |].
    apply rd_word. apply Forall_insert; [exact Hw |]. apply Z.mod_pos_bound. lia. }
  assert (Hl : length (ChaCha20.buffer (ChaCha20.block g)) = 64%nat).
  { unfold ChaCha20.block. cbn [ChaCha20.buffer]. rewrite block_store_length. exact Hbuf. }
  assert (Hl16 : length (ChaCha20.state (ChaCha20.block g)) = 16%nat) by exact Cl.
  assert (Hw16 : Forall word (ChaCha20.state (ChaCha20.block g))) by exact Cw.
  rewrite Hb in Hl. rewrite Hs in Hl16, Hw16. auto.
Qed.

Lemma chacha_literal (st buffer : list Z) (pos : nat) :
  ChaCha20.state {| ChaCha20.state := st; ChaCha20.buffer := buffer; ChaCha20.pos := pos |} = st
  /\ ChaCha20.pos {| ChaCha20.state := st; ChaCha20.buffer := buffer; ChaCha20.pos := pos |} = pos
  /\ (length st = 16%nat -> Forall word st -> length buffer = 64%nat ->
      chacha_wf {| ChaCha20.state := st; ChaCha20.buffer := buffer; ChaCha20.pos := pos |}).
Proof. unfold chacha_wf. cbn. auto. Qed.

(** The first [S n] bytes read from a generator whose buffer is used up:
    one block is computed, and the bytes are read off it in order. *)
Lemma chacha_read_block (g : ChaCha20.t) (acc : list Z) (n : nat) :
  ChaCha20.pos g = 64%nat -> (n < 64)%nat ->
  foldl ChaCha20.nextBytes_step (acc, g) (seq 0 (S n))
  = (foldl (fun a i => <[ i := JS.u8 (JS.rd (ChaCha20.buffer (ChaCha20.block g)) i) ]> a)
           acc (seq 0 (S n)),
     {| ChaCha20.state := ChaCha20.state (ChaCha20.block g);
        ChaCha20.buffer := ChaCha20.buffer (ChaCha20.block g);
        ChaCha20.pos := S n |}).
Proof.
  intros Hp. induction n as [| n IH]; intros Hn.
  - cbn [seq foldl]. unfold ChaCha20.nextBytes_step, ChaCha20.nextByte. cbn [snd fst].
    rewrite Hp. cbn [Nat.leb]. reflexivity.
  - rewrite seq_S, !foldl_app, IH by lia. cbn [foldl Nat.add].
    unfold ChaCha20.nextBytes_step, ChaCha20.nextByte. cbn [snd fst ChaCha20.pos].
    destruct (Nat.leb_spec 64 (S n)); [lia |].
    cbn [ChaCha20.state ChaCha20.buffer ChaCha20.pos]. reflexivity.
Qed.

Lemma map_rd_seq (l : list Z) :
  Forall byte l -> map (fun i => JS.u8 (JS.rd l i)) (seq 0 (length l)) = l.
Proof.
  intros Hl. apply list_eq. intros i.
  rewrite list_lookup_fmap.
  destruct (Nat.lt_ge_cases i (length l)) as [Hi | Hi].
  - rewrite lookup_seq_lt by exact Hi. cbn [fmap option_fmap option_map Nat.add].
    destruct (lookup_lt_is_Some_2 l i Hi) as [x Hx]. rewrite Hx.
    unfold JS.rd. rewrite Hx. cbn [default]. f_equal. apply u8_byte.
    eapply Forall_lookup_1; eassumption.
  - rewrite lookup_seq_ge by exact Hi. rewrite lookup_ge_None_2 by exact Hi. reflexivity.
Qed.

Lemma read_all (K : list Z) :
  length K = 64%nat -> Forall byte K ->
  foldl (fun a i => <[ i := JS.u8 (JS.rd K i) ]> a) (replicate 64 0) (seq 0 64) = K.
Proof.
  intros Hl Hb.
  etransitivity; [apply (foldl_insert_map (fun i => JS.u8 (JS.rd K i)) 64) |].
  rewrite <- Hl. apply map_rd_seq, Hb.
Qed.

Lemma chacha_first_block (g : ChaCha20.t) :
  chacha_wf g -> ChaCha20.pos g = 64%nat ->
  exists g1,
    ChaCha20.nextBytes g (Z.of_nat 64) = JS.Ok (ChaChaSpec.keystream (ChaCha20.state g), g1)
    /\ ChaCha20.state g1 = next_block (ChaCha20.state g)
    /\ ChaCha20.pos g1 = 64%nat
    /\ chacha_wf g1.
Proof.
  intros Hwf Hp. destruct (block_fields g Hwf) as (Hb & Hs & Hl & Hl16 & Hw16).
  destruct (chacha_literal (next_block (ChaCha20.state g))
                           (ChaChaSpec.keystream (ChaCha20.state g)) 64) as (E1 & E2 & E3).
  eexists. split; [| split; [exact E1 | split; [exact E2 | exact (E3 Hl16 Hw16 Hl)]]].
  rewrite chacha_nextBytes_returns by (cbn; lia).
  rewrite (chacha_read_block g (replicate 64 0) 63 Hp) by lia.
  rewrite Hb, Hs. rewrite (read_all _ Hl (keystream_byte _)). reflexivity.
Qed.

(** The bytes [ChaCha20.nextBytes] returns from a block boundary on are
    the keystream blocks of the state, of the state with its counter moved
    on by one, and so on, each block in order; after [n] blocks the
    counter has moved on [n] times and nothing else in the state has
    changed ([64 n] being a length a typed array can have). *)
Theorem chacha_stream (g : ChaCha20.t) (n : nat) :
  Z.of_nat (64 * n) <= 2 ^ 53 - 1 ->
  chacha_wf g -> ChaCha20.pos g = 64%nat ->
  exists g',
    ChaCha20.nextBytes g (Z.of_nat (64 * n)) = JS.Ok (keystream_blocks n (ChaCha20.state g), g')
    /\ ChaCha20.state g' = Nat.iter n next_block (ChaCha20.state g)
    /\ ChaCha20.pos g' = 64%nat
    /\ chacha_wf g'.
Proof.
  revert g. induction n as [| n IH]; intros g Hle Hwf Hp.
  - exists g. rewrite Nat.mul_0_r, chacha_nextBytes_returns by (cbn; lia).
    cbn [seq foldl replicate].
    cbn [keystream_blocks Nat.iter nat_rect]. auto.
  - replace (64 * S n)%nat with (64 + 64 * n)%nat in * by lia.
    destruct (chacha_nextBytes_app g 64 (64 * n) Hle)
      as (b1 & g1 & b2 & g2 & H1 & H2 & H3 & _).
    destruct (chacha_first_block g Hwf Hp) as (g1' & F1 & Fs & Fp & Fwf).
    rewrite F1 in H1. injection H1 as <- <-.
    destruct (IH g1' ltac:(lia) Fwf Fp) as (g' & Hn & Hs & Hp' & Hwf').
    rewrite Hn in H2. injection H2 as <- <-.
    exists g'. rewrite H3, Fs. cbn [keystream_blocks].
    split; [reflexivity |]. split; [| split; assumption].
    rewrite Hs, Fs. rewrite Nat.iter_succ_r. reflexivity.
Qed.

Lemma chacha_stream_witness :
  exists g',
    ChaCha20.nextBytes rfc8439_generator (Z.of_nat (64 * 2))
    = JS.Ok (keystream_blocks 2 rfc8439_state, g')
    /\ ChaCha20.state g' = Nat.iter 2 next_block rfc8439_state
    /\ ChaCha20.pos g' = 64%nat
    /\ chacha_wf g'.
Proof.
  apply (chacha_stream rfc8439_generator 2); [cbn; lia | | reflexivity].
  split; [reflexivity |]. split; [| reflexivity].
  repeat (constructor; [unfold word; lia |]). constructor.
Defined.

(** ** [numberToBytes] *)

Lemma sar_low_byte (num k : Z) :
  0 <= k <= 24 ->
  JS.and (JS.sar num k) 0xFF = JS.ToUint32 num / 2 ^ k mod 256.
Proof.
  intros Hk. unfold JS.and, JS.sar. rewrite (Z.mod_small k 32) by lia.
  change (JS.ToInt32 0xFF) with (Z.ones 8). rewrite Z.land_ones by lia.
  rewrite ToInt32_mod_256.
  assert (H : Z.shiftr (JS.ToInt32 num) k mod 2 ^ 8 = JS.ToUint32 num / 2 ^ k mod 256).
  { rewrite <- Z.shiftr_div_pow2 by lia. change 256 with (2 ^ 8).
    apply Z.bits_inj'. intros i Hi. rewrite !Z.testbit_mod_pow2 by lia.
    destruct (Z.ltb_spec i 8); [| reflexivity]. cbn [andb].
    rewrite !Z.shiftr_spec by lia. rewrite ToInt32_testbit, ToUint32_testbit by lia.
    destruct (Z.ltb_spec (i + k) 32); [reflexivity | lia]. }
  rewrite H. apply ToInt32_small.
  pose proof (Z.mod_pos_bound (JS.ToUint32 num / 2 ^ k) 256 ltac:(lia)). lia.
Qed.

Lemma sar_period (num : Z) (i : nat) :
  JS.sar num (Z.of_nat (4 + i) * 8) = JS.sar num (Z.of_nat i * 8).
Proof.
  unfold JS.sar. f_equal.
  replace (Z.of_nat (4 + i) * 8) with (Z.of_nat i * 8 + 1 * 32) by lia.
  apply Z.mod_add. lia.
Qed.

(** [numberToBytes(num, 4)] is the four little-endian bytes of [num]
    modulo 2^32, and from the fifth byte on the result repeats itself:
    [>>] takes its count modulo 32, so the eight bytes asked for a heap
    size or an uptime in nanoseconds are the low four bytes twice, and no
    bit above the 32nd enters. *)
Theorem numberToBytes_period (num : Z) (n : nat) :
  numberToBytes num 4 = ChaChaSpec.le_bytes (num mod 2 ^ 32)
  /\ numberToBytes num (4 + n) = numberToBytes num 4 ++ numberToBytes num n
  /\ numberToBytes num 8 = numberToBytes num 4 ++ numberToBytes num 4.
Proof.
  assert (Hp : forall n, numberToBytes num (4 + n) = numberToBytes num 4 ++ numberToBytes num n).
  { intros k. unfold numberToBytes. rewrite seq_app, map_app. f_equal.
    change (seq (0 + 4) k) with (seq (4 + 0) k).
    rewrite <- (fmap_add_seq 4 0 k). change map with (@fmap list _). rewrite <- list_fmap_compose.
    apply list_fmap_ext. intros _ i _. cbn [compose]. rewrite sar_period. reflexivity. }
  split; [| split; [apply Hp | apply (Hp 4%nat)]].
  unfold numberToBytes, ChaChaSpec.le_bytes. cbn [seq map].
  rewrite !sar_low_byte by lia. rewrite ToUint32_mod.
  change (Z.of_nat 0 * 8) with 0. change (Z.of_nat 1 * 8) with 8.
  change (Z.of_nat 2 * 8) with 16. change (Z.of_nat 3 * 8) with 24.
  rewrite Z.pow_0_r, Z.div_1_r. reflexivity.
Qed.

(** ** [randomBigInt] *)

Lemma be_value_lor (buffer : list Z) (v : Z) :
  Forall byte buffer -> 0 <= v ->
  foldl (fun result b => Z.lor (Z.shiftl result 8) b) v buffer
  = foldl (fun v b => 256 * v + b) v buffer
  /\ 0 <= foldl (fun v b => 256 * v + b) v buffer.
Proof.
  intros Hb. revert v. induction Hb as [| b l Hb _ IH]; intros v Hv; cbn [foldl]; [auto |].
  unfold byte in Hb.
  assert (E : Z.lor (Z.shiftl v 8) b = 256 * v + b).
  { rewrite Z.lor_comm. rewrite (proj1 (disjoint_sum b v 8 ltac:(lia) ltac:(lia))). lia. }
  rewrite E. apply IH. lia.
Qed.

(** For [bits >= 0], [randomBigInt(bits)] returns an integer of
    [[0, 2^bits)], whatever the random bytes: their big-endian value
    reduced modulo [2^bits].  It throws when [bits <= -8], where the size
    asked of [crypto.randomBytes] is negative. *)
Theorem randomBigInt_range (buffer : list Z) (bits : Z) :
  Forall byte buffer ->
  (0 <= bits ->
   randomBigInt buffer bits = JS.Ok (be_value buffer mod 2 ^ bits)
   /\ 0 <= be_value buffer mod 2 ^ bits < 2 ^ bits)
  /\ (bits <= -8 -> randomBigInt buffer bits = JS.Throw JS.RangeError).
Proof.
  intros Hb. unfold randomBigInt. cbv zeta. split.
  - intros Hbits. destruct (Z.ltb_spec ((bits + 7) / 8) 0) as [Hneg | _].
    + exfalso. pose proof (Z.div_pos (bits + 7) 8 ltac:(lia) ltac:(lia)). lia.
    + destruct (be_value_lor buffer 0 Hb ltac:(lia)) as [E _]. rewrite E.
      rewrite Z.shiftl_1_l. change (2 ^ bits - 1) with (Z.pred (2 ^ bits)).
      rewrite <- Z.ones_equiv, Z.land_ones by lia.
      split; [reflexivity |]. apply Z.mod_pos_bound. apply Z.pow_pos_nonneg; lia.
  - intros Hbits. destruct (Z.ltb_spec ((bits + 7) / 8) 0) as [_ | Hge]; [reflexivity |].
    exfalso. assert ((bits + 7) / 8 < 0) by (apply Z.div_lt_upper_bound; lia). lia.
Qed.

Lemma randomBigInt_range_witness :
  randomBigInt [0xAB; 0xCD] 12 = JS.Ok (be_value [0xAB; 0xCD] mod 2 ^ 12).
Proof.
  refine (proj1 (proj1 (randomBigInt_range [0xAB; 0xCD] 12 _) _)); [| lia].
  repeat constructor; unfold byte; lia.
Defined.

(** ** [RandomizedAlgorithms.quickSort] *)

Lemma partition_spec (pivotIdx : nat) (pivot : Q) (xs : list Q) (k : nat)
    (l r : list Q) (c : Z) :
  exists dl dr,
    foldl (RandomizedAlgorithms.partition_step pivotIdx pivot) (l, r, c)
          (zip (seq k (length xs)) xs)
    = (l ++ dl, r ++ dr, c + Z.of_nat (length (dl ++ dr)))
    /\ Forall (fun x => (x <= pivot)%Q) dl
    /\ Forall (fun x => (pivot <= x)%Q) dr
    /\ dl ++ dr ≡ₚ (if (pivotIdx <? k)%nat then xs else delete (pivotIdx - k)%nat xs).
Proof.
  revert k l r c. induction xs as [| x xs IH]; intros k l r c.
  - exists [], []. cbn [length seq zip zip_with foldl app]. rewrite !app_nil_r, Z.add_0_r.
    split; [reflexivity |]. split; [constructor |]. split; [constructor |].
    destruct (pivotIdx <? k)%nat; reflexivity.
  - cbn [length seq zip zip_with foldl]. unfold RandomizedAlgorithms.partition_step at 2.
    cbn [fst snd].
    destruct (Nat.eqb_spec k pivotIdx) as [-> | Hne].
    + destruct (IH (S pivotIdx) l r c) as (dl & dr & E & Hl & Hr & Hp).
      exists dl, dr. rewrite E. split; [reflexivity |]. split; [exact Hl |]. split; [exact Hr |].
      rewrite Hp. destruct (Nat.ltb_spec pivotIdx (S pivotIdx)); [| lia].
      destruct (Nat.ltb_spec pivotIdx pivotIdx); [lia |].
      rewrite Nat.sub_diag. reflexivity.
    + assert (Hd : (if (pivotIdx <? k)%nat then x :: xs else delete (pivotIdx - k)%nat (x :: xs))
                   = x :: (if (pivotIdx <? S k)%nat then xs else delete (pivotIdx - S k)%nat xs)).
      { destruct (Nat.ltb_spec pivotIdx k), (Nat.ltb_spec pivotIdx (S k)); try lia.
        - reflexivity.
        - replace (pivotIdx - k)%nat with (S (pivotIdx - S k)) by lia. reflexivity. }
      rewrite Hd.
      destruct (Qle_bool x pivot) eqn:Hx.
      * destruct (IH (S k) (l ++ [x]) r (c + 1)) as (dl & dr & E & Hl & Hr & Hp).
        exists (x :: dl), dr. rewrite E. split.
        { rewrite <- !app_assoc. cbn [app length]. rewrite !length_app.
          f_equal. lia. }
        split; [constructor; [apply Qle_bool_iff; exact Hx | exact Hl] |].
        split; [exact Hr |]. cbn [app]. rewrite Hp. reflexivity.
      * destruct (IH (S k) l (r ++ [x]) (c + 1)) as (dl & dr & E & Hl & Hr & Hp).
        exists dl, (x :: dr). rewrite E. split.
        { rewrite <- !app_assoc. cbn [app length]. rewrite !length_app. cbn [length].
          f_equal. lia. }
        split; [exact Hl |].
        split.
        { constructor; [| exact Hr]. apply Qlt_le_weak, Qnot_le_lt.
          intros Hle. apply Qle_bool_iff in Hle. congruence. }
        rewrite <- Permutation_middle. rewrite Hp. reflexivity.
Qed.

Lemma sort_correct (Math_random : nat -> Q) :
  (forall k, (0 <= Math_random k)%Q /\ (Math_random k < 1)%Q) ->
  forall (fuel : nat) (a : list Q) (calls : nat) (c : Z),
    (length a <= fuel)%nat ->
    exists s calls' c',
      RandomizedAlgorithms.sort fuel Math_random calls c a = Some (s, calls', c')
      /\ s ≡ₚ a /\ StronglySorted Qle s
      /\ c <= c' /\ 2 * (c' - c) <= Z.of_nat (length a) * (Z.of_nat (length a) - 1).
Proof.
  intros Hrnd. induction fuel as [| fuel IH]; intros a calls c Hlen.
  - exists a, calls, c. destruct a; [| cbn in Hlen; lia]. cbn.
    repeat split; try reflexivity; try constructor; lia.
  - cbn [RandomizedAlgorithms.sort].
    destruct (Nat.leb_spec (length a) 1) as [Hle | Hgt].
    { exists a, calls, c. split; [reflexivity |]. split; [reflexivity |].
      split; [| nia].
      destruct a as [| x [| y a]]; [constructor | | cbn in Hle; lia].
      constructor; constructor. }
    destruct (Hrnd calls) as [H0 H1].
    pose proof (floor_scaled (Math_random calls) (Z.of_nat (length a)) H0 H1 ltac:(lia)) as Hidx.
    set (pivotIdx := JS.Math_floor _) in *.
    destruct (Z.ltb_spec pivotIdx 0); [lia |].
    destruct (lookup_lt_is_Some_2 a (Z.to_nat pivotIdx) ltac:(lia)) as [pivot Hpivot].
    rewrite Hpivot.
    destruct (partition_spec (Z.to_nat pivotIdx) pivot a 0 [] [] c)
      as (lft & rgt & E & Hl & Hr & Hp).
    rewrite E. cbn [app].
    change (Z.to_nat pivotIdx <? 0)%nat with false in Hp. rewrite Nat.sub_0_r in Hp.
    pose proof (delete_Permutation a (Z.to_nat pivotIdx) pivot Hpivot) as Hdel.
    assert (Hn : length a = S (length lft + length rgt)).
    { rewrite Hdel. cbn [length]. rewrite <- Hp, length_app. reflexivity. }
    rewrite length_app.
    destruct (IH lft (S calls) (c + Z.of_nat (length lft + length rgt)) ltac:(lia))
      as (sl & calls1 & c1 & El & Pl & Sl & Cl1 & Cl2).
    rewrite El. cbn [mbind option_bind].
    destruct (IH rgt calls1 c1 ltac:(lia)) as (sr & calls2 & c2 & Er & Pr & Sr & Cr1 & Cr2).
    rewrite Er. cbn [mbind option_bind].
    exists (sl ++ pivot :: sr), calls2, c2. split; [reflexivity |].
    split; [| split].
    + rewrite Hdel, <- Hp, Pl, Pr. symmetry. apply Permutation_middle.
    + apply StronglySorted_app_2.
      * intros x1 x2 Hx1 Hx2.
        assert (Hx1' : (x1 <= pivot)%Q).
        { rewrite Pl in Hx1. rewrite Forall_forall in Hl. apply Hl. exact Hx1. }
        apply elem_of_cons in Hx2. destruct Hx2 as [-> | Hx2]; [exact Hx1' |].
        rewrite Pr in Hx2. rewrite Forall_forall in Hr.
        eapply Qle_trans; [exact Hx1' | apply Hr; exact Hx2].
      * exact Sl.
      * constructor; [exact Sr |]. rewrite Pr. exact Hr.
    + rewrite Hn. split; [lia |]. nia.
Qed.

(** [quickSort(arr)] returns, whatever [Math.random()] gives in [[0, 1)]:
    the array sorted is a permutation of [arr] in ascending order, and the
    number of comparisons is at most [n (n - 1) / 2] for [n] elements. *)
Theorem quickSort_sorted (Math_random : nat -> Q) (arr : list Q) :
  (forall k, (0 <= Math_random k)%Q /\ (Math_random k < 1)%Q) ->
  exists sorted comparisons,
    RandomizedAlgorithms.quickSort Math_random arr = Some (sorted, comparisons)
    /\ sorted ≡ₚ arr /\ StronglySorted Qle sorted
    /\ 0 <= 2 * comparisons <= Z.of_nat (length arr) * (Z.of_nat (length arr) - 1).
Proof.
  intros Hrnd.
  destruct (sort_correct Math_random Hrnd (length arr) arr 0%nat 0 ltac:(lia))
    as (s & calls & c & E & P & S & C1 & C2).
  exists s, c. unfold RandomizedAlgorithms.quickSort. rewrite E.
  cbn [mbind option_bind]. repeat split; try assumption; lia.
Qed.

Lemma quickSort_sorted_witness :
  exists sorted comparisons,
    RandomizedAlgorithms.quickSort (fun _ => 1 # 2) [3; 1; 2]%Q = Some (sorted, comparisons)
    /\ sorted ≡ₚ [3; 1; 2]%Q /\ StronglySorted Qle sorted
    /\ 0 <= 2 * comparisons <= Z.of_nat (length [3; 1; 2]%Q) * (Z.of_nat (length [3; 1; 2]%Q) - 1).
Proof.
  apply (quickSort_sorted (fun _ => 1 # 2) [3; 1; 2]%Q).
  intros _. split; [discriminate | reflexivity].
Defined.

Example quickSort_example :
  RandomizedAlgorithms.quickSort (fun _ => 1 # 2) [3; 1; 2; 5; 4]%Q
  = Some ([1; 2; 3; 4; 5]%Q, 7).
Proof. vm_compute. reflexivity. Qed.

(** ** [attackLCG] against the generator of the same file *)

Lemma floor_div_mul (t : Z) :
  JS.Math_floor (JS.div t (2 ^ 32) * inject_Z (2 ^ 32)) = t.
Proof.
  unfold JS.Math_floor, JS.div. rewrite <- (Qfloor_Z t) at 2. apply Qfloor_comp.
  field. discriminate.
Qed.

Lemma lcg_draws_spec (n : nat) (g : LCG.t) :
  lcg_draws n g
  = (map (fun k => JS.div (Nat.iter (S k) (fun s => LCG.state (snd (ComplexityLCG.next {| LCG.state := s |})))
                                   (LCG.state g)) (2 ^ 32))
         (seq 0 n),
     {| LCG.state := Nat.iter n (fun s => LCG.state (snd (ComplexityLCG.next {| LCG.state := s |})))
                              (LCG.state g) |}).
Proof.
  revert g. induction n as [| n IH]; intros g.
  - destruct g. reflexivity.
  - cbn [lcg_draws]. destruct (ComplexityLCG.next g) as [x g1] eqn:E.
    rewrite IH. cbn [seq map].
    assert (Hg1 : LCG.state g1 = LCG.state (snd (ComplexityLCG.next {| LCG.state := LCG.state g |}))).
    { destruct g as [s]. cbn [LCG.state]. rewrite E. reflexivity. }
    assert (Hx : x = JS.div (LCG.state g1) (2 ^ 32)).
    { unfold ComplexityLCG.next in E. injection E as <- <-. reflexivity. }
    f_equal.
    + f_equal.
      * rewrite Hx, Hg1. reflexivity.
      * rewrite <- seq_shift, map_map. apply map_ext. intros k.
        rewrite (Nat.iter_succ_r (S k)), Hg1. reflexivity.
    + rewrite Nat.iter_succ_r, Hg1. reflexivity.
Qed.

(** [attackLCG] recovers the [LCG] of its own file: given the values of
    three or more successive calls of [next()], from any state that is an
    integer of at most 2^53 in magnitude (negative ones included; the
    products are then finite), it finds the multiplier 1664525 and the
    increment 1013904223 and its prediction is the value the next call
    returns; given fewer than three values it reports no success. *)
Theorem attackLCG_predicts (g : LCG.t) (n : nat) :
  - 2 ^ 53 <= LCG.state g <= 2 ^ 53 ->
  (3 <= n)%nat ->
  PatternPredictionAttack.attackLCG (fst (lcg_draws n g))
  = Some {| PatternPredictionAttack.predictedA := 1664525;
            PatternPredictionAttack.predictedC := 1013904223;
            PatternPredictionAttack.nextPrediction :=
              fst (ComplexityLCG.next (snd (lcg_draws n g))) |}.
Proof.
  intros _ Hn. rewrite lcg_draws_spec. cbn [fst snd].
  set (step := fun s => LCG.state (snd (ComplexityLCG.next {| LCG.state := s |}))).
  unfold PatternPredictionAttack.attackLCG.
  rewrite length_map, length_seq.
  destruct (Nat.ltb_spec n 3); [lia |]. cbv zeta.
  rewrite map_map.
  assert (Hst : map (fun k => JS.Math_floor (JS.div (Nat.iter (S k) step (LCG.state g)) (2 ^ 32)
                                             * inject_Z (2 ^ 32))) (seq 0 n)
                = map (fun k => Nat.iter (S k) step (LCG.state g)) (seq 0 n)).
  { apply map_ext. intros k. apply floor_div_mul. }
  rewrite Hst. clear Hst.
  set (states := map _ (seq 0 n)).
  assert (Hrd : forall k, (k < n)%nat -> JS.rd states k = Nat.iter (S k) step (LCG.state g)).
  { intros k Hk. unfold JS.rd, states.
    change (map ?f ?l) with (f <$> l). rewrite list_lookup_fmap.
    rewrite lookup_seq_lt by exact Hk. reflexivity. }
  assert (Hlen : length states = n) by (unfold states; rewrite length_map, length_seq; reflexivity).
  unfold PatternPredictionAttack.knownParams. cbn [PatternPredictionAttack.try_params].
  rewrite Hlen, (Hrd 0%nat), (Hrd 1%nat), (Hrd (n - 1)%nat) by lia.
  assert (Hstep : forall s, JS.rem (JS.add (JS.mul 1664525 s) 1013904223) (2 ^ 32) = step s)
    by reflexivity.
  rewrite !Hstep.
  rewrite (Nat.iter_succ 1 step (LCG.state g)).
  unfold JS.add at 1. rewrite Z.add_opp_diag_r.
  change (Z.abs (JS.round53 0) <? 10) with true. cbv iota.
  replace (S (n - 1)) with n by lia. reflexivity.
Qed.

Lemma attackLCG_predicts_witness :
  PatternPredictionAttack.attackLCG (fst (lcg_draws 3 {| LCG.state := 12345 |}))
  = Some {| PatternPredictionAttack.predictedA := 1664525;
            PatternPredictionAttack.predictedC := 1013904223;
            PatternPredictionAttack.nextPrediction :=
              fst (ComplexityLCG.next (snd (lcg_draws 3 {| LCG.state := 12345 |}))) |}.
Proof. apply attackLCG_predicts; [cbn; lia | lia]. Defined.

(** Fewer than three samples, or samples of another generator: no success. *)
Example attackLCG_fails :
  PatternPredictionAttack.attackLCG [1 # 2; 1 # 4]%Q = None
  /\ PatternPredictionAttack.attackLCG [1 # 2; 1 # 4; 1 # 8]%Q = None.
Proof. vm_compute. split; reflexivity. Qed.

(** ** Modular arithmetic *)

Lemma modPow_loop_spec (n : nat) :
  forall exp result base m,
    (Z.to_nat exp <= n)%nat -> 0 <= exp -> 1 <= m -> 0 <= result -> 0 <= base ->
    ModularMath.modPow_loop result base exp m mod m = (result * base ^ exp) mod m
    /\ (0 < exp -> 0 <= ModularMath.modPow_loop result base exp m < m)
    /\ (exp = 0 -> ModularMath.modPow_loop result base exp m = result).
Proof.
  induction n as [| n IH]; intros exp result base m Hn Hexp Hm Hres Hbase;
    rewrite ModularMath.modPow_loop_equation_1;
    destruct (Z_lt_dec 0 exp) as [Hpos | Hzero];
    cbn [ModularMath.modPow_loop_unfold_clause_1]; try lia;
    try (assert (exp = 0) as -> by lia; rewrite Z.pow_0_r, Z.mul_1_r; repeat split; lia).
  - pose proof (Z.div_mod exp 2 ltac:(lia)) as Hdm.
    pose proof (Z.mod_pos_bound exp 2 ltac:(lia)) as Hbit.
    assert (He2' : 0 <= exp / 2) by (apply Z.div_pos; lia).
    assert (Hpow : base ^ exp = (base * base) ^ (exp / 2) * base ^ (exp mod 2)).
    { replace (base * base) with (base ^ 2) by ring.
      rewrite <- Z.pow_mul_r, <- Z.pow_add_r by lia. f_equal. lia. }
    rewrite (Z.rem_mod_nonneg exp 2) by lia.
    rewrite (Z.rem_mod_nonneg (base * base) m) by nia.
    rewrite Z.shiftr_div_pow2 by lia. change (2 ^ 1) with 2.
    set (e2 := exp / 2) in *.
    assert (He2 : 0 <= e2) by (apply Z.div_pos; lia).
    set (result' := if exp mod 2 =? 1 then Z.rem (result * base) m else result).
    assert (Hres' : 0 <= result' /\ result' mod m = (result * base ^ (exp mod 2)) mod m
                    /\ (exp mod 2 = 1 -> result' < m)).
    { subst result'. destruct (Z.eqb_spec (exp mod 2) 1) as [E | E].
      - rewrite E, Z.pow_1_r. rewrite Z.rem_mod_nonneg by nia.
        pose proof (Z.mod_pos_bound (result * base) m ltac:(lia)).
        rewrite Z.mod_mod by lia. repeat split; lia.
      - assert (exp mod 2 = 0) as -> by lia. rewrite Z.pow_0_r, Z.mul_1_r.
        repeat split; lia. }
    destruct Hres' as (Hr0 & Hrm & Hrlt).
    pose proof (Z.mod_pos_bound (base * base) m ltac:(lia)) as Hb'.
    destruct (IH e2 result' ((base * base) mod m) m ltac:(lia) He2 Hm Hr0 ltac:(lia))
      as (I1 & I2 & I3).
    split; [| split; [| lia]].
    + rewrite I1. rewrite Z.mul_mod, Z.mod_pow_l, Hrm, <- Z.mul_mod by lia.
      f_equal. rewrite Hpow. ring.
    + intros _. destruct (Z.eq_dec e2 0) as [E0 | E0].
      * rewrite (I3 E0). assert (exp mod 2 = 1) by lia.
        split; [lia | apply Hrlt; assumption].
      * apply I2. lia.
Qed.

(** [modPow(base, exp, mod)], for [mod >= 2] and [base], [exp] not
    negative, is [base^exp] reduced modulo [mod].  A modulus of zero
    throws, and an exponent that is zero or negative returns 1 whatever
    the modulus, also for [mod = 1], where every power is 0. *)
Theorem modPow_spec (base exp m : Z) :
  (2 <= m -> 0 <= base -> 0 <= exp ->
   ModularMath.modPow base exp m = BigInt.Ok (base ^ exp mod m))
  /\ (m <> 0 -> exp <= 0 -> ModularMath.modPow base exp m = BigInt.Ok 1)
  /\ ModularMath.modPow base exp 0 = BigInt.Throw BigInt.DivisionByZero.
Proof.
  unfold ModularMath.modPow, BigInt.rem. split; [| split].
  - intros Hm Hb He. destruct (Z.eqb_spec m 0); [lia |].
    cbn [mbind BigInt.result_bind mret BigInt.result_ret]. f_equal.
    rewrite Z.rem_mod_nonneg by lia.
    pose proof (Z.mod_pos_bound base m ltac:(lia)) as Hb'.
    destruct (modPow_loop_spec (Z.to_nat exp) exp 1 (base mod m) m
                ltac:(lia) He ltac:(lia) ltac:(lia) ltac:(lia)) as (I1 & I2 & I3).
    destruct (Z.eq_dec exp 0) as [-> | Hne].
    + rewrite (I3 eq_refl), Z.pow_0_r, Z.mod_small by lia. reflexivity.
    + rewrite <- (Z.mod_small _ m (I2 ltac:(lia))), I1, Z.mul_1_l. apply Z.mod_pow_l.
  - intros Hm He. destruct (Z.eqb_spec m 0); [contradiction |].
    cbn [mbind BigInt.result_bind mret BigInt.result_ret]. f_equal.
    rewrite ModularMath.modPow_loop_equation_1.
    destruct (Z_lt_dec 0 exp); [lia | reflexivity].
  - reflexivity.
Qed.

Lemma modPow_value (base exp m : Z) :
  2 <= m -> 0 <= base -> 0 <= exp ->
  ModularMath.modPow base exp m = BigInt.Ok (base ^ exp mod m).
Proof. intros. apply modPow_spec; assumption. Qed.

Lemma extendedGcd_steps (n : nat) :
  forall a b,
    (Z.abs_nat a <= n)%nat ->
    let '(gcd, x, y) := ModularMath.extendedGcd a b in
    a * x + b * y = gcd /\ (0 <= a -> 0 <= b -> gcd = Z.gcd a b).
Proof.
  induction n as [| n IH]; intros a b Hn;
    rewrite ModularMath.extendedGcd_equation_1;
    destruct (Z.eq_dec a 0) as [E | E];
    cbn [ModularMath.extendedGcd_unfold_clause_1]; try lia;
    try (subst a; split; [lia |]; intros _ Hb;
         rewrite Z.gcd_0_l, Z.abs_eq by lia; reflexivity).
  pose proof (Z.rem_bound_abs b a E) as Hr.
  specialize (IH (Z.rem b a) a ltac:(lia)).
  destruct (ModularMath.extendedGcd (Z.rem b a) a) as [[gcd x1] y1].
  destruct IH as [Hbez Hgcd]. cbv zeta. split.
  - pose proof (Z.quot_rem' b a). nia.
  - intros Ha Hb. rewrite Hgcd; [apply Z.gcd_rem; assumption | | exact Ha].
    apply Z.rem_nonneg; lia.
Qed.

Lemma extendedGcd_bezout (a b : Z) :
  let '(gcd, x, y) := ModularMath.extendedGcd a b in
  a * x + b * y = gcd /\ (0 <= a -> 0 <= b -> gcd = Z.gcd a b).
Proof. apply (extendedGcd_steps (Z.abs_nat a)). lia. Qed.

(** [extendedGcd(a, b)] returns [[gcd, x, y]] with [a x + b y = gcd], for
    all [a] and [b]; when neither is negative, [gcd] is their greatest
    common divisor. *)
Theorem extendedGcd_spec (a b gcd x y : Z) :
  ModularMath.extendedGcd a b = (gcd, x, y) ->
  a * x + b * y = gcd /\ (0 <= a -> 0 <= b -> gcd = Z.gcd a b).
Proof. intros E. pose proof (extendedGcd_bezout a b) as H. rewrite E in H. exact H. Qed.

Lemma extendedGcd_spec_witness :
  240 * -9 + 46 * 47 = 2 /\ (0 <= 240 -> 0 <= 46 -> 2 = Z.gcd 240 46).
Proof. apply (extendedGcd_spec 240 46 2 (-9) 47). vm_compute. reflexivity. Defined.

(** [modInverse(a, mod)], for [mod >= 2] and [a >= 0]: when [a] and [mod]
    are coprime it returns the inverse of [a] modulo [mod], in
    [[0, mod)]; otherwise it throws its [Error]. *)
Theorem modInverse_spec (a m : Z) :
  2 <= m -> 0 <= a ->
  (Z.gcd a m = 1 ->
   exists r, ModularMath.modInverse a m = BigInt.Ok r /\ 0 <= r < m /\ (a * r) mod m = 1)
  /\ (Z.gcd a m <> 1 -> ModularMath.modInverse a m = BigInt.Throw BigInt.NoInverse).
Proof.
  intros Hm Ha. unfold ModularMath.modInverse, BigInt.rem.
  destruct (Z.eqb_spec m 0); [lia |].
  cbn [mbind BigInt.result_bind mret BigInt.result_ret].
  rewrite (Z.rem_mod_nonneg a m) by lia.
  pose proof (Z.mod_pos_bound a m ltac:(lia)) as Hr0.
  pose proof (extendedGcd_bezout (a mod m) m) as Hb.
  destruct (ModularMath.extendedGcd (a mod m) m) as [[gcd x] y].
  destruct Hb as [Hbez Hgcd]. rewrite (Hgcd ltac:(lia) ltac:(lia)) in *.
  rewrite Z.gcd_mod_l in *.
  split.
  - intros Hg. rewrite Hg in *. cbn [Z.eqb negb].
    eexists. split; [reflexivity |].
    assert (Hx : Z.rem (Z.rem x m + m) m = x mod m).
    { pose proof (Z.rem_bound_abs x m ltac:(lia)) as Hab.
      rewrite Z.rem_mod_nonneg by lia.
      rewrite <- Zplus_mod_idemp_r, Z.mod_same, Z.add_0_r by lia.
      pose proof (Z.quot_rem' x m) as Hq.
      replace (Z.rem x m) with (x + (- (x ÷ m)) * m) by lia.
      apply Z.mod_add. lia. }
    rewrite Hx. split; [apply Z.mod_pos_bound; lia |].
    rewrite Zmult_mod_idemp_r. rewrite <- Zmult_mod_idemp_l.
    replace (a mod m * x) with (1 + (- y) * m) by lia.
    rewrite Z.mod_add by lia. apply Z.mod_small. lia.
  - intros Hg. destruct (Z.eqb_spec (Z.gcd a m) 1); [contradiction | reflexivity].
Qed.

Lemma modInverse_spec_witness :
  exists r, ModularMath.modInverse 3 11 = BigInt.Ok r /\ 0 <= r < 11 /\ (3 * r) mod 11 = 1.
Proof.
  apply (proj1 (modInverse_spec 3 11 ltac:(lia) ltac:(lia))). reflexivity.
Defined.

(** ** Diffie-Hellman and ElGamal *)

(** The two secrets of the key exchange agree: what [computeSharedSecret]
    returns to the instance for the other side's public value is what the
    other side computes from the instance's public key, [2^(a b)] modulo
    the prime.  Nothing of this needs the modulus to be prime. *)
Theorem dh_shared_secret (prime a b : Z) :
  2 <= prime -> 0 <= a -> 0 <= b ->
  exists alice bobPublic secret,
    DiffieHellman.constructor prime a = BigInt.Ok alice
    /\ ModularMath.modPow (DiffieHellman.g alice) b (DiffieHellman.p alice) = BigInt.Ok bobPublic
    /\ DiffieHellman.computeSharedSecret alice bobPublic = BigInt.Ok secret
    /\ ModularMath.modPow (DiffieHellman.publicKey alice) b (DiffieHellman.p alice)
       = BigInt.Ok secret
    /\ secret = 2 ^ (a * b) mod prime.
Proof.
  intros Hp Ha Hb. unfold DiffieHellman.constructor.
  rewrite (modPow_value 2 a prime) by lia.
  cbn [mbind BigInt.result_bind mret BigInt.result_ret].
  eexists. eexists. eexists. split; [reflexivity |].
  cbn [DiffieHellman.g DiffieHellman.p DiffieHellman.publicKey].
  unfold DiffieHellman.computeSharedSecret.
  cbn [DiffieHellman.privateKey DiffieHellman.p].
  pose proof (Z.mod_pos_bound (2 ^ a) prime ltac:(lia)) as HA.
  pose proof (Z.mod_pos_bound (2 ^ b) prime ltac:(lia)) as HB.
  split; [apply modPow_value; lia |].
  rewrite (modPow_value (2 ^ b mod prime) a prime) by lia.
  rewrite (modPow_value (2 ^ a mod prime) b prime) by lia.
  rewrite !Z.mod_pow_l, <- !Z.pow_mul_r by lia.
  rewrite (Z.mul_comm b a). auto.
Qed.

Lemma dh_shared_secret_witness :
  exists alice bobPublic secret,
    DiffieHellman.constructor 23 6 = BigInt.Ok alice
    /\ ModularMath.modPow (DiffieHellman.g alice) 15 (DiffieHellman.p alice) = BigInt.Ok bobPublic
    /\ DiffieHellman.computeSharedSecret alice bobPublic = BigInt.Ok secret
    /\ ModularMath.modPow (DiffieHellman.publicKey alice) 15 (DiffieHellman.p alice)
       = BigInt.Ok secret
    /\ secret = 2 ^ (6 * 15) mod 23.
Proof. apply (dh_shared_secret 23 6 15); lia. Defined.

(** [decrypt] undoes [encrypt]: for an odd modulus of at least 3 (every
    value [generatePrime] returns is one, prime or not), a key [x] and a
    nonce [k] that are not negative and a message [m >= 0], decrypting the
    ciphertext of [m] returns [m] modulo [p], which is [m] itself exactly
    when [m < p]. *)
Theorem elgamal_round_trip (prime x k m : Z) :
  3 <= prime -> Z.odd prime = true -> 0 <= x -> 0 <= k -> 0 <= m ->
  exists e c1 c2,
    ElGamal.constructor prime x = BigInt.Ok e
    /\ ElGamal.encrypt e k m = BigInt.Ok (c1, c2)
    /\ ElGamal.decrypt e c1 c2 = BigInt.Ok (m mod prime).
Proof.
  intros Hp Hodd Hx Hk Hm.
  assert (Hrel : Z.gcd 2 prime = 1).
  { assert (Hdiv : (Z.gcd 2 prime | 2)) by apply Z.gcd_divide_l.
    assert (Hdivp : (Z.gcd 2 prime | prime)) by apply Z.gcd_divide_r.
    pose proof (Z.gcd_nonneg 2 prime) as Hnn.
    apply Z.divide_pos_le in Hdiv; [| lia].
    destruct (Z.eq_dec (Z.gcd 2 prime) 0) as [E0 | E0].
    { apply Z.gcd_eq_0_l in E0. lia. }
    destruct (Z.eq_dec (Z.gcd 2 prime) 2) as [E2 | E2]; [| lia].
    rewrite E2 in Hdivp. destruct Hdivp as [q Hq].
    rewrite Hq, Z.mul_comm, Z.odd_mul in Hodd. cbn in Hodd. discriminate. }
  unfold ElGamal.constructor. rewrite (modPow_value 2 x prime) by lia.
  cbn [mbind BigInt.result_bind mret BigInt.result_ret].
  eexists. eexists. eexists. split; [reflexivity |].
  unfold ElGamal.encrypt, ElGamal.decrypt.
  cbn [ElGamal.g ElGamal.p ElGamal.x ElGamal.y].
  pose proof (Z.mod_pos_bound (2 ^ x) prime ltac:(lia)) as HY.
  pose proof (Z.mod_pos_bound (2 ^ k) prime ltac:(lia)) as HC.
  rewrite (modPow_value 2 k prime) by lia.
  rewrite (modPow_value (2 ^ x mod prime) k prime) by lia.
  cbn [mbind BigInt.result_bind mret BigInt.result_ret].
  unfold BigInt.rem. destruct (Z.eqb_spec prime 0); [lia |].
  cbn [mbind BigInt.result_bind mret BigInt.result_ret].
  split; [reflexivity |].
  rewrite (modPow_value (2 ^ k mod prime) x prime) by lia.
  cbn [mbind BigInt.result_bind mret BigInt.result_ret].
  rewrite !Z.mod_pow_l, <- !Z.pow_mul_r by lia. rewrite (Z.mul_comm k x).
  set (s := 2 ^ (x * k) mod prime).
  assert (Hs : 0 <= s < prime) by (apply Z.mod_pos_bound; lia).
  assert (Hsg : Z.gcd s prime = 1).
  { apply Z.coprime_mod_l_iff. apply Z.coprime_pow_l; [nia | exact Hrel]. }
  destruct (proj1 (modInverse_spec s prime ltac:(lia) ltac:(lia)) Hsg) as (sInv & Hinv & Hrange & Hone).
  rewrite Hinv. cbn [mbind BigInt.result_bind mret BigInt.result_ret].
  f_equal. rewrite (Z.rem_mod_nonneg (m * s)) by nia.
  pose proof (Z.mod_pos_bound (m * s) prime ltac:(lia)) as Hc2.
  rewrite Z.rem_mod_nonneg by nia.
  rewrite Zmult_mod_idemp_l, <- Z.mul_assoc, <- Zmult_mod_idemp_r, Hone, Z.mul_1_r.
  reflexivity.
Qed.

Lemma elgamal_round_trip_witness :
  exists e c1 c2,
    ElGamal.constructor 23 5 = BigInt.Ok e
    /\ ElGamal.encrypt e 7 10 = BigInt.Ok (c1, c2)
    /\ ElGamal.decrypt e c1 c2 = BigInt.Ok (10 mod 23).
Proof. apply (elgamal_round_trip 23 5 7 10); (lia || reflexivity). Defined.

(** ** Discrete logarithm by exhaustive search *)

Lemma search_spec (n : nat) (x g h p : Z) :
  2 <= p -> 0 <= g -> 0 <= x ->
  (exists e, DiscreteLogProblem.search n x g h p = BigInt.Ok (Some e)
             /\ x <= e < x + Z.of_nat n /\ g ^ e mod p = h
             /\ forall e', x <= e' < e -> g ^ e' mod p <> h)
  \/ (DiscreteLogProblem.search n x g h p = BigInt.Ok None
      /\ forall e', x <= e' < x + Z.of_nat n -> g ^ e' mod p <> h).
Proof.
  intros Hp Hg. revert x. induction n as [| n IH]; intros x Hx.
  - right. split; [reflexivity | intros e' He'; lia].
  - cbn [DiscreteLogProblem.search]. rewrite modPow_value by lia.
    cbn [mbind BigInt.result_bind mret BigInt.result_ret].
    destruct (Z.eqb_spec (g ^ x mod p) h) as [E | E].
    + left. exists x. split; [reflexivity |]. split; [lia |]. split; [exact E |].
      intros e' He'. lia.
    + destruct (IH (x + 1) ltac:(lia)) as [(e & Hs & Hr & He & Hmin) | (Hs & Hnone)].
      * left. exists e. split; [exact Hs |]. split; [lia |]. split; [exact He |].
        intros e' He'. destruct (Z.eq_dec e' x) as [-> | Hne]; [exact E | apply Hmin; lia].
      * right. split; [exact Hs |]. intros e' He'.
        destruct (Z.eq_dec e' x) as [-> | Hne]; [exact E | apply Hnone; lia].
Qed.

(** [bruteForce(g, h, p)], for [p >= 2] and [g >= 0]: when it reports
    success its exponent is the least [x >= 0] with [g^x mod p = h], and
    the attempts are [x + 1]; when it reports failure no exponent below
    [min(p, 1000000)] gives [h]. *)
Theorem bruteForce_spec (g h p : Z) :
  2 <= p -> 0 <= g ->
  exists r,
    DiscreteLogProblem.bruteForce g h p = BigInt.Ok r
    /\ match DiscreteLogProblem.exponent r with
       | Some x =>
           DiscreteLogProblem.found r = true
           /\ 0 <= x < Z.min p 1000000 /\ g ^ x mod p = h
           /\ (forall x', 0 <= x' < x -> g ^ x' mod p <> h)
           /\ DiscreteLogProblem.attempts r = x + 1
       | None =>
           DiscreteLogProblem.found r = false
           /\ (forall x', 0 <= x' < Z.min p 1000000 -> g ^ x' mod p <> h)
           /\ DiscreteLogProblem.attempts r = Z.min p 1000000
       end.
Proof.
  intros Hp Hg. unfold DiscreteLogProblem.bruteForce. cbv zeta.
  assert (Hmin : Z.min (JS.round53 p) 1000000 = Z.min p 1000000).
  { destruct (Z.lt_ge_cases p (2 ^ 53)) as [Hlt | Hge].
    - rewrite round53_small by lia. reflexivity.
    - assert (Hr : 2 ^ 53 <= JS.round53 p).
      { unfold JS.round53. cbv zeta. rewrite (Z.abs_eq p) by lia.
        destruct (Z.ltb_spec p (2 ^ 53)); [lia |].
        rewrite Z.sgn_pos, Z.mul_1_l by lia.
        pose proof (Z.log2_le_pow2 p 53 ltac:(lia)) as Hl.
        assert (H53 : 53 <= Z.log2 p) by (apply Hl; lia).
        pose proof (Z.log2_spec p ltac:(lia)) as Hs.
        set (e := Z.log2 p - 52) in *.
        assert (Hpe : 0 < 2 ^ e) by (apply Z.pow_pos_nonneg; lia).
        assert (He : 2 ^ Z.log2 p = 2 ^ 52 * 2 ^ e).
        { rewrite <- Z.pow_add_r by lia. f_equal. lia. }
        assert (Hq : 2 ^ 52 <= Z.shiftr p e).
        { rewrite Z.shiftr_div_pow2 by lia. apply Z.div_le_lower_bound; lia. }
        match goal with |- context [if ?c then Z.shiftr p e + 1 else Z.shiftr p e] =>
          assert (Hq' : 2 ^ 52 <= (if c then Z.shiftr p e + 1 else Z.shiftr p e))
            by (destruct c; lia);
          set (q' := if c then Z.shiftr p e + 1 else Z.shiftr p e) in *
        end.
        rewrite Z.shiftl_mul_pow2 by lia.
        assert (2 <= 2 ^ e) by (apply (Z.pow_le_mono_r 2 1 e); lia). nia. }
      lia. }
  rewrite Hmin.
  destruct (search_spec (Z.to_nat (Z.min p 1000000)) 0 g h p Hp Hg ltac:(lia))
    as [(e & Hs & Hr & He & Hleast) | (Hs & Hnone)]; rewrite Hs;
    cbn [mbind BigInt.result_bind mret BigInt.result_ret]; eexists; (split; [reflexivity |]);
    cbn [DiscreteLogProblem.exponent DiscreteLogProblem.found DiscreteLogProblem.attempts].
  - split; [reflexivity |]. split; [lia |]. split; [exact He |]. split; [exact Hleast |].
    rewrite round53_small by lia. unfold JS.add. apply round53_small. lia.
  - split; [reflexivity |]. split; [| reflexivity]. intros x' Hx'. apply Hnone. lia.
Qed.

Lemma bruteForce_spec_witness :
  exists r,
    DiscreteLogProblem.bruteForce 2 9 11 = BigInt.Ok r
    /\ match DiscreteLogProblem.exponent r with
       | Some x =>
           DiscreteLogProblem.found r = true
           /\ 0 <= x < Z.min 11 1000000 /\ 2 ^ x mod 11 = 9
           /\ (forall x', 0 <= x' < x -> 2 ^ x' mod 11 <> 9)
           /\ DiscreteLogProblem.attempts r = x + 1
       | None =>
           DiscreteLogProblem.found r = false
           /\ (forall x', 0 <= x' < Z.min 11 1000000 -> 2 ^ x' mod 11 <> 9)
           /\ DiscreteLogProblem.attempts r = Z.min 11 1000000
       end.
Proof. apply (bruteForce_spec 2 9 11); lia. Defined.

Example modular_examples :
  ModularMath.modPow 2 10 1000 = BigInt.Ok 24
  /\ ModularMath.modPow 5 0 1 = BigInt.Ok 1
  /\ ModularMath.modInverse 3 11 = BigInt.Ok 4
  /\ ModularMath.modInverse 4 8 = BigInt.Throw BigInt.NoInverse
  /\ ModularMath.extendedGcd 240 46 = (2, -9, 47)
  /\ DiscreteLogProblem.bruteForce 2 9 11
     = BigInt.Ok {| DiscreteLogProblem.found := true;
                    DiscreteLogProblem.exponent := Some 6;
                    DiscreteLogProblem.attempts := 7 |}.
Proof. vm_compute. repeat split; reflexivity. Qed.

(** ** The Miller-Rabin test *)

Lemma decompose_spec (d : positive) (r0 : Z) :
  forall r d', MillerRabin.decompose r0 d = (r, d') ->
    r0 <= r /\ Z.pos d = 2 ^ (r - r0) * d' /\ 0 < d' /\ Z.odd d' = true.
Proof.
  revert r0. induction d as [d IH | d IH |]; intros r0 r d' E; cbn [MillerRabin.decompose] in E.
  - injection E as <- <-. rewrite Z.sub_diag. repeat split; try lia; try reflexivity.
  - destruct (IH (r0 + 1) r d' E) as (Hr & Hd & Hpos & Hodd).
    split; [lia |]. split; [| auto].
    replace (r - r0) with (Z.succ (r - (r0 + 1))) by lia.
    rewrite Z.pow_succ_r by lia. rewrite <- Z.mul_assoc, <- Hd. reflexivity.
  - injection E as <- <-. rewrite Z.sub_diag. repeat split; try lia; try reflexivity.
Qed.

(** Modulo a prime, the only square roots of 1 are 1 and -1. *)
Lemma sqrt_one_prime (n x : Z) :
  Z.prime n -> 0 <= x < n -> (x * x) mod n = 1 -> x = 1 \/ x = n - 1.
Proof.
  intros Hp Hx Hsq. pose proof (Z.prime_ge_2 n Hp) as Hn.
  assert (Hdiv : (n | (x - 1) * (x + 1))).
  { exists ((x * x) / n). pose proof (Z.div_mod (x * x) n ltac:(lia)). lia. }
  apply (Z.divide_prime_mul _ _ n Hp) in Hdiv. destruct Hdiv as [[q Hq] | [q Hq]].
  - left. assert (q = 0) by nia. lia.
  - right. assert (q = 1) by nia. lia.
Qed.

(** The fact the test rests on: for a prime [n] and [a] not a multiple of
    [n], if [a^(2^s d)] is 1 modulo [n] then [a^d] is 1, or one of [a^d],
    [a^(2 d)], ..., [a^(2^(s-1) d)] is -1, modulo [n]. *)
Lemma miller_rabin_chain (n a d : Z) :
  Z.prime n -> 0 < d ->
  forall s, 0 <= s -> a ^ (2 ^ s * d) mod n = 1 ->
    a ^ d mod n = 1 \/ exists j, 0 <= j < s /\ a ^ (2 ^ j * d) mod n = n - 1.
Proof.
  intros Hp Hd. pose proof (Z.prime_ge_2 n Hp) as Hn2.
  apply (natlike_ind (fun s => a ^ (2 ^ s * d) mod n = 1 ->
    a ^ d mod n = 1 \/ exists j, 0 <= j < s /\ a ^ (2 ^ j * d) mod n = n - 1)).
  - intros H. left. rewrite Z.pow_0_r, Z.mul_1_l in H. exact H.
  - intros t Ht IH H.
    assert (Hsq : (a ^ (2 ^ t * d) mod n * (a ^ (2 ^ t * d) mod n)) mod n = 1).
    { rewrite <- Z.mul_mod by lia. rewrite <- Z.pow_add_r by nia.
      rewrite <- H. f_equal. f_equal. rewrite Z.pow_succ_r by lia. ring. }
    apply sqrt_one_prime in Hsq; [| exact Hp | apply Z.mod_pos_bound; lia].
    destruct Hsq as [H1 | Hm1].
    + destruct (IH H1) as [H0 | (i & Hi & Hval)]; [left; exact H0 |].
      right. exists i. split; [lia | exact Hval].
    + right. exists t. split; [lia | exact Hm1].
Qed.

Lemma miller_rabin_prime (n a r d : Z) :
  Z.prime n -> a mod n <> 0 -> 0 <= r -> 0 < d -> n - 1 = 2 ^ r * d ->
  a ^ d mod n = 1 \/ exists j, 0 <= j < r /\ a ^ (2 ^ j * d) mod n = n - 1.
Proof.
  intros Hp Ha Hr Hd Hn. apply (miller_rabin_chain n a d Hp Hd r Hr).
  rewrite <- Hn. apply Z.fermat_nz; assumption.
Qed.

(** The inner loop finds the -1 of the chain when there is one within its
    reach. *)
Lemma squarings_finds (n a d : Z) :
  2 <= n -> 0 <= a -> 0 < d ->
  forall fuel i j, 0 <= i -> i < j <= i + Z.of_nat fuel ->
    a ^ (2 ^ j * d) mod n = n - 1 ->
    MillerRabin.squarings fuel (a ^ (2 ^ i * d) mod n) n = BigInt.Ok true.
Proof.
  intros Hn Ha Hd. induction fuel as [| fuel IH]; intros i j Hi Hj Hval; [lia |].
  cbn [MillerRabin.squarings].
  destruct (modPow_spec (a ^ (2 ^ i * d) mod n) 2 n) as (Hpow & _).
  rewrite Hpow by (try apply Z.mod_pos_bound; lia).
  cbn [mbind BigInt.result_bind].
  assert (Hstep : (a ^ (2 ^ i * d) mod n) ^ 2 mod n = a ^ (2 ^ (i + 1) * d) mod n).
  { rewrite Z.pow_2_r, <- Z.mul_mod by lia. rewrite <- Z.pow_add_r by nia.
    f_equal. f_equal. rewrite Z.pow_add_r by lia. ring. }
  rewrite Hstep.
  destruct (Z.eqb_spec (a ^ (2 ^ (i + 1) * d) mod n) (n - 1)) as [| Hne]; [reflexivity |].
  apply (IH (i + 1) j); [lia | | exact Hval].
  assert (j <> i + 1) by (intros ->; contradiction). lia.
Qed.

Lemma witnessLoop_prime (rnd : nat -> Z) (n r d : Z) :
  Z.prime n -> 5 <= n -> (forall i, 0 <= rnd i) ->
  0 <= r -> 0 < d -> n - 1 = 2 ^ r * d ->
  forall k i, MillerRabin.witnessLoop k i rnd n r d = BigInt.Ok true.
Proof.
  intros Hp Hn Hrnd Hr Hd Hdec. induction k as [| k IH]; intros i; [reflexivity |].
  cbn [MillerRabin.witnessLoop]. unfold BigInt.rem.
  destruct (Z.eqb_spec (n - 4) 0); [lia |].
  cbn [mbind BigInt.result_bind].
  set (a := Z.rem (rnd i) (n - 4) + 2).
  assert (Ha : 2 <= a <= n - 2).
  { pose proof (Z.rem_bound_pos (rnd i) (n - 4) (Hrnd i) ltac:(lia)). lia. }
  destruct (modPow_spec a d n) as (Hpow & _).
  rewrite Hpow by lia. cbn [mbind BigInt.result_bind].
  destruct ((a ^ d mod n =? 1) || (a ^ d mod n =? n - 1)) eqn:E; [apply IH |].
  apply orb_false_iff in E. destruct E as [E1 E2].
  apply Z.eqb_neq in E1, E2.
  assert (Hnz : a mod n <> 0) by (rewrite Z.mod_small; lia).
  destruct (miller_rabin_prime n a r d Hp Hnz Hr Hd Hdec) as [H1 | (j & Hj & Hval)];
    [contradiction |].
  assert (j <> 0).
  { intros ->. rewrite Z.pow_0_r, Z.mul_1_l in Hval. contradiction. }
  pose proof (squarings_finds n a d ltac:(lia) ltac:(lia) Hd (Z.to_nat (r - 1)) 0 j
                ltac:(lia) ltac:(lia) Hval) as Hs.
  rewrite Z.pow_0_r, Z.mul_1_l in Hs. rewrite Hs.
  cbn [mbind BigInt.result_bind]. apply IH.
Qed.

(** The Miller-Rabin test never rejects a prime: for a prime [n],
    [ModularMath.isProbablePrime(n, k)] returns [true] for every number [k]
    of rounds and whatever non-negative numbers the random source returns. *)
Theorem isProbablePrime_prime (rnd : nat -> Z) (n : Z) (k : nat) :
  Z.prime n -> (forall i, 0 <= rnd i) ->
  MillerRabin.isProbablePrime rnd n k = BigInt.Ok true.
Proof.
  intros Hp Hrnd. pose proof (Z.prime_ge_2 n Hp) as Hn2.
  unfold MillerRabin.isProbablePrime.
  destruct (Z.ltb_spec n 2); [lia |].
  destruct ((n =? 2) || (n =? 3)) eqn:E; [reflexivity |].
  apply orb_false_iff in E. destruct E as [E2 E3]. apply Z.eqb_neq in E2, E3.
  assert (Hodd : Z.rem n 2 <> 0).
  { intros H0. apply Z.rem_divide in H0; [| lia].
    destruct Hp as [_ Hp]. apply (Hp 2); [lia | exact H0]. }
  destruct (Z.eqb_spec (Z.rem n 2) 0); [contradiction |].
  assert (Hn5 : 5 <= n).
  { destruct (Z.eq_dec n 4) as [-> |]; [exfalso; apply Hodd; reflexivity | lia]. }
  destruct (MillerRabin.decompose 0 (Z.to_pos (n - 1))) as [r d] eqn:Ed.
  apply decompose_spec in Ed. destruct Ed as (Hr & Hd & Hpos & _).
  rewrite Z2Pos.id, Z.sub_0_r in Hd by lia.
  apply witnessLoop_prime; assumption || lia.
Qed.

Lemma prime_13 : Z.prime 13.
Proof.
  split; [lia |]. intros m Hm [q Hq].
  assert (Hc : m = 2 \/ m = 3 \/ m = 4 \/ m = 5 \/ m = 6 \/ m = 7 \/ m = 8 \/ m = 9
               \/ m = 10 \/ m = 11 \/ m = 12) by lia.
  repeat (destruct Hc as [-> | Hc]; [lia |]). subst m. lia.
Qed.

Lemma isProbablePrime_prime_witness :
  MillerRabin.isProbablePrime (fun i => 7 + Z.of_nat i) 13 10 = BigInt.Ok true.
Proof.
  apply isProbablePrime_prime; [exact prime_13 | intros i; lia].
Defined.

(** Composites the test rejects and one it accepts: with the base 2 chosen
    in every round 15 is rejected and the pseudoprime 2047 = 23 * 89 is
    accepted; with base 3 it is rejected. *)
Example isProbablePrime_composites :
  MillerRabin.isProbablePrime (fun _ => 0) 15 3 = BigInt.Ok false
  /\ MillerRabin.isProbablePrime (fun _ => 0) 2047 10 = BigInt.Ok true
  /\ MillerRabin.isProbablePrime (fun _ => 1) 2047 10 = BigInt.Ok false
  /\ MillerRabin.isProbablePrime (fun _ => 0) 4 10 = BigInt.Ok false
  /\ MillerRabin.isProbablePrime (fun _ => 0) 1 10 = BigInt.Ok false.
Proof. vm_compute. repeat split. Qed.

(** ** The subset-sum puzzle *)

Lemma total_cons (x : Z) (l : list Z) : total (x :: l) = x + total l.
Proof. reflexivity. Qed.

Lemma total_abs_nonneg (l : list Z) : 0 <= total (map Z.abs l).
Proof.
  induction l as [| y l IH]; [cbn; lia |].
  cbn [map]. rewrite total_cons. lia.
Qed.

Lemma foldl_add_exact (l : list Z) :
  forall s, Z.abs s + total (map Z.abs l) < 2 ^ 53 -> foldl JS.add s l = s + total l.
Proof.
  induction l as [| x l IH]; intros s Hs; [cbn; lia |].
  cbn [map] in Hs. rewrite total_cons in *. cbn [foldl].
  pose proof (total_abs_nonneg l) as Hnn.
  unfold JS.add at 2. rewrite round53_small by lia.
  rewrite IH by lia. lia.
Qed.

Lemma get_set (m : list (Z * nat)) (n k : Z) (v : nat) :
  PNPChallenge.get (PNPChallenge.set m n v) k
  = if k =? n then Some v else PNPChallenge.get m k.
Proof.
  induction m as [| [j w] m IH]; cbn [PNPChallenge.get PNPChallenge.set].
  - rewrite (Z.eqb_sym n k). reflexivity.
  - destruct (Z.eqb_spec j n) as [-> | Hne]; cbn [PNPChallenge.get].
    + rewrite (Z.eqb_sym n k). destruct (k =? n); reflexivity.
    + rewrite IH. destruct (Z.eqb_spec j k) as [-> | Hne']; [| reflexivity].
      destruct (Z.eqb_spec k n); [contradiction | reflexivity].
Qed.

Lemma keys_set (m : list (Z * nat)) (n k : Z) (v : nat) :
  In k (map fst (PNPChallenge.set m n v)) <-> k = n \/ In k (map fst m).
Proof.
  induction m as [| [j w] m IH]; cbn [PNPChallenge.set map fst In].
  - intuition congruence.
  - destruct (Z.eqb_spec j n) as [-> | Hne]; cbn [map fst In].
    + intuition congruence.
    + rewrite IH. intuition congruence.
Qed.

Lemma set_NoDup (m : list (Z * nat)) (n : Z) (v : nat) :
  List.NoDup (map fst m) -> List.NoDup (map fst (PNPChallenge.set m n v)).
Proof.
  induction m as [| [j w] m IH]; cbn [PNPChallenge.set map fst]; intros Hnd.
  - constructor; [intros [] | constructor].
  - apply NoDup_cons_iff in Hnd. destruct Hnd as [Hj Hnd].
    destruct (Z.eqb_spec j n) as [-> | Hne]; cbn [map fst]; apply NoDup_cons_iff.
    + split; assumption.
    + split; [| apply IH; exact Hnd].
      rewrite keys_set. intros [E | Hin]; [contradiction | exact (Hj Hin)].
Qed.

Lemma get_In (m : list (Z * nat)) (n : Z) (c : nat) :
  PNPChallenge.get m n = Some c -> In (n, c) m.
Proof.
  induction m as [| [j w] m IH]; cbn [PNPChallenge.get In]; [discriminate |].
  destruct (Z.eqb_spec j n) as [-> | Hne].
  - intros [= ->]. left. reflexivity.
  - intros H. right. apply IH. exact H.
Qed.

Lemma In_get (m : list (Z * nat)) (n : Z) (c : nat) :
  List.NoDup (map fst m) -> In (n, c) m -> PNPChallenge.get m n = Some c.
Proof.
  induction m as [| [j w] m IH]; cbn [PNPChallenge.get In map fst]; [intros _ [] |].
  intros Hnd Hin. apply NoDup_cons_iff in Hnd. destruct Hnd as [Hj Hnd].
  destruct Hin as [[= -> ->] | Hin].
  - rewrite Z.eqb_refl. reflexivity.
  - destruct (Z.eqb_spec j n) as [-> | Hne]; [| apply IH; assumption].
    exfalso. apply Hj. apply (in_map fst) in Hin. exact Hin.
Qed.

Lemma counts_spec (l : list Z) :
  forall m, List.NoDup (map fst m) ->
    List.NoDup (map fst (foldl PNPChallenge.count_step m l))
    /\ forall n, default 0%nat (PNPChallenge.get (foldl PNPChallenge.count_step m l) n)
                 = (default 0%nat (PNPChallenge.get m n) + count_occ Z.eq_dec l n)%nat.
Proof.
  induction l as [| x l IH]; intros m Hnd; cbn [foldl count_occ].
  - split; [exact Hnd | intros n; lia].
  - destruct (IH (PNPChallenge.count_step m x)) as [Hnd' Hc].
    { apply set_NoDup. exact Hnd. }
    split; [exact Hnd' |]. intros n. rewrite Hc.
    unfold PNPChallenge.count_step. rewrite get_set.
    destruct (Z.eq_dec x n) as [-> | Hne].
    + rewrite Z.eqb_refl. cbn [default]. unfold id. lia.
    + destruct (Z.eqb_spec n x); [congruence | reflexivity].
Qed.

Lemma counts_NoDup (l : list Z) : List.NoDup (map fst (PNPChallenge.counts l)).
Proof. apply counts_spec. constructor. Qed.

Lemma counts_count_occ (l : list Z) (n : Z) :
  default 0%nat (PNPChallenge.get (PNPChallenge.counts l) n) = count_occ Z.eq_dec l n.
Proof.
  unfold PNPChallenge.counts.
  destruct (counts_spec l [] ltac:(constructor)) as [_ H]. rewrite H. reflexivity.
Qed.

Lemma counts_check (numbers solution : list Z) :
  forallb (fun '(n, count) =>
             negb (default 0 (PNPChallenge.get (PNPChallenge.counts numbers) n) <? count)%nat)
          (PNPChallenge.counts solution) = true
  <-> forall n, (count_occ Z.eq_dec solution n <= count_occ Z.eq_dec numbers n)%nat.
Proof.
  rewrite forallb_forall. split.
  - intros H n.
    destruct (PNPChallenge.get (PNPChallenge.counts solution) n) as [c |] eqn:E.
    + specialize (H _ (get_In _ _ _ E)). cbn in H.
      apply negb_true_iff, Nat.ltb_ge in H.
      rewrite counts_count_occ in H.
      rewrite <- (counts_count_occ solution), E. exact H.
    + rewrite <- (counts_count_occ solution), E. cbn [default]. lia.
  - intros H [n c] Hin. apply (In_get _ _ _ (counts_NoDup solution)) in Hin.
    apply negb_true_iff, Nat.ltb_ge. rewrite counts_count_occ.
    specialize (H n). rewrite <- (counts_count_occ solution), Hin in H. exact H.
Qed.

(** [verifySubsetSum] accepts a solution exactly when no number occurs
    in it more often than in [numbers] and its sum is the target (for
    integers whose absolute values sum to less than 2^53, so that the sum
    of doubles is exact). *)
Theorem verifySubsetSum_spec (numbers : list Z) (target : Z) (solution : list Z) :
  total (map Z.abs solution) < 2 ^ 53 ->
  PNPChallenge.verifySubsetSum numbers target solution = true
  <-> (forall n, (count_occ Z.eq_dec solution n <= count_occ Z.eq_dec numbers n)%nat)
      /\ total solution = target.
Proof.
  intros Hex. unfold PNPChallenge.verifySubsetSum. cbv zeta.
  rewrite foldl_add_exact by (cbn [Z.abs]; lia). rewrite Z.add_0_l.
  rewrite <- counts_check.
  destruct (forallb _ _).
  - rewrite Z.eqb_eq. tauto.
  - split; [discriminate | intros [H _]; discriminate].
Qed.

Lemma verifySubsetSum_spec_witness :
  PNPChallenge.verifySubsetSum [3; 34; 4; 12; 5; 2] 9 [5; 4] = true
  <-> (forall n, le (count_occ Z.eq_dec [5; 4] n)
                     (count_occ Z.eq_dec [3; 34; 4; 12; 5; 2] n))
      /\ total [5; 4] = 9.
Proof. apply verifySubsetSum_spec. vm_compute. reflexivity. Defined.

(** The test [mask & (1 << i)] reads bit [i] of [mask], for [i < 32]. *)
Lemma mask_bit (mask : Z) (i : nat) :
  (i < 32)%nat ->
  (JS.and mask (JS.shl 1 (Z.of_nat i)) =? 0) = negb (Z.testbit mask (Z.of_nat i)).
Proof.
  intros Hi. unfold JS.and, JS.shl.
  rewrite (Z.mod_small (Z.of_nat i) 32) by lia.
  change (JS.ToInt32 1) with 1. rewrite Z.shiftl_1_l.
  set (X := Z.land _ _).
  assert (HX : X mod 2 ^ 32 = if Z.testbit mask (Z.of_nat i) then 2 ^ Z.of_nat i else 0).
  { apply Z.bits_inj'. intros j Hj. rewrite Z.testbit_mod_pow2 by lia.
    destruct (Z.ltb_spec j 32).
    - cbn [andb]. unfold X. rewrite Z.land_spec, !ToInt32_testbit by lia.
      destruct (Z.eq_dec j (Z.of_nat i)) as [-> | Hne].
      + rewrite Z.pow2_bits_true by lia. rewrite andb_true_r.
        destruct (Z.testbit mask (Z.of_nat i)); [| apply eq_sym, Z.bits_0].
        rewrite Z.pow2_bits_true by lia. reflexivity.
      + rewrite Z.pow2_bits_false by lia. rewrite andb_false_r.
        destruct (Z.testbit mask (Z.of_nat i)); [| apply eq_sym, Z.bits_0].
        rewrite Z.pow2_bits_false by lia. reflexivity.
    - cbn [andb]. destruct (Z.testbit mask (Z.of_nat i)); [| apply eq_sym, Z.bits_0].
      rewrite Z.pow2_bits_false by lia. reflexivity. }
  pose proof (ToInt32_mod X) as Hm. pose proof (ToInt32_range X) as Hr.
  rewrite HX in Hm.
  assert (Hp : 0 < 2 ^ Z.of_nat i < 2 ^ 32).
  { split; [apply Z.pow_pos_nonneg; lia | apply Z.pow_lt_mono_r; lia]. }
  destruct (Z.testbit mask (Z.of_nat i)); cbn [negb].
  - apply Z.eqb_neq. intros E. rewrite E in Hm. rewrite Z.mod_0_l in Hm by lia. lia.
  - apply Z.eqb_eq.
    destruct (Z.eq_dec (JS.ToInt32 X) 0) as [| Hne]; [assumption |].
    exfalso. apply Z.mod_divide in Hm; [| lia]. destruct Hm as [q Hq]. lia.
Qed.

(** The loop over [i] collects the numbers at the set bits of [mask]. *)
Lemma subset_loop (numbers : list Z) (mask : Z) :
  forall l k s sub,
    drop k numbers = l -> (k + length l <= 32)%nat ->
    Z.abs s + total (map Z.abs l) < 2 ^ 53 ->
    foldl (PNPChallenge.subset_step numbers mask) (s, sub) (seq k (length l))
    = (s + total (pick_bits mask k l), sub ++ pick_bits mask k l).
Proof.
  induction l as [| x l IH]; intros k s sub Hd Hk Hs;
    cbn [length seq foldl pick_bits map] in *.
  - rewrite app_nil_r. f_equal. cbn. lia.
  - pose proof (total_abs_nonneg l) as Hnn. rewrite total_cons in Hs.
    assert (Hx : JS.rd numbers k = x).
    { unfold JS.rd. rewrite <- (Nat.add_0_r k), <- lookup_drop, Hd. reflexivity. }
    assert (Hd' : drop (S k) numbers = l).
    { rewrite <- (Nat.add_1_r k), <- drop_drop, Hd. reflexivity. }
    unfold PNPChallenge.subset_step at 2. rewrite mask_bit by lia.
    destruct (Z.testbit mask (Z.of_nat k)); cbn [negb].
    + rewrite Hx. unfold JS.add. rewrite round53_small by lia.
      rewrite (IH (S k)) by (assumption || lia).
      rewrite total_cons.
      rewrite <- app_assoc. cbn [app]. f_equal. lia.
    + rewrite (IH (S k)) by (assumption || lia). reflexivity.
Qed.

Lemma pick_bits_sublist (mask : Z) (l : list Z) :
  forall i, sublist (pick_bits mask i l) l.
Proof.
  induction l as [| x l IH]; intros i; cbn [pick_bits]; [constructor |].
  destruct (Z.testbit mask (Z.of_nat i)); [apply sublist_skip | apply sublist_cons]; apply IH.
Qed.

Lemma pick_bits_double (m : Z) (b : bool) (l : list Z) :
  forall i, pick_bits (2 * m + Z.b2z b) (S i) l = pick_bits m i l.
Proof.
  induction l as [| x l IH]; intros i; cbn [pick_bits]; [reflexivity |].
  rewrite (IH (S i)).
  replace (Z.of_nat (S i)) with (Z.succ (Z.of_nat i)) by lia.
  rewrite Z.testbit_succ_r by lia. reflexivity.
Qed.

(** Every sublist is the selection of some mask below [2 ^ length l]. *)
Lemma sublist_mask (s l : list Z) :
  sublist s l -> exists m, 0 <= m < 2 ^ Z.of_nat (length l) /\ pick_bits m 0 l = s.
Proof.
  induction 1 as [| x s l _ (m & Hm & E) | x s l _ (m & Hm & E)].
  - exists 0. split; [cbn; lia | reflexivity].
  - exists (2 * m + Z.b2z true). cbn [length pick_bits].
    rewrite Nat2Z.inj_succ, Z.pow_succ_r by lia. split; [cbn [Z.b2z]; lia |].
    change (Z.of_nat 0) with 0. rewrite Z.testbit_0_r.
    rewrite pick_bits_double, E. reflexivity.
  - exists (2 * m + Z.b2z false). cbn [length pick_bits].
    rewrite Nat2Z.inj_succ, Z.pow_succ_r by lia. split; [cbn [Z.b2z]; lia |].
    change (Z.of_nat 0) with 0. rewrite Z.testbit_0_r.
    rewrite pick_bits_double, E. reflexivity.
Qed.

Lemma sublist_total_abs (s l : list Z) :
  sublist s l -> total (map Z.abs s) <= total (map Z.abs l).
Proof.
  induction 1; cbn [map]; rewrite ?total_cons; lia.
Qed.

Lemma sublist_count_occ (s l : list Z) (n : Z) :
  sublist s l -> (count_occ Z.eq_dec s n <= count_occ Z.eq_dec l n)%nat.
Proof.
  induction 1 as [| x s l _ IH | x s l _ IH]; cbn [count_occ]; [lia | |];
    destruct (Z.eq_dec x n); lia.
Qed.

Lemma search_spec_masks (numbers : list Z) (target : Z) :
  (length numbers <= 32)%nat -> total (map Z.abs numbers) < 2 ^ 53 ->
  forall fuel mask,
    0 <= mask <= 2 ^ Z.of_nat (length numbers) ->
    2 ^ Z.of_nat (length numbers) - mask <= Z.of_nat fuel ->
    (forall m, 0 <= m < mask -> total (pick_bits m 0 numbers) <> target) ->
    exists r, PNPChallenge.search fuel numbers target mask mask = Some r
      /\ (if PNPChallenge.found r
          then exists m, mask <= m < 2 ^ Z.of_nat (length numbers)
               /\ PNPChallenge.solution r = Some (pick_bits m 0 numbers)
               /\ total (pick_bits m 0 numbers) = target
               /\ PNPChallenge.attempts r = m + 1
               /\ (forall m', 0 <= m' < m -> total (pick_bits m' 0 numbers) <> target)
          else PNPChallenge.solution r = None
               /\ PNPChallenge.attempts r = 2 ^ Z.of_nat (length numbers)
               /\ (forall m, 0 <= m < 2 ^ Z.of_nat (length numbers) ->
                     total (pick_bits m 0 numbers) <> target)).
Proof.
  intros Hn Hex.
  assert (Hpow : 2 ^ Z.of_nat (length numbers) <= 2 ^ 32).
  { apply Z.pow_le_mono_r; lia. }
  induction fuel as [| fuel IH]; intros mask Hm Hf Hprev; cbn [PNPChallenge.search];
    destruct (Z.ltb_spec mask (2 ^ Z.of_nat (length numbers))) as [Hlt | Hge]; try lia.
  - eexists. split; [reflexivity |]. cbn.
    assert (mask = 2 ^ Z.of_nat (length numbers)) as -> by lia. auto.
  - pose proof (subset_loop numbers mask numbers 0 0 [] (drop_0 numbers)
                  ltac:(lia) ltac:(cbn [Z.abs]; lia)) as Hloop.
    rewrite Hloop. rewrite Z.add_0_l. cbn [app].
    unfold JS.add. rewrite !round53_small by lia.
    destruct (Z.eqb_spec (total (pick_bits mask 0 numbers)) target) as [E | Hne].
    + eexists. split; [reflexivity |]. cbn.
      exists mask. repeat split; auto; lia.
    + destruct (IH (mask + 1)) as (r & Hr & Hres); [lia | lia | |].
      { intros m Hm'. destruct (Z.eq_dec m mask) as [-> |]; [exact Hne | apply Hprev; lia]. }
      exists r. split; [exact Hr |].
      destruct (PNPChallenge.found r); [| exact Hres].
      destruct Hres as (m & Hm' & Hres). exists m. split; [lia | exact Hres].
  - eexists. split; [reflexivity |]. cbn.
    assert (mask = 2 ^ Z.of_nat (length numbers)) as -> by lia. auto.
Qed.

(** [bruteForceSubsetSum] is sound and complete for up to 32 integers
    whose absolute values sum to less than 2^53: it returns; when it
    reports a solution, that is a sublist of [numbers] whose sum is the
    target, found in at most [2^n] attempts, and [verifySubsetSum] accepts
    it; when it reports none after [2^n] attempts, no sublist of [numbers]
    sums to the target. *)
Theorem bruteForceSubsetSum_spec (numbers : list Z) (target : Z) :
  (length numbers <= 32)%nat -> total (map Z.abs numbers) < 2 ^ 53 ->
  exists r, PNPChallenge.bruteForceSubsetSum numbers target = Some r
    /\ (if PNPChallenge.found r
        then exists s, PNPChallenge.solution r = Some s
             /\ sublist s numbers /\ total s = target
             /\ 1 <= PNPChallenge.attempts r <= 2 ^ Z.of_nat (length numbers)
             /\ PNPChallenge.verifySubsetSum numbers target s = true
        else PNPChallenge.solution r = None
             /\ PNPChallenge.attempts r = 2 ^ Z.of_nat (length numbers)
             /\ (forall s, sublist s numbers -> total s <> target)).
Proof.
  intros Hn Hex. unfold PNPChallenge.bruteForceSubsetSum.
  assert (Hpos : 0 < 2 ^ Z.of_nat (length numbers)) by (apply Z.pow_pos_nonneg; lia).
  destruct (search_spec_masks numbers target Hn Hex (2 ^ length numbers) 0)
    as (r & Hr & Hres).
  - lia.
  - rewrite Nat2Z.inj_pow. change (Z.of_nat 2) with 2. lia.
  - intros m Hm. lia.
  - exists r. split; [exact Hr |].
    destruct (PNPChallenge.found r).
    + destruct Hres as (m & Hm & Hsol & Htot & Hatt & _).
      exists (pick_bits m 0 numbers).
      pose proof (pick_bits_sublist m numbers 0%nat) as Hsub.
      repeat split; auto; try lia.
      apply verifySubsetSum_spec.
      * pose proof (sublist_total_abs _ _ Hsub). lia.
      * split; [| exact Htot]. intros n. apply sublist_count_occ. exact Hsub.
    + destruct Hres as (Hsol & Hatt & Hnone). repeat split; auto.
      intros s Hs Htot. destruct (sublist_mask s numbers Hs) as (m & Hm & E).
      apply (Hnone m Hm). rewrite E. exact Htot.
Qed.

Lemma bruteForceSubsetSum_spec_witness :
  exists r, PNPChallenge.bruteForceSubsetSum [3; 34; 4; 12; 5; 2] 9 = Some r
    /\ (if PNPChallenge.found r
        then exists s, PNPChallenge.solution r = Some s
             /\ sublist s [3; 34; 4; 12; 5; 2] /\ total s = 9
             /\ 1 <= PNPChallenge.attempts r <= 2 ^ Z.of_nat (length [3; 34; 4; 12; 5; 2])
             /\ PNPChallenge.verifySubsetSum [3; 34; 4; 12; 5; 2] 9 s = true
        else PNPChallenge.solution r = None
             /\ PNPChallenge.attempts r = 2 ^ Z.of_nat (length [3; 34; 4; 12; 5; 2])
             /\ (forall s, sublist s [3; 34; 4; 12; 5; 2] -> total s <> 9)).
Proof.
  apply bruteForceSubsetSum_spec; [cbn; lia | vm_compute; reflexivity].
Defined.

(** What the search returns on small puzzles: the first subset in the
    order of the masks, the empty subset for the target 0, and no subset
    after all [2^n] attempts. *)
Example bruteForceSubsetSum_examples :
  PNPChallenge.bruteForceSubsetSum [3; 34; 4; 12; 5; 2] 9
  = Some {| PNPChallenge.found := true; PNPChallenge.solution := Some [4; 5];
            PNPChallenge.attempts := 21 |}
  /\ PNPChallenge.bruteForceSubsetSum [] 0
     = Some {| PNPChallenge.found := true; PNPChallenge.solution := Some [];
               PNPChallenge.attempts := 1 |}
  /\ PNPChallenge.bruteForceSubsetSum [3; 34; 4] 30
     = Some {| PNPChallenge.found := false; PNPChallenge.solution := None;
               PNPChallenge.attempts := 8 |}
  /\ PNPChallenge.verifySubsetSum [3; 34; 4] 6 [3; 3] = false
  /\ PNPChallenge.verifySubsetSum [3; 34; 4] 7 [4; 3] = true.
Proof. vm_compute. repeat split. Qed.

(** ** The two Mersenne Twisters *)

Lemma xor_u32_l (a m : Z) : JS.u32 (JS.xor (JS.u32 a) m) = JS.u32 (JS.xor a m).
Proof.
  unfold JS.u32, JS.xor. rewrite !ToUint32_ToInt32.
  apply Z.bits_inj'. intros i Hi. rewrite !ToUint32_testbit.
  destruct (Z.ltb_spec i 32); [| reflexivity]. cbn [andb].
  rewrite !Z.lxor_spec, !ToInt32_testbit by lia.
  rewrite ToUint32_testbit. destruct (Z.ltb_spec i 32); [reflexivity | lia].
Qed.

Lemma xor_xor_u32 (a b m : Z) :
  JS.u32 (JS.xor (JS.xor a b) m) = JS.u32 (JS.xor (JS.u32 (JS.xor a b)) m).
Proof. symmetry. apply xor_u32_l. Qed.

Lemma xor_0_u32 (a b : Z) : JS.u32 (JS.xor (JS.xor a b) 0) = JS.u32 (JS.xor a b).
Proof.
  unfold JS.u32. unfold JS.xor at 1. rewrite ToUint32_ToInt32.
  change (JS.ToInt32 0) with 0. rewrite Z.lxor_0_r. apply ToUint32_ToInt32.
Qed.

Lemma and_1 (y : Z) : JS.and y 1 = 0 \/ JS.and y 1 = 1.
Proof.
  unfold JS.and. change (JS.ToInt32 1) with (Z.ones 1). rewrite Z.land_ones by lia.
  change (2 ^ 1) with 2. pose proof (Z.mod_pos_bound (JS.ToInt32 y) 2 ltac:(lia)) as H.
  assert (E : JS.ToInt32 y mod 2 = 0 \/ JS.ToInt32 y mod 2 = 1) by lia.
  destruct E as [-> | ->]; [left | right]; reflexivity.
Qed.

Lemma update_twist_step (mt : list Z) (i : nat) :
  ComplexityTwister.update mt i ((i + 1) mod 624) ((i + 397) mod 624)
  = MersenneTwister.twist_step mt i.
Proof.
  unfold ComplexityTwister.update, MersenneTwister.twist_step. cbv zeta.
  set (y := JS.or _ _).
  destruct (and_1 y) as [E | E]; rewrite E.
  - change (JS.rd ComplexityTwister.mag01 (Z.to_nat 0)) with 0. rewrite xor_0_u32.
    reflexivity.
  - change (JS.rd ComplexityTwister.mag01 (Z.to_nat 1)) with 0x9908b0df.
    change (1 =? 0) with false. cbv iota.
    set (v := JS.u32 (JS.xor (JS.rd mt ((i + 397) mod 624)%nat) (JS.ushr y 1))).
    destruct (Nat.lt_ge_cases i (length mt)) as [Hlt | Hge].
    + assert (Hrd : JS.rd (<[i := v]> mt) i = v).
      { unfold JS.rd. rewrite list_lookup_insert_eq by exact Hlt. reflexivity. }
      rewrite Hrd, list_insert_insert_eq. unfold v. rewrite <- xor_xor_u32. reflexivity.
    + rewrite !list_insert_ge by (rewrite ?length_insert; lia). reflexivity.
Qed.

Lemma foldl_ext_in {A B : Type} (f g : A -> B -> A) (l : list B) :
  (forall a b, In b l -> f a b = g a b) -> forall a, foldl f a l = foldl g a l.
Proof.
  induction l as [| b l IH]; intros H a; cbn [foldl]; [reflexivity |].
  rewrite H by (left; reflexivity). apply IH. intros a' b' Hb. apply H. right. exact Hb.
Qed.

Lemma generateNumbers_steps (mt : list Z) :
  ComplexityTwister.generateNumbers mt = foldl MersenneTwister.twist_step mt (seq 0 624).
Proof.
  unfold ComplexityTwister.generateNumbers. cbv zeta.
  assert (Hseq : seq 0 624 = seq 0 227 ++ seq 227 396 ++ [623%nat])
    by (vm_compute; reflexivity).
  rewrite Hseq, !foldl_app. cbn [foldl].
  rewrite <- update_twist_step. change ((623 + 1) mod 624)%nat with 0%nat.
  change ((623 + 397) mod 624)%nat with 396%nat. f_equal.
  rewrite (foldl_ext_in _ MersenneTwister.twist_step (seq 227 396)).
  - f_equal. apply foldl_ext_in. intros a b Hb. apply in_seq in Hb.
    rewrite <- update_twist_step. rewrite !Nat.mod_small by lia. reflexivity.
  - intros a b Hb. apply in_seq in Hb. rewrite <- update_twist_step.
    rewrite (Nat.mod_small (b + 1)) by lia.
    replace ((b + 397) mod 624)%nat with (b - 227)%nat; [reflexivity |].
    replace (b + 397)%nat with ((b - 227) + 1 * 624)%nat by lia.
    rewrite Nat.Div0.mod_add. rewrite Nat.mod_small by lia. reflexivity.
Qed.

(** The Mersenne Twister of [src/modules/complexity.ts] and the one of
    [lib/entropy.ts] are the same generator from the array on:
    [generateNumbers] leaves in [mt] what [twist] leaves there, and [next]
    returns the same number and leaves the same array and position. *)
Theorem complexity_twister_agrees (mt : list Z) (mti : nat) :
  ComplexityTwister.generateNumbers mt
  = MersenneTwister.mt (MersenneTwister.twist {| MersenneTwister.mt := mt;
                                                 MersenneTwister.index := mti |})
  /\ (let '(x, (mt', mti')) := ComplexityTwister.next (mt, mti) in
      MersenneTwister.next {| MersenneTwister.mt := mt; MersenneTwister.index := mti |}
      = (x, {| MersenneTwister.mt := mt'; MersenneTwister.index := mti' |})).
Proof.
  split; [apply generateNumbers_steps |].
  unfold ComplexityTwister.next, MersenneTwister.next, MersenneTwister.twist.
  cbn [MersenneTwister.mt MersenneTwister.index]. rewrite generateNumbers_steps.
  destruct (624 <=? mti)%nat; reflexivity.
Qed.
